(** * agent-usage-stats: the Codex RPC client and the usage cache

    A shallow embedding of
      - the agent's Codex client, the file [transformer.ts] imports as
        [./codex] (modules [Codex] and [CodexRpcClient]),
      - [packages/agent/src/transformer.ts] (module [Transformer]),
      - [packages/server/src/rpc.ts]        (modules [Rpc] and [Routes]),
      - the server's entry file, which mounts [rpc.ts] (module [Server]),
    and the properties of the design document that they satisfy.

    JavaScript values are modelled as follows.
      - A [number] is NaN, an infinity, or a finite value kept as an exact
        rational; rounding to the nearest double inside the finite range is
        not modelled.  Millisecond timestamps ([Date.now()]) and request
        ids are integers, kept in [Z]: double arithmetic is exact on them
        below 2^53.
      - A string is a [string] whose characters stand for code units
        below 256.
      - [undefined] is [None]; a promise that rejects, or a function that
        throws, returns [Throw msg], [msg] being the [Error]'s message.
      - [Map] objects are [gmap]s.
      - Asynchronous code is a transition system: a function runs to its
        first [await], and each continuation (a promise settling, a timer
        firing, a line arriving) is an event that may come at any time it
        is enabled.
    Functions of the host ([JSON.parse], [Date.parse], [readFile], ...) are
    fields of the class [Host]; every theorem holds for every host. *)

From Stdlib Require Import ZArith QArith Qabs Lia Ascii String.
From stdpp Require Import base option list gmap strings pretty.

Open Scope string_scope.
Open Scope list_scope.
Open Scope Z_scope.

(** ** JavaScript values *)

Module Js.

Inductive number :=
| NaN
| Infinity (negative : bool)
| Fin (q : Q).

Definition Number_isFinite (n : number) : bool :=
  match n with Fin _ => true | _ => false end.

(** The outcome of a call that may throw (or of a promise that may reject). *)
Inductive Res (A : Type) :=
| Ok (a : A)
| Throw (message : string).
Arguments Ok {A} a.
Arguments Throw {A} message.

Definition bind {A B} (r : Res A) (k : A -> Res B) : Res B :=
  match r with Ok a => k a | Throw e => Throw e end.

(** [p.catch(() => undefined)] *)
Definition catch_undefined {A} (r : Res (option A)) : option A :=
  match r with Ok v => v | Throw _ => None end.

(** [a ?? b] on optional values. *)
Definition nullish {A} (a b : option A) : option A :=
  match a with Some _ => a | None => b end.

Definition dquote : string := String (Ascii.ascii_of_nat 34) EmptyString.

(** *** Strings *)

Definition code (c : ascii) : Z := Z.of_nat (Ascii.nat_of_ascii c).

(** WhiteSpace and LineTerminator code units below 256. *)
Definition is_white (c : ascii) : bool :=
  let n := code c in
  ((9 <=? n) && (n <=? 13)) || (n =? 32) || (n =? 160).

Fixpoint trimStart (s : string) : string :=
  match s with
  | String c r => if is_white c then trimStart r else s
  | EmptyString => EmptyString
  end.

Fixpoint trimEnd (s : string) : string :=
  match s with
  | String c r =>
      match trimEnd r with
      | EmptyString => if is_white c then EmptyString else String c EmptyString
      | r' => String c r'
      end
  | EmptyString => EmptyString
  end.

Definition trim (s : string) : string := trimEnd (trimStart s).

(** [s.replace(/c/g, by)] for a one-character pattern. *)
Fixpoint replaceAll (c : ascii) (by_ : string) (s : string) : string :=
  match s with
  | String d r =>
      if Ascii.eqb c d then by_ +:+ replaceAll c by_ r
      else String d (replaceAll c by_ r)
  | EmptyString => EmptyString
  end.

(** [s.split(sep)] for a one-character separator: never an empty list. *)
Fixpoint split (sep : ascii) (s : string) : list string :=
  match s with
  | EmptyString => [EmptyString]
  | String d r =>
      if Ascii.eqb sep d then EmptyString :: split sep r
      else match split sep r with
           | h :: t => String d h :: t
           | [] => [String d EmptyString]
           end
  end.

Fixpoint repeat_char (c : ascii) (n : nat) : string :=
  match n with O => EmptyString | S m => String c (repeat_char c m) end.

(** [s.padEnd(target, c)] *)
Definition padEnd (s : string) (target : nat) (c : ascii) : string :=
  s +:+ repeat_char c (target - String.length s)%nat.

Fixpoint startsWith (p s : string) : bool :=
  match p, s with
  | EmptyString, _ => true
  | String a p', String b s' => Ascii.eqb a b && startsWith p' s'
  | String _ _, EmptyString => false
  end.

(** [s.includes(sub)] *)
Fixpoint includes (sub s : string) : bool :=
  startsWith sub s ||
  match s with
  | String _ r => includes sub r
  | EmptyString => false
  end.

(** [String(n)] and template interpolation of an integer. *)
Definition String_of_int (n : Z) : string := pretty n.

(** *** [Number.parseFloat] *)

Definition digit (c : ascii) : option Z :=
  let n := code c in
  if (48 <=? n) && (n <=? 57) then Some (n - 48) else None.

(** The longest run of decimal digits at the head of [s]: their value on
    top of [acc], how many there are, and what follows them. *)
Fixpoint digits (s : string) (acc : Z) (count : Z) : Z * Z * string :=
  match s with
  | String c r =>
      match digit c with
      | Some d => digits r (10 * acc + d) (count + 1)
      | None => (acc, count, s)
      end
  | EmptyString => (acc, count, s)
  end.

Definition sign (s : string) : bool * string :=
  match s with
  | String "+" r => (false, r)
  | String "-" r => (true, r)
  | _ => (false, s)
  end.

(** ExponentPart, read only when it is complete: [e] or [E], an optional
    sign, one digit at least. *)
Definition exponent (s : string) : Z :=
  match s with
  | String c r =>
      if Ascii.eqb c "e" || Ascii.eqb c "E" then
        let '(neg, r') := sign r in
        let '(v, n, _) := digits r' 0 0 in
        if n =? 0 then 0 else if neg then - v else v
      else 0
  | EmptyString => 0
  end.

Definition pow10 (e : Z) : Q :=
  if 0 <=? e then inject_Z (10 ^ e) else Qmake 1 (Z.to_pos (10 ^ (- e))).

(** A rational of magnitude 2^1024 - 2^970 or more rounds to an infinity. *)
Definition overflow : Q := inject_Z (2 ^ 1024 - 2 ^ 970).

Definition of_rational (q : Q) : number :=
  if Qle_bool overflow (Qabs q) then Infinity (negb (Qle_bool 0 q))
  else Fin (Qred q).

(** [Number.parseFloat(s)]: leading white space is skipped, then the longest
    prefix that is a StrDecimalLiteral is read; NaN when there is none. *)
Definition parseFloat (s : string) : number :=
  let '(neg, u) := sign (trimStart s) in
  if startsWith "Infinity" u then Infinity neg else
  let '(ip, ni, r1) := digits u 0 0 in
  let '(mant, nf, r2) :=
    match r1 with
    | String "." r => digits r ip 0
    | _ => (ip, 0, r1)
    end in
  if (ni =? 0) && (nf =? 0) then NaN else
  let q := (inject_Z mant * pow10 (exponent r2 - nf))%Q in
  of_rational (if neg then - q else q)%Q.

(** *** JSON values *)

#[warnings="-register-all"]
Inductive json :=
| JNull
| JBool (b : bool)
| JNum (n : number)
| JStr (s : string)
| JArr (items : list json)
| JObj (fields : list (string * json)).

(** A run-time value read from JSON: [None] is [undefined]. *)
Definition value := option json.

Fixpoint assoc (k : string) (fields : list (string * json)) : value :=
  match fields with
  | [] => None
  | (k', v) :: rest => if String.eqb k k' then Some v else assoc k rest
  end.

(** [v[k]] for [v] neither [null] nor [undefined], and [k] the name of no
    inherited property: an object's own field, [undefined] anywhere else. *)
Definition get (v : json) (k : string) : value :=
  match v with
  | JObj fields => assoc k fields
  | _ => None
  end.

(** [v.k]: a TypeError on [null] and [undefined]. *)
Definition member (v : value) (k : string) : Res value :=
  match v with
  | None | Some JNull => Throw ("Cannot read properties of null or undefined: " +:+ k)
  | Some o => Ok (get o k)
  end.

(** [v?.k] *)
Definition optional_member (v : value) (k : string) : value :=
  match v with
  | None | Some JNull => None
  | Some o => get o k
  end.

(** ToBoolean *)
Definition truthy (v : value) : bool :=
  match v with
  | None | Some JNull => false
  | Some (JBool b) => b
  | Some (JNum NaN) => false
  | Some (JNum (Fin q)) => negb (Qeq_bool q 0)
  | Some (JNum (Infinity _)) => true
  | Some (JStr s) => negb (String.eqb s "")
  | Some (JArr _) | Some (JObj _) => true
  end.

(** [a ?? b] on run-time values: [null] is nullish too. *)
Definition nullish_value (a b : value) : value :=
  match a with
  | None | Some JNull => b
  | Some _ => a
  end.

End Js.

Import Js.

(** ** The host *)

Class Host := {
  (** [JSON.parse]: [None] when it throws a SyntaxError. *)
  JSON_parse : string -> option json;
  (** [Buffer.from(s, "base64").toString("utf8")]: total, it skips what it
      cannot decode. *)
  base64_utf8 : string -> string;
  (** [readFile(path, "utf8")]: the file's text, or the rejection. *)
  readFile : string -> Res string;
  (** [Date.parse]: [None] for NaN, which the empty string gives. *)
  Date_parse : string -> option Z;
  Date_parse_empty : Date_parse "" = None;
  (** [new Date(t).toUTCString()] *)
  toUTCString : Z -> string;
  (** Template interpolation [`${v}`] of a run-time value. *)
  ToString : value -> string;
  (** [Number(s)] *)
  Number_of : string -> number;
  (** [Bun.env.RPC_CACHE_TTL_MS] *)
  env_RPC_CACHE_TTL_MS : option string;
}.

(** ** [codex.ts]: types and the pure helpers *)

Module Codex.

(** [string | number], the type of a reported credits balance. *)
Inductive StringOrNumber :=
| IsString (s : string)
| IsNumber (n : number).

Record CodexRateLimitWindow := {
  usedPercent : option number;
  windowDurationMins : option number;
  resetsAt : option number;
}.

Record CodexCredits := {
  hasCredits : option bool;
  unlimited : option bool;
  balance : option number;
}.

Record CodexRateLimits := {
  primary : option CodexRateLimitWindow;
  secondary : option CodexRateLimitWindow;
  credits : option CodexCredits;
}.

(** [email] and [planType] may come from the credential file, whose claims
    are JSON cast without a check: at run time they hold any JSON value. *)
Record CodexAccount := {
  type : option string;
  email : value;
  planType : value;
  requiresOpenaiAuth : option bool;
}.

(** [CodexAccountResponse] and its [account] field. *)
Record AccountFields := {
  r_type : option string;
  r_email : option string;
  r_planType : option string;
}.

Record CodexAccountResponse := {
  r_account : option AccountFields;
  r_requiresOpenaiAuth : option bool;
}.

(** [CodexRateLimitsResponse], its [rateLimits] and their [credits]. *)
Record CreditsFields := {
  r_hasCredits : option bool;
  r_unlimited : option bool;
  r_balance : option StringOrNumber;
}.

Record RateLimitsFields := {
  r_primary : option CodexRateLimitWindow;
  r_secondary : option CodexRateLimitWindow;
  r_credits : option CreditsFields;
}.

Record CodexRateLimitsResponse := {
  r_rateLimits : option RateLimitsFields;
}.

(** [CodexAuthFallback]: [claims[k] as string | undefined] is whatever JSON
    value the token holds under [k]. *)
Record CodexAuthFallback := {
  a_email : value;
  a_planType : value;
  a_claims : json;
}.

Record Raw := {
  raw_account : CodexAccountResponse;
  raw_rateLimits : CodexRateLimitsResponse;
}.

Record CodexUsageSnapshot := {
  source : string;
  fetchedAt : Z;
  account : option CodexAccount;
  rateLimits : option CodexRateLimits;
  raw : option Raw;
}.

Definition parseCreditsBalance (balance : option StringOrNumber) : option number :=
  match balance with
  | Some (IsNumber n) => if Number_isFinite n then Some n else None
  | Some (IsString s) =>
      let normalized := trim (replaceAll "," "" s) in
      if String.eqb normalized "" then None
      else
        let parsed := parseFloat normalized in
        if Number_isFinite parsed then Some parsed else None
  | None => None
  end.

Definition normalizeRateLimits (result : CodexRateLimitsResponse)
  : option CodexRateLimits :=
  match r_rateLimits result with
  | None => None
  | Some rl =>
      let credits :=
        match r_credits rl with
        | Some c =>
            Some {| hasCredits := r_hasCredits c;
                    unlimited := r_unlimited c;
                    balance := parseCreditsBalance (r_balance c) |}
        | None => None
        end in
      Some {| primary := r_primary rl;
              secondary := r_secondary rl;
              credits := credits |}
  end.

Definition defined {A} (o : option A) : bool :=
  match o with Some _ => true | None => false end.

Definition mergeAccount (result : CodexAccountResponse)
    (fallback : option CodexAuthFallback) : option CodexAccount :=
  let account :=
    default {| r_type := None; r_email := None; r_planType := None |}
            (r_account result) in
  let merged :=
    {| type := r_type account;
       email := nullish_value (JStr <$> r_email account) (fallback ≫= a_email);
       planType := nullish_value (JStr <$> r_planType account) (fallback ≫= a_planType);
       requiresOpenaiAuth := r_requiresOpenaiAuth result |} in
  let hasAnyValue :=
    defined (type merged) || defined (email merged) ||
    defined (planType merged) || defined (requiresOpenaiAuth merged) in
  if hasAnyValue then Some merged else None.

Section WithHost.
Context `{Host}.

Definition decodeJwtPayload (token : string) : value :=
  match split "." token with
  | _ :: payload :: _ =>
      if String.eqb payload "" then None
      else
        let normalized := replaceAll "_" "/" (replaceAll "-" "+" payload) in
        let n := String.length normalized in
        let padded := padEnd normalized (n + ((4 - n mod 4) mod 4))%nat "=" in
        JSON_parse (base64_utf8 padded)
  | _ => None
  end.

Definition email_key : string := "https://api.openai.com/profile.email".
Definition plan_key : string := "https://api.openai.com/auth.chatgpt_plan_type".

Definition fallback_of (claims : json) : CodexAuthFallback :=
  {| a_email := nullish_value (get claims email_key) (get claims "email");
     a_planType := nullish_value (get claims plan_key) (get claims "chatgpt_plan_type");
     a_claims := claims |}.

Definition readCodexAuth (authPath : string) : Res (option CodexAuthFallback) :=
  bind (readFile authPath) (fun raw =>
  match JSON_parse raw with
  | None => Throw "SyntaxError"
  | Some parsed =>
      bind (member (Some parsed) "tokens") (fun tokens =>
      let idToken := optional_member tokens "idToken" in
      if negb (truthy idToken) then Ok None
      else
        match idToken with
        | Some (JStr token) =>
            match decodeJwtPayload token with
            | Some claims =>
                if negb (truthy (Some claims)) then Ok None
                else Ok (Some (fallback_of claims))
            | None => Ok None
            end
        | _ => Throw "token.split is not a function"
        end)
  end).

(** What the spawned process and the clock give one run of
    [fetchCodexUsage]: the outcome of each [client.request], the text of
    [client.stderr], and [Date.now()] at the [return]. *)
Record Upstream := {
  u_initialize : Res unit;
  u_account : Res CodexAccountResponse;
  u_rateLimits : Res CodexRateLimitsResponse;
  u_stderr : string;
  u_now : Z;
}.

(** The [catch] block of [fetchCodexUsage]. *)
Definition rethrow {A} (u : Upstream) (message : string) : Res A :=
  if String.eqb (u_stderr u) "" then Throw message
  else Throw (message +:+ String (ascii_of_nat 10) "Codex stderr: " +:+ u_stderr u).

Definition fetchCodexUsage (authPath : string) (u : Upstream)
  : Res CodexUsageSnapshot :=
  match u_initialize u with
  | Throw e => rethrow u e
  | Ok _ =>
  match u_account u with
  | Throw e => rethrow u e
  | Ok accountResult =>
  match u_rateLimits u with
  | Throw e => rethrow u e
  | Ok rateLimitsResult =>
      let authFallback := catch_undefined (readCodexAuth authPath) in
      let account := mergeAccount accountResult authFallback in
      let rateLimits := normalizeRateLimits rateLimitsResult in
      Ok {| source := "rpc";
            fetchedAt := u_now u;
            account := account;
            rateLimits := rateLimits;
            raw := Some {| raw_account := accountResult;
                           raw_rateLimits := rateLimitsResult |} |}
  end end end.

End WithHost.

End Codex.

(** ** [codex.ts]: class [CodexRpcClient]

    The object's fields, and what it holds of the host: the timers it has
    set and not cleared, the lines it has written to the child's input, and
    the calls it has made of a response promise's [resolve] or [reject].
    A request's promise and its timer are named by the request's id. *)

Module CodexRpcClient.

Record PendingCall := { timeoutId : Z }.

Record Timer := { t_id : Z; t_method : string; t_timeoutMs : Z }.

Inductive Written :=
| Request (id : Z) (method : string) (params : json)
| Notification (method : string) (params : json).

(** What removed a call from the table. *)
Inductive Trigger := Response | TimedOut | Exited | Closed.

Record Settle := {
  s_id : Z;
  s_trigger : Trigger;
  s_outcome : Res value;
}.

Record t := {
  pending : gmap Z PendingCall;
  stderrChunks : list string;
  nextId : Z;
  closed : bool;
  timers : gmap Z Timer;
  written : list Written;
  settles : list Settle;
  killed : bool;
}.

(** [new CodexRpcClient(child)] *)
Definition connect : t :=
  {| pending := ∅; stderrChunks := []; nextId := 1; closed := false;
     timers := ∅; written := []; settles := []; killed := false |}.

Definition set_pending (f : gmap Z PendingCall -> gmap Z PendingCall) (c : t) : t :=
  {| pending := f (pending c); stderrChunks := stderrChunks c;
     nextId := nextId c; closed := closed c; timers := timers c;
     written := written c; settles := settles c; killed := killed c |}.

Definition set_timers (f : gmap Z Timer -> gmap Z Timer) (c : t) : t :=
  {| pending := pending c; stderrChunks := stderrChunks c;
     nextId := nextId c; closed := closed c; timers := f (timers c);
     written := written c; settles := settles c; killed := killed c |}.

(** [clearTimeout(id)] *)
Definition clearTimeout (id : Z) : t -> t := set_timers (delete id).

(** A call of [resolve] or [reject] of the promise of request [id]. *)
Definition settle (id : Z) (by_ : Trigger) (o : Res value) (c : t) : t :=
  {| pending := pending c; stderrChunks := stderrChunks c;
     nextId := nextId c; closed := closed c; timers := timers c;
     written := written c;
     settles := {| s_id := id; s_trigger := by_; s_outcome := o |} :: settles c;
     killed := killed c |}.

Definition write (w : Written) (c : t) : t :=
  {| pending := pending c; stderrChunks := stderrChunks c;
     nextId := nextId c; closed := closed c; timers := timers c;
     written := w :: written c; settles := settles c; killed := killed c |}.

(** A promise keeps its first settlement: the oldest call for [id]. *)
Fixpoint outcome_in (log : list Settle) (id : Z) : option (Res value) :=
  match log with
  | [] => None
  | s :: older =>
      match outcome_in older id with
      | Some o => Some o
      | None => if s_id s =? id then Some (s_outcome s) else None
      end
  end.

Definition outcome (c : t) (id : Z) : option (Res value) :=
  outcome_in (settles c) id.

(** [request]: the id of the promise it returns, or the rejection. *)
Definition request (method : string) (params : json) (timeoutMs : Z) (c : t)
  : t * Res Z :=
  if closed c then (c, Throw "Codex RPC client is closed")
  else
    let id := nextId c in
    let c1 :=
      {| pending := <[id := {| timeoutId := id |}]> (pending c);
         stderrChunks := stderrChunks c;
         nextId := id + 1;
         closed := closed c;
         timers := <[id := {| t_id := id; t_method := method;
                              t_timeoutMs := timeoutMs |}]> (timers c);
         written := written c; settles := settles c; killed := killed c |} in
    (write (Request id method params) c1, Ok id).

(** The callback given to [setTimeout], run for the live timer [tid]; a
    timer that was cleared, or has fired, runs nothing. *)
Definition timeout (tid : Z) (c : t) : t :=
  match timers c !! tid with
  | None => c
  | Some tm =>
      settle (t_id tm) TimedOut
        (Throw ("Codex RPC request timed out: " +:+ t_method tm))
        (set_pending (delete (t_id tm)) (set_timers (delete tid) c))
  end.

Definition notify (method : string) (params : json) (c : t) : t :=
  if closed c then c else write (Notification method params) c.

Definition failAllPending (message : string) (by_ : Trigger) (c : t) : t :=
  let each (c : t) (entry : Z * PendingCall) : t :=
    settle entry.1 by_ (Throw message) (clearTimeout (timeoutId entry.2) c) in
  set_pending (fun _ => ∅) (foldl each c (map_to_list (pending c))).

(** [close]: it returns (its promise is fulfilled) on both paths. *)
Definition close (c : t) : t * Res unit :=
  if closed c then (c, Ok tt)
  else
    let c1 :=
      {| pending := pending c; stderrChunks := stderrChunks c;
         nextId := nextId c; closed := true; timers := timers c;
         written := written c; settles := settles c; killed := true |} in
    (failAllPending "Codex RPC client closed" Closed c1, Ok tt).

(** The key of [this.pending] that a number read from a line is equal
    to, if it is an integer. *)
Definition key_of (n : number) : option Z :=
  match n with
  | Fin q => let r := Qred q in
             if (Qden r =? 1)%positive then Some (Qnum r) else None
  | _ => None
  end.

Section WithHost.
Context `{Host}.

Definition handleLine (line : string) (c : t) : t :=
  match JSON_parse line with
  | None => c
  | Some payload =>
      if negb (truthy (Some payload)) then c
      else
        match get payload "id" with
        | Some (JNum n) =>
            match key_of n ≫= fun id => pair id <$> pending c !! id with
            | None => c
            | Some (id, p) =>
                let c1 := clearTimeout (timeoutId p) (set_pending (delete id) c) in
                match get payload "error" with
                | Some err =>
                    if truthy (Some err) then
                      settle id Response
                        (Throw ("Codex RPC error " +:+ ToString (get err "code")
                                +:+ ": " +:+ ToString (get err "message"))) c1
                    else settle id Response (Ok (get payload "result")) c1
                | None => settle id Response (Ok (get payload "result")) c1
                end
            end
        | _ => c
        end
  end.

End WithHost.

Definition exitMessage (code : option Z) (signal : option string) : string :=
  match code with
  | Some 0 => "Codex RPC process exited unexpectedly"
  | _ =>
      "Codex RPC process exited ("
      +:+ match code with Some n => String_of_int n | None => "unknown" end
      +:+ "$"
      +:+ match signal with
          | Some sg => if String.eqb sg "" then "" else ":" +:+ sg
          | None => ""
          end
      +:+ ")"
  end.

(** The listener of the child's [exit] event. *)
Definition exit (code : option Z) (signal : option string) (c : t) : t :=
  if closed c then c
  else failAllPending (exitMessage code signal) Exited c.

(** The listener of the child's [stderr] data. *)
Definition stderr_data (chunk : string) (c : t) : t :=
  {| pending := pending c; stderrChunks := stderrChunks c ++ [chunk];
     nextId := nextId c; closed := closed c; timers := timers c;
     written := written c; settles := settles c; killed := killed c |}.

(** [get stderr] *)
Definition stderr (c : t) : string :=
  trim (foldr String.append "" (stderrChunks c)).

(** Everything that can happen to a client. *)
Inductive Event :=
| DoRequest (method : string) (params : json) (timeoutMs : Z)
| DoNotify (method : string) (params : json)
| DoClose
| OnLine (line : string)
| OnStderr (chunk : string)
| OnTimeout (tid : Z)
| OnExit (code : option Z) (signal : option string).

Definition step `{Host} (e : Event) (c : t) : t :=
  match e with
  | DoRequest m p ms => (request m p ms c).1
  | DoNotify m p => notify m p c
  | DoClose => (close c).1
  | OnLine l => handleLine l c
  | OnStderr ch => stderr_data ch c
  | OnTimeout tid => timeout tid c
  | OnExit code sg => exit code sg c
  end.

(** The client after the events [es], oldest first. *)
Definition run `{Host} (es : list Event) (c : t) : t :=
  foldl (fun c e => step e c) c es.

(** The ids given to requests, oldest first. *)
Definition issued (c : t) : list Z :=
  reverse (omap (fun w => match w with Request id _ _ => Some id | _ => None end)
                (written c)).

End CodexRpcClient.

(** ** [transformer.ts] *)

Module Transformer.
Import Codex.

Record UsageWindow := {
  w_usedPercent : option number;
  w_windowDurationMins : option number;
  w_resetsAt : option number;
}.

Record UsageCredits := {
  c_hasCredits : option bool;
  c_unlimited : option bool;
  c_balance : option number;
}.

Record UsageAccount := {
  u_email : value;
  u_planType : value;
}.

Record Limits := {
  l_primary : option UsageWindow;
  l_secondary : option UsageWindow;
}.

Record AgentUsageSnapshot := {
  provider : string;
  source : string;
  fetchedAt : Z;
  account : option UsageAccount;
  limits : option Limits;
  credits : option UsageCredits;
  raw : option Raw;
}.

Definition normalizeWindow (window : option CodexRateLimitWindow)
  : option UsageWindow :=
  match window with
  | None => None
  | Some w => Some {| w_usedPercent := usedPercent w;
                      w_windowDurationMins := windowDurationMins w;
                      w_resetsAt := resetsAt w |}
  end.

Definition normalizeCredits (credits : option CodexCredits)
  : option UsageCredits :=
  match credits with
  | None => None
  | Some c => Some {| c_hasCredits := hasCredits c;
                      c_unlimited := unlimited c;
                      c_balance := balance c |}
  end.

Definition normalizeCodexUsage (snapshot : CodexUsageSnapshot)
  : AgentUsageSnapshot :=
  {| provider := "codex";
     source := Codex.source snapshot;
     fetchedAt := Codex.fetchedAt snapshot;
     account :=
       match Codex.account snapshot with
       | Some a => Some {| u_email := email a; u_planType := planType a |}
       | None => None
       end;
     limits :=
       match rateLimits snapshot with
       | Some rl => Some {| l_primary := normalizeWindow (primary rl);
                            l_secondary := normalizeWindow (secondary rl) |}
       | None => None
       end;
     credits := normalizeCredits (rateLimits snapshot ≫= Codex.credits);
     raw := Codex.raw snapshot |}.

End Transformer.

(** ** [rpc.ts]: the cache, the registry of fetches in flight, the
    conditional response *)

Module Rpc.
Import Transformer.

Record CachedUsage := {
  snapshot : AgentUsageSnapshot;
  etag : string;
  lastUpdated : Z;
}.

Definition SUPPORTED_TYPES : list string := ["codex"].
Definition DEFAULT_CACHE_TTL_MS : Q := 10000.

Definition Qlt_bool (x y : Q) : bool := negb (Qle_bool y x).

Definition buildEtag (type : string) (timestamp : Z) : string :=
  "W/" +:+ dquote +:+ type +:+ "-" +:+ String_of_int timestamp +:+ dquote.

(** The two headers of a request that [isNotModified] reads. *)
Record Request := {
  if_none_match : option string;
  if_modified_since : option string;
}.

Section WithHost.
Context `{Host}.

Definition parseCacheTtl : Q :=
  match env_RPC_CACHE_TTL_MS with
  | None => DEFAULT_CACHE_TTL_MS
  | Some raw =>
      if String.eqb raw "" then DEFAULT_CACHE_TTL_MS
      else
        match Number_of raw with
        | Fin parsed =>
            if Qlt_bool parsed 0 then DEFAULT_CACHE_TTL_MS else parsed
        | _ => DEFAULT_CACHE_TTL_MS
        end
  end.

Definition cacheTtlMs : Q := parseCacheTtl.

Definition isNotModified (req : Request) (entry : CachedUsage) : bool :=
  let matches :=
    match if_none_match req with
    | Some ifNoneMatch =>
        negb (String.eqb ifNoneMatch "") && String.eqb ifNoneMatch (etag entry)
    | None => false
    end in
  if matches then true
  else
    match if_modified_since req with
    | Some ifModifiedSince =>
        if String.eqb ifModifiedSince "" then false
        else
          match Date_parse ifModifiedSince with
          | Some parsed => lastUpdated entry <=? parsed
          | None => false
          end
    | None => false
    end.

(** The headers [applyCacheHeaders] sets, in its order. *)
Definition applyCacheHeaders (entry : CachedUsage) : list (string * string) :=
  [ ("ETag", etag entry);
    ("Last-Modified", toUTCString (lastUpdated entry));
    ("X-Last-Updated", String_of_int (lastUpdated entry));
    ("Cache-Control", "no-cache") ].

Definition isFresh (entry : CachedUsage) (now : Z) : bool :=
  Qlt_bool (inject_Z (now - lastUpdated entry)) cacheTtlMs.

(** *** [loadUsage]

    A promise made by [loadUsage] is a cell of [promises], named by its
    index.  Its body awaits [fetchCodexUsage()] ([Fetching]); then the body
    has returned or thrown and the [finally] callback is due ([Returned]);
    then the callback has run and the promise, which is the one
    [loadUsage] hands out, is settled ([Settled]). *)

Inductive Phase :=
| Fetching
| Returned (o : Res CachedUsage)
| Settled (o : Res CachedUsage).

Record Fetch := { f_type : string; f_phase : Phase }.

Record t := {
  cache : gmap string CachedUsage;
  inFlight : gmap string nat;
  promises : list Fetch;
  (** the promises whose body has called [fetchCodexUsage()], newest first *)
  calls : list nat;
}.

Definition start : t :=
  {| cache := ∅; inFlight := ∅; promises := []; calls := [] |}.

(** What a caller of [loadUsage] holds: its own promise is fulfilled with
    the cached entry, or follows the promise of a fetch. *)
Inductive Loaded :=
| Entry (entry : CachedUsage)
| Follows (promise : nat).

Definition loadUsage (type : string) (now : Z) (s : t) : t * Loaded :=
  let stale :=
    match inFlight s !! type with
    | Some pending => (s, Follows pending)
    | None =>
        let fetchPromise := length (promises s) in
        let supported := String.eqb type "codex" in
        let phase :=
          if supported then Fetching
          else Returned (Throw ("Unsupported usage type: " +:+ type)) in
        ({| cache := cache s;
            inFlight := <[type := fetchPromise]> (inFlight s);
            promises := promises s ++ [{| f_type := type; f_phase := phase |}];
            calls := if supported then fetchPromise :: calls s else calls s |},
         Follows fetchPromise)
    end in
  match cache s !! type with
  | Some cached => if isFresh cached now then (s, Entry cached) else stale
  | None => stale
  end.

Definition set_phase (p : nat) (ph : Phase) (l : list Fetch) : list Fetch :=
  alter (fun f => {| f_type := f_type f; f_phase := ph |}) p l.

(** [fetchCodexUsage()] settles with [r] for the promise [p], and the body
    runs on to its end. *)
Definition fetched (p : nat) (r : Res Codex.CodexUsageSnapshot) (s : t) : t :=
  match promises s !! p with
  | Some {| f_type := type; f_phase := Fetching |} =>
      match r with
      | Ok snapshot =>
          let usage := normalizeCodexUsage snapshot in
          let lastUpdated := fetchedAt usage in
          let entry :=
            {| snapshot := usage;
               etag := buildEtag type lastUpdated;
               lastUpdated := lastUpdated |} in
          {| cache := <[type := entry]> (cache s);
             inFlight := inFlight s;
             promises := set_phase p (Returned (Ok entry)) (promises s);
             calls := calls s |}
      | Throw e =>
          {| cache := cache s;
             inFlight := inFlight s;
             promises := set_phase p (Returned (Throw e)) (promises s);
             calls := calls s |}
      end
  | _ => s
  end.

(** The [finally] callback of the promise [p] runs, and [p] settles. *)
Definition finally_ (p : nat) (s : t) : t :=
  match promises s !! p with
  | Some {| f_type := type; f_phase := Returned o |} =>
      {| cache := cache s;
         inFlight := delete type (inFlight s);
         promises := set_phase p (Settled o) (promises s);
         calls := calls s |}
  | _ => s
  end.

End WithHost.

(** What the caller holding [l] has received, once it has. *)
Definition received (s : t) (l : Loaded) : option (Res CachedUsage) :=
  match l with
  | Entry entry => Some (Ok entry)
  | Follows p =>
      match promises s !! p with
      | Some {| f_phase := Settled o |} => Some o
      | _ => None
      end
  end.

(** The fetches of [type] that are upstream: [fetchCodexUsage()] was called
    for them and has not settled. *)
Definition fetching (s : t) (type : string) (p : nat) : bool :=
  match promises s !! p with
  | Some {| f_type := ty; f_phase := Fetching |} => String.eqb ty type
  | _ => false
  end.

Definition upstream (s : t) (type : string) : list nat :=
  filter (fun p => fetching s type p = true) (calls s).

Inductive Event :=
| Load (type : string) (now : Z)
| Fetched (p : nat) (r : Res Codex.CodexUsageSnapshot)
| Finally (p : nat).

Definition step `{Host} (e : Event) (s : t) : t :=
  match e with
  | Load type now => (loadUsage type now s).1
  | Fetched p r => fetched p r s
  | Finally p => finally_ p s
  end.

Definition run `{Host} (es : list Event) (s : t) : t :=
  foldl (fun s e => step e s) s es.

(** Callers that call [loadUsage type] one after the other, at the clock
    readings [nows], with nothing else running in between. *)
Fixpoint loads `{Host} (type : string) (nows : list Z) (s : t) : t * list Loaded :=
  match nows with
  | [] => (s, [])
  | now :: rest =>
      let '(s1, l) := loadUsage type now s in
      let '(s2, ls) := loads type rest s1 in
      (s2, l :: ls)
  end.

End Rpc.

(** ** A host and a fetch to run the definitions on *)

Module Sample.
Import Codex.

Definition authPath : string := "/home/u/.codex/auth.json".

(** The token's second segment is the base64url text of [payload]. *)
Definition token : string := "head.cGF5bG9hZA.sig".

Definition claims : json :=
  JObj [ (email_key, JStr "n@x.com"); ("email", JStr "b@y.com");
         ("chatgpt_plan_type", JStr "plus") ].

Definition host : Host :=
  {| JSON_parse := fun text =>
       if String.eqb text "auth" then
         Some (JObj [("tokens", JObj [("idToken", JStr token)])])
       else if String.eqb text "payload" then Some claims
       else None;
     base64_utf8 := fun text =>
       if String.eqb text "cGF5bG9hZA==" then "payload" else "";
     readFile := fun path =>
       if String.eqb path authPath then Ok "auth"
       else Throw ("ENOENT: no such file or directory, open " +:+ path);
     Date_parse := fun text =>
       if String.eqb text "Tue, 14 Nov 2023 22:13:21 GMT"
       then Some 1700000001000 else None;
     Date_parse_empty := eq_refl;
     toUTCString := fun time =>
       if time =? 1700000000000 then "Tue, 14 Nov 2023 22:13:20 GMT" else "";
     ToString := fun v =>
       match v with Some (JStr text) => text | _ => "undefined" end;
     Number_of := fun _ => NaN;
     env_RPC_CACHE_TTL_MS := None |}.

Definition upstream : Upstream :=
  {| u_initialize := Ok tt;
     u_account := Ok {| r_account := None; r_requiresOpenaiAuth := Some false |};
     u_rateLimits := Ok {| r_rateLimits := None |};
     u_stderr := "";
     u_now := 1700000000000 |}.

Definition snapshot : CodexUsageSnapshot :=
  {| source := "rpc";
     fetchedAt := 1700000000000;
     account := Some {| type := None; email := Some (JStr "n@x.com");
                        planType := Some (JStr "plus");
                        requiresOpenaiAuth := Some false |};
     rateLimits := None;
     raw := Some {| raw_account :=
                      {| r_account := None; r_requiresOpenaiAuth := Some false |};
                    raw_rateLimits := {| r_rateLimits := None |} |} |}.

Definition entry : Rpc.CachedUsage :=
  {| Rpc.snapshot := Transformer.normalizeCodexUsage snapshot;
     Rpc.etag := "W/" +:+ dquote +:+ "codex-1700000000000" +:+ dquote;
     Rpc.lastUpdated := 1700000000000 |}.

(** One caller, the fetch it starts, and the fetch's success. *)
Definition fetch_done : list Rpc.Event :=
  [Rpc.Load "codex" 1699999999000; Rpc.Fetched 0 (Ok snapshot); Rpc.Finally 0].

End Sample.

(** * Properties *)

(** ** Credits balance and account merge *)

Section Normalisation.
Import Codex.

Lemma parseCreditsBalance_number (n : number) :
  parseCreditsBalance (Some (IsNumber n)) =
  if Number_isFinite n then Some n else None.
Proof. reflexivity. Qed.

Lemma parseCreditsBalance_string (s : string) :
  parseCreditsBalance (Some (IsString s)) =
  match parseFloat (trim (replaceAll "," "" s)) with
  | Fin q => if String.eqb (trim (replaceAll "," "" s)) "" then None else Some (Fin q)
  | _ => None
  end.
Proof.
  unfold parseCreditsBalance.
  destruct (String.eqb _ ""); destruct (parseFloat _); reflexivity.
Qed.

(** Whatever [parseCreditsBalance] returns is finite, and is the number it
    was given or the number its text reads as. *)
Lemma parseCreditsBalance_some (b : option StringOrNumber) (n : number) :
  parseCreditsBalance b = Some n ->
  Number_isFinite n = true /\
  (b = Some (IsNumber n) \/
   exists s, b = Some (IsString s) /\ parseFloat (trim (replaceAll "," "" s)) = n).
Proof.
  destruct b as [[s|m]|]; simpl; try discriminate.
  - destruct (String.eqb _ ""); try discriminate.
    destruct (Number_isFinite (parseFloat _)) eqn:Hfin; try discriminate.
    intros [= <-]. split; [exact Hfin | right; eauto].
  - destruct (Number_isFinite m) eqn:Hfin; try discriminate.
    intros [= <-]. split; [exact Hfin | left; reflexivity].
Qed.

(** C4. The balance "1,234.50" normalizes to 1234.5 (the separators are
    stripped); a finite numeric balance, 42 for one, is returned as it is;
    a text that reads as no number ("not-a-number", and any text
    [parseFloat] gives no finite number for) and a missing balance yield
    an absent balance: the result is an optional number, never an error,
    and a number only when the input is or reads as that number. *)
Theorem parseCreditsBalance_normalizes :
  parseCreditsBalance (Some (IsString "1,234.50")) = Some (Fin (2469 # 2))
  /\ (2469 # 2 == 1234.5)%Q
  /\ parseCreditsBalance (Some (IsNumber (Fin 42))) = Some (Fin 42)
  /\ (forall q, parseCreditsBalance (Some (IsNumber (Fin q))) = Some (Fin q))
  /\ parseCreditsBalance (Some (IsString "not-a-number")) = None
  /\ parseCreditsBalance None = None
  /\ (forall s, Number_isFinite (parseFloat (trim (replaceAll "," "" s))) = false ->
        parseCreditsBalance (Some (IsString s)) = None)
  /\ (forall n, Number_isFinite n = false ->
        parseCreditsBalance (Some (IsNumber n)) = None)
  /\ (forall b n, parseCreditsBalance b = Some n ->
        Number_isFinite n = true /\
        (b = Some (IsNumber n) \/
         exists s, b = Some (IsString s) /\
                   parseFloat (trim (replaceAll "," "" s)) = n)).
Proof.
  split; [vm_compute; reflexivity|].
  split; [reflexivity|].
  split; [reflexivity|].
  split; [reflexivity|].
  split; [vm_compute; reflexivity|].
  split; [reflexivity|].
  split.
  { intros s Hs. rewrite parseCreditsBalance_string.
    destruct (parseFloat _); [reflexivity | reflexivity | discriminate]. }
  split.
  { intros n Hn. rewrite parseCreditsBalance_number, Hn. reflexivity. }
  exact parseCreditsBalance_some.
Qed.

(** The field a merged account holds, absent when there is no account. *)
Definition merged {A} (field : CodexAccount -> option A)
    (account : option CodexAccount) : option A :=
  account ≫= field.

Lemma mergeAccount_fields (result : CodexAccountResponse)
    (fallback : option CodexAuthFallback) :
  merged email (mergeAccount result fallback) =
    nullish_value (JStr <$> (r_account result ≫= r_email)) (fallback ≫= a_email)
  /\ merged planType (mergeAccount result fallback) =
    nullish_value (JStr <$> (r_account result ≫= r_planType)) (fallback ≫= a_planType)
  /\ merged type (mergeAccount result fallback) = r_account result ≫= r_type
  /\ merged requiresOpenaiAuth (mergeAccount result fallback) =
    r_requiresOpenaiAuth result.
Proof.
  destruct result as [[[[ty|] [em|] [pl|]]|] [req|]];
    destruct fallback as [[[em'|] [pl'|] claims]|];
    unfold mergeAccount, merged; simpl;
    try destruct em'; try destruct pl'; simpl; auto.
Qed.

(** C5. Of the account the RPC answers with and of the credential
    fallback, the merged account takes each field from the RPC answer when
    it has a value there, and from the fallback only when it has none:
    [type] and [requiresOpenaiAuth] have no fallback; an RPC email
    "a@x.com" wins over the fallback's "b@y.com", which is taken when the
    RPC answer has no email. *)
Theorem mergeAccount_rpc_wins (result : CodexAccountResponse)
    (fallback : option CodexAuthFallback) :
  (forall e, r_account result ≫= r_email = Some e ->
     merged email (mergeAccount result fallback) = Some (JStr e))
  /\ (r_account result ≫= r_email = None ->
     merged email (mergeAccount result fallback) = fallback ≫= a_email)
  /\ (forall p, r_account result ≫= r_planType = Some p ->
     merged planType (mergeAccount result fallback) = Some (JStr p))
  /\ (r_account result ≫= r_planType = None ->
     merged planType (mergeAccount result fallback) = fallback ≫= a_planType)
  /\ merged type (mergeAccount result fallback) = r_account result ≫= r_type
  /\ merged requiresOpenaiAuth (mergeAccount result fallback) =
     r_requiresOpenaiAuth result
  /\ (forall fb, r_account result ≫= r_email = Some "a@x.com" ->
        a_email fb = Some (JStr "b@y.com") ->
        merged email (mergeAccount result (Some fb)) = Some (JStr "a@x.com"))
  /\ (forall fb, r_account result ≫= r_email = None ->
        a_email fb = Some (JStr "b@y.com") ->
        merged email (mergeAccount result (Some fb)) = Some (JStr "b@y.com")).
Proof.
  pose proof (mergeAccount_fields result fallback) as (He & Hp & Ht & Hr).
  repeat split; try assumption.
  - intros e Hrpc. rewrite He, Hrpc. reflexivity.
  - intros Hrpc. rewrite He, Hrpc. reflexivity.
  - intros p Hrpc. rewrite Hp, Hrpc. reflexivity.
  - intros Hrpc. rewrite Hp, Hrpc. reflexivity.
  - intros fb Hrpc _.
    destruct (mergeAccount_fields result (Some fb)) as (He' & _).
    rewrite He', Hrpc. reflexivity.
  - intros fb Hrpc Hfb.
    destruct (mergeAccount_fields result (Some fb)) as (He' & _).
    rewrite He', Hrpc. simpl. rewrite Hfb. reflexivity.
Qed.

End Normalisation.

(** ** The cache and the registry of fetches in flight *)

Module RpcFacts.
Import Transformer Rpc.

Section WithHost.
Context `{Host}.

(** An entry as [loadUsage] builds it for [type]. *)
Definition built_for (type : string) (entry : CachedUsage) : Prop :=
  lastUpdated entry = fetchedAt (snapshot entry) /\
  etag entry = buildEtag type (lastUpdated entry).

Definition live (ph : Phase) : Prop :=
  match ph with Settled _ => False | _ => True end.

(** What every state [loadUsage] and its promises pass through satisfies:
    the registry names exactly the promises that have not settled, one per
    type at most, and [fetchCodexUsage()] was called once for each promise
    for "codex" and for no other. *)
Record Inv (s : t) : Prop := {
  inv_cache : forall k e, cache s !! k = Some e -> built_for k e;
  inv_inFlight : forall k p, inFlight s !! k = Some p ->
    exists ph, promises s !! p = Some {| f_type := k; f_phase := ph |} /\ live ph;
  inv_live : forall p k ph,
    promises s !! p = Some {| f_type := k; f_phase := ph |} -> live ph ->
    inFlight s !! k = Some p;
  inv_calls : forall p, p ∈ calls s <->
    exists ph, promises s !! p = Some {| f_type := "codex"; f_phase := ph |};
  inv_nodup : NoDup (calls s);
  inv_fetching : forall p k,
    promises s !! p = Some {| f_type := k; f_phase := Fetching |} -> k = "codex";
}.

Lemma Inv_start : Inv start.
Proof.
  split; simpl; intros; try (rewrite ?lookup_empty in *; discriminate).
  - split; [intros Hin; inversion Hin | intros [ph Hph]; discriminate].
  - constructor.
Qed.

Lemma set_phase_lookup (p q : nat) (ph : Phase) (l : list Fetch) :
  set_phase p ph l !! q =
  if decide (p = q)
  then (fun f => {| f_type := f_type f; f_phase := ph |}) <$> l !! p
  else l !! q.
Proof. unfold set_phase. apply list_lookup_alter. Qed.

Lemma eqb_codex (k : string) : String.eqb k "codex" = true <-> k = "codex".
Proof. apply String.eqb_eq. Qed.

(** [loadUsage] when there is no fresh entry and no fetch in flight. *)
Lemma loadUsage_miss (type : string) (now : Z) (s : t) :
  (forall e, cache s !! type = Some e -> isFresh e now = false) ->
  inFlight s !! type = None ->
  loadUsage type now s =
  ({| cache := cache s;
      inFlight := <[type := length (promises s)]> (inFlight s);
      promises := promises s ++
        [{| f_type := type;
            f_phase := if String.eqb type "codex" then Fetching
                       else Returned (Throw ("Unsupported usage type: " +:+ type)) |}];
      calls := if String.eqb type "codex"
               then length (promises s) :: calls s else calls s |},
   Follows (length (promises s))).
Proof.
  intros Hstale Hnone. unfold loadUsage. rewrite Hnone.
  destruct (cache s !! type) as [e|] eqn:Hc; [|reflexivity].
  rewrite (Hstale e eq_refl). reflexivity.
Qed.

(** [loadUsage] when there is no fresh entry and a fetch in flight. *)
Lemma loadUsage_joins (type : string) (now : Z) (s : t) (p : nat) :
  (forall e, cache s !! type = Some e -> isFresh e now = false) ->
  inFlight s !! type = Some p ->
  loadUsage type now s = (s, Follows p).
Proof.
  intros Hstale Hp. unfold loadUsage. rewrite Hp.
  destruct (cache s !! type) as [e|] eqn:Hc; [|reflexivity].
  rewrite (Hstale e eq_refl). reflexivity.
Qed.

(** [loadUsage] on a fresh entry. *)
Lemma loadUsage_hit (type : string) (now : Z) (s : t) (e : CachedUsage) :
  cache s !! type = Some e -> isFresh e now = true ->
  loadUsage type now s = (s, Entry e).
Proof. intros Hc Hf. unfold loadUsage. rewrite Hc, Hf. reflexivity. Qed.

(** The three ways of [loadUsage]. *)
Lemma loadUsage_cases (type : string) (now : Z) (s : t) :
  (exists e, cache s !! type = Some e /\ isFresh e now = true /\
             loadUsage type now s = (s, Entry e))
  \/ (exists p, inFlight s !! type = Some p /\
                loadUsage type now s = (s, Follows p))
  \/ ((forall e, cache s !! type = Some e -> isFresh e now = false) /\
      inFlight s !! type = None).
Proof.
  destruct (cache s !! type) as [e|] eqn:Hc.
  - destruct (isFresh e now) eqn:Hf.
    + left. exists e. auto using loadUsage_hit.
    + destruct (inFlight s !! type) as [p|] eqn:Hp.
      * right; left. exists p. split; [reflexivity|].
        apply loadUsage_joins; [|exact Hp]. intros e' He'. congruence.
      * right; right. split; [|reflexivity]. intros e' He'. congruence.
  - destruct (inFlight s !! type) as [p|] eqn:Hp.
    + right; left. exists p. split; [reflexivity|].
      apply loadUsage_joins; [|exact Hp]. intros e' He'. congruence.
    + right; right. split; [|reflexivity]. intros e' He'. congruence.
Qed.

Lemma Inv_miss (type : string) (s : t) (ph : Phase) :
  Inv s -> inFlight s !! type = None -> live ph ->
  (ph = Fetching -> type = "codex") ->
  Inv {| cache := cache s;
         inFlight := <[type := length (promises s)]> (inFlight s);
         promises := promises s ++ [{| f_type := type; f_phase := ph |}];
         calls := if String.eqb type "codex"
                  then length (promises s) :: calls s else calls s |}.
Proof.
  intros HI Hnone Hlive Hfetching. split; simpl.
  - apply (inv_cache s HI).
  - intros k p Hk. destruct (decide (type = k)) as [->|Hne].
    + rewrite lookup_insert_eq in Hk. injection Hk as <-.
      exists ph. split; [|exact Hlive]. by apply list_lookup_middle.
    + rewrite lookup_insert_ne in Hk by exact Hne.
      destruct (inv_inFlight s HI k p Hk) as (ph' & Hp & Hl).
      exists ph'. split; [|exact Hl].
      rewrite lookup_app_l; [exact Hp | by eapply lookup_lt_Some].
  - intros p k ph' Hp Hl. apply lookup_snoc_Some in Hp as [[Hlt Hp]|[-> Heq]].
    + pose proof (inv_live s HI p k ph' Hp Hl) as Hreg.
      rewrite lookup_insert_ne; [exact Hreg | congruence].
    + injection Heq as <- <-. apply lookup_insert_eq.
  - intros p. split.
    + intros Hin.
      assert (p ∈ calls s \/ (p = length (promises s) /\ type = "codex")) as [Hold|[-> ->]].
      { destruct (String.eqb type "codex") eqn:Heq; [|by left].
        apply elem_of_cons in Hin as [->|Hin]; [right|by left].
        split; [reflexivity | by apply eqb_codex]. }
      * apply (inv_calls s HI) in Hold as [ph' Hp]. exists ph'.
        rewrite lookup_app_l; [exact Hp | by eapply lookup_lt_Some].
      * exists ph. by apply list_lookup_middle.
    + intros [ph' Hp]. apply lookup_snoc_Some in Hp as [[Hlt Hp]|[-> Heq]].
      * assert (p ∈ calls s) by (apply (inv_calls s HI); eauto).
        destruct (String.eqb type "codex"); [by apply elem_of_cons; right | done].
      * injection Heq as -> <-. simpl. apply elem_of_cons. by left.
  - destruct (String.eqb type "codex"); [|apply (inv_nodup s HI)].
    apply NoDup_cons. split; [|apply (inv_nodup s HI)].
    intros Hin. apply (inv_calls s HI) in Hin as [ph' Hp].
    apply lookup_lt_Some in Hp. lia.
  - intros p k Hp. apply lookup_snoc_Some in Hp as [[Hlt Hp]|[-> Heq]].
    + by apply (inv_fetching s HI p).
    + injection Heq as <- Hph. by apply Hfetching.
Qed.

Lemma Inv_loadUsage (type : string) (now : Z) (s : t) :
  Inv s -> Inv (loadUsage type now s).1.
Proof.
  intros HI.
  destruct (loadUsage_cases type now s) as
    [(e & _ & _ & ->)|[(p & _ & ->)|(Hstale & Hnone)]]; try exact HI.
  rewrite (loadUsage_miss type now s Hstale Hnone). simpl.
  apply Inv_miss; try assumption.
  - destruct (String.eqb type "codex"); exact I.
  - destruct (String.eqb type "codex") eqn:Heq; [|discriminate].
    intros _. by apply eqb_codex.
Qed.

Lemma Inv_returned (s : t) (p : nat) (type : string) (o : Res CachedUsage)
    (c' : gmap string CachedUsage) :
  Inv s ->
  promises s !! p = Some {| f_type := type; f_phase := Fetching |} ->
  (forall k e, c' !! k = Some e -> built_for k e) ->
  Inv {| cache := c'; inFlight := inFlight s;
         promises := set_phase p (Returned o) (promises s);
         calls := calls s |}.
Proof.
  intros HI Hp Hc'. split; simpl.
  - exact Hc'.
  - intros k q Hk. destruct (inv_inFlight s HI k q Hk) as (ph & Hq & Hl).
    rewrite set_phase_lookup. case_decide as Hpq.
    + subst q. rewrite Hq. simpl. exists (Returned o). split; [reflexivity | exact I].
    + eauto.
  - intros q k ph. rewrite set_phase_lookup. case_decide as Hpq.
    + subst q. rewrite Hp. simpl. intros [= <- <-] _.
      by apply (inv_live s HI p type Fetching).
    + apply (inv_live s HI).
  - intros q. rewrite (inv_calls s HI q). split; intros [ph Hq].
    + rewrite set_phase_lookup. case_decide as Hpq; [|eauto].
      subst q. rewrite Hq. simpl. eauto.
    + rewrite set_phase_lookup in Hq. case_decide as Hpq; [|eauto].
      subst q. rewrite Hp in Hq. simpl in Hq. injection Hq as -> _. eauto.
  - apply (inv_nodup s HI).
  - intros q k. rewrite set_phase_lookup. case_decide as Hpq.
    + rewrite Hp. discriminate.
    + apply (inv_fetching s HI).
Qed.

Lemma Inv_fetched (p : nat) (r : Res Codex.CodexUsageSnapshot) (s : t) :
  Inv s -> Inv (fetched p r s).
Proof.
  intros HI. unfold fetched.
  destruct (promises s !! p) as [[type [| |]]|] eqn:Hp; try exact HI.
  destruct r as [snapshot|e].
  - apply (Inv_returned s p type _ _ HI Hp).
    intros k e. destruct (decide (type = k)) as [->|Hne].
    + rewrite lookup_insert_eq. intros [= <-]. split; reflexivity.
    + rewrite lookup_insert_ne by exact Hne. apply (inv_cache s HI).
  - apply (Inv_returned s p type _ _ HI Hp). apply (inv_cache s HI).
Qed.

Lemma Inv_finally (p : nat) (s : t) : Inv s -> Inv (finally_ p s).
Proof.
  intros HI. unfold finally_.
  destruct (promises s !! p) as [[type [|o|]]|] eqn:Hp; try exact HI.
  assert (inFlight s !! type = Some p) as Hreg
    by (by apply (inv_live s HI p type (Returned o))).
  split; simpl.
  - apply (inv_cache s HI).
  - intros k q Hk. apply lookup_delete_Some in Hk as [Hne Hk].
    destruct (inv_inFlight s HI k q Hk) as (ph & Hq & Hl).
    exists ph. split; [|exact Hl].
    rewrite set_phase_lookup. case_decide as Hpq; [|exact Hq].
    subst q. congruence.
  - intros q k ph. rewrite set_phase_lookup. case_decide as Hpq.
    + subst q. rewrite Hp. simpl. intros [= <- <-] [].
    + intros Hq Hl. pose proof (inv_live s HI q k ph Hq Hl) as Hk.
      rewrite lookup_delete_ne; [exact Hk|]. intros ->. congruence.
  - intros q. rewrite (inv_calls s HI q). split; intros [ph Hq].
    + rewrite set_phase_lookup. case_decide as Hpq; [|eauto].
      subst q. rewrite Hq. simpl. eauto.
    + rewrite set_phase_lookup in Hq. case_decide as Hpq; [|eauto].
      subst q. rewrite Hp in Hq. simpl in Hq. injection Hq as -> _. eauto.
  - apply (inv_nodup s HI).
  - intros q k. rewrite set_phase_lookup. case_decide as Hpq.
    + rewrite Hp. discriminate.
    + apply (inv_fetching s HI).
Qed.

Lemma Inv_step (e : Event) (s : t) : Inv s -> Inv (step e s).
Proof.
  destruct e; simpl; auto using Inv_loadUsage, Inv_fetched, Inv_finally.
Qed.

Lemma Inv_run (es : list Event) (s : t) : Inv s -> Inv (run es s).
Proof.
  revert s. induction es as [|e es IH]; intros s HI; simpl; [exact HI|].
  apply IH, Inv_step, HI.
Qed.

Lemma Inv_reachable (es : list Event) : Inv (run es start).
Proof. apply Inv_run, Inv_start. Qed.

Lemma run_app (es1 es2 : list Event) (s : t) :
  run (es1 ++ es2) s = run es2 (run es1 s).
Proof. unfold run. apply foldl_app. Qed.

(** Of the promises for one type, at most one awaits [fetchCodexUsage()]. *)
Lemma upstream_at_most_one (s : t) (type : string) :
  Inv s -> (length (upstream s type) <= 1)%nat.
Proof.
  intros HI.
  assert (NoDup (upstream s type)) as Hnd
    by (apply NoDup_filter, (inv_nodup s HI)).
  assert (forall p q, p ∈ upstream s type -> q ∈ upstream s type -> p = q) as Hsame.
  { intros p q Hp Hq. unfold upstream in Hp, Hq.
    apply list_elem_of_filter in Hp as [Hp _].
    apply list_elem_of_filter in Hq as [Hq _].
    unfold fetching in Hp, Hq.
    destruct (promises s !! p) as [[kp [| |]]|] eqn:Hpp; try discriminate.
    destruct (promises s !! q) as [[kq [| |]]|] eqn:Hqq; try discriminate.
    apply String.eqb_eq in Hp, Hq. subst kp kq.
    pose proof (inv_live s HI p type Fetching Hpp I).
    pose proof (inv_live s HI q type Fetching Hqq I). congruence. }
  destruct (upstream s type) as [|p [|q l]]; simpl; try lia.
  exfalso. assert (p = q) as -> by (apply Hsame; set_solver).
  apply NoDup_cons in Hnd as [Hnd _]. set_solver.
Qed.

(** A promise that has settled keeps its outcome. *)
Lemma settled_step (e : Event) (s : t) (p : nat) (k : string) (o : Res CachedUsage) :
  promises s !! p = Some {| f_type := k; f_phase := Settled o |} ->
  promises (step e s) !! p = Some {| f_type := k; f_phase := Settled o |}.
Proof.
  intros Hp. destruct e as [type now|q r|q]; simpl.
  - destruct (loadUsage_cases type now s) as
      [(e & _ & _ & ->)|[(p' & _ & ->)|(Hstale & Hnone)]]; try exact Hp.
    rewrite (loadUsage_miss type now s Hstale Hnone). simpl.
    rewrite lookup_app_l; [exact Hp | by eapply lookup_lt_Some].
  - unfold fetched.
    destruct (promises s !! q) as [[type [| |]]|] eqn:Hq; try exact Hp.
    destruct r; simpl; rewrite set_phase_lookup; case_decide; congruence.
  - unfold finally_.
    destruct (promises s !! q) as [[type [|o'|]]|] eqn:Hq; try exact Hp.
    simpl. rewrite set_phase_lookup. case_decide; congruence.
Qed.

Lemma received_step (e : Event) (s : t) (l : Loaded) (o : Res CachedUsage) :
  received s l = Some o -> received (step e s) l = Some o.
Proof.
  destruct l as [entry|p]; simpl; [auto|].
  destruct (promises s !! p) as [[k [| |o']]|] eqn:Hp; try discriminate.
  intros [= <-]. by rewrite (settled_step e s p k o' Hp).
Qed.

Lemma received_run (es : list Event) (s : t) (l : Loaded) (o : Res CachedUsage) :
  received s l = Some o -> received (run es s) l = Some o.
Proof.
  revert s. induction es as [|e es IH]; intros s Hr; simpl; [exact Hr|].
  apply IH, received_step, Hr.
Qed.

Lemma Qlt_bool_iff (x y : Q) : Qlt_bool x y = true <-> (x < y)%Q.
Proof.
  unfold Qlt_bool. rewrite negb_true_iff, <- not_true_iff_false, Qle_bool_iff.
  split; [apply Qnot_le_lt | apply Qlt_not_le].
Qed.

Lemma isFresh_iff (e : CachedUsage) (now : Z) :
  isFresh e now = true <-> (inject_Z (now - lastUpdated e) < cacheTtlMs)%Q.
Proof. apply Qlt_bool_iff. Qed.

(** C2. When an entry is stored for a key and the time since its
    [lastUpdated] is strictly less than the configured TTL, [loadUsage]
    returns that entry as it is and changes nothing: no promise is made,
    [fetchCodexUsage()] is not called. *)
Theorem loadUsage_fresh_hit (s : t) (type : string) (e : CachedUsage) (now : Z) :
  cache s !! type = Some e ->
  (inject_Z (now - lastUpdated e) < cacheTtlMs)%Q ->
  loadUsage type now s = (s, Entry e)
  /\ calls (loadUsage type now s).1 = calls s
  /\ promises (loadUsage type now s).1 = promises s
  /\ received (loadUsage type now s).1 (loadUsage type now s).2 = Some (Ok e).
Proof.
  intros Hc Hlt. apply isFresh_iff in Hlt.
  rewrite (loadUsage_hit type now s e Hc Hlt). auto.
Qed.

Lemma buildEtag_nonempty (type : string) (timestamp : Z) :
  buildEtag type timestamp <> "".
Proof. unfold buildEtag. simpl. discriminate. Qed.

Lemma isNotModified_true (req : Request) (e : CachedUsage) :
  etag e <> "" ->
  isNotModified req e = true <->
  if_none_match req = Some (etag e) \/
  exists v parsed, if_modified_since req = Some v /\ Date_parse v = Some parsed /\
                   lastUpdated e <= parsed.
Proof.
  intros Hetag. unfold isNotModified.
  destruct (if_none_match req) as [inm|] eqn:Hinm.
  - destruct (String.eqb_spec inm (etag e)) as [->|Hne].
    + destruct (String.eqb_spec (etag e) "") as [Hempty|_]; [done|].
      simpl. split; auto.
    + rewrite andb_false_r.
      destruct (if_modified_since req) as [v|]; [|split; [done|]].
      * destruct (String.eqb_spec v "") as [->|_].
        { split; [done|]. intros [[=]|(v & parsed & [= <-] & Hparse & _)]; [done|].
          rewrite Date_parse_empty in Hparse. done. }
        destruct (Date_parse v) as [parsed|] eqn:Hparse.
        { rewrite Z.leb_le. split.
          - intros Hle. right. exists v, parsed. auto.
          - intros [[=]|(v' & parsed' & [= <-] & Hparse' & Hle)]; [done|].
            congruence. }
        split; [done|].
        intros [[=]|(v' & parsed' & [= <-] & Hparse' & _)]; [done|congruence].
      * intros [[=]|(v & parsed & [=] & _)]. done.
  - destruct (if_modified_since req) as [v|]; [|split; [done|]].
    + destruct (String.eqb_spec v "") as [->|_].
      { split; [done|]. intros [[=]|(v & parsed & [= <-] & Hparse & _)].
        rewrite Date_parse_empty in Hparse. done. }
      destruct (Date_parse v) as [parsed|] eqn:Hparse.
      { rewrite Z.leb_le. split.
        - intros Hle. right. exists v, parsed. auto.
        - intros [[=]|(v' & parsed' & [= <-] & Hparse' & Hle)]. congruence. }
      split; [done|].
      intros [[=]|(v' & parsed' & [= <-] & Hparse' & _)]. congruence.
    + intros [[=]|(v & parsed & [=] & _)].
Qed.

(** C6. For an entry of the cache and the conditional headers of a
    request, [isNotModified] answers true exactly when [if-none-match] is
    the entry's ETag, character for character, or [if-modified-since]
    parses to a time at or after the entry's [lastUpdated]; either
    condition is enough, whatever the other header says. *)
Theorem isNotModified_either (es : list Event) (type : string) (e : CachedUsage)
    (req : Request) :
  cache (run es start) !! type = Some e ->
  isNotModified req e = true <->
  if_none_match req = Some (etag e) \/
  exists v parsed, if_modified_since req = Some v /\ Date_parse v = Some parsed /\
                   lastUpdated e <= parsed.
Proof.
  intros Hc. apply isNotModified_true.
  destruct (inv_cache _ (Inv_reachable es) type e Hc) as [_ ->].
  apply buildEtag_nonempty.
Qed.

(** The entry [loadUsage] builds from what [fetchCodexUsage()] gave. *)
Definition built (type : string) (snapshot : Codex.CodexUsageSnapshot) : CachedUsage :=
  {| snapshot := normalizeCodexUsage snapshot;
     etag := buildEtag type (Codex.fetchedAt snapshot);
     lastUpdated := Codex.fetchedAt snapshot |}.

(** What the promise of a fetch settles with. *)
Definition settles_with (type : string) (r : Res Codex.CodexUsageSnapshot)
  : Res CachedUsage :=
  match r with
  | Ok snapshot => Ok (built type snapshot)
  | Throw e => Throw e
  end.

Lemma fetched_fetching (s : t) (p : nat) (type : string)
    (r : Res Codex.CodexUsageSnapshot) :
  promises s !! p = Some {| f_type := type; f_phase := Fetching |} ->
  fetched p r s =
  {| cache := match r with
              | Ok snapshot => <[type := built type snapshot]> (cache s)
              | Throw _ => cache s
              end;
     inFlight := inFlight s;
     promises := set_phase p (Returned (settles_with type r)) (promises s);
     calls := calls s |}.
Proof. intros Hp. unfold fetched. rewrite Hp. destruct r; reflexivity. Qed.

Lemma finally_returned (s : t) (p : nat) (type : string) (o : Res CachedUsage) :
  promises s !! p = Some {| f_type := type; f_phase := Returned o |} ->
  finally_ p s =
  {| cache := cache s;
     inFlight := delete type (inFlight s);
     promises := set_phase p (Settled o) (promises s);
     calls := calls s |}.
Proof. intros Hp. unfold finally_. rewrite Hp. reflexivity. Qed.

(** C10. Every entry the cache ever holds has [lastUpdated] equal to its
    snapshot's [fetchedAt], and the ETag [W/"<key>-<lastUpdated>"]: it is
    stored with the [fetchedAt] of the snapshot [fetchCodexUsage()] gave,
    which is the clock read at that function's [return], whenever the
    entry is put in the cache.  So freshness and the Last-Modified header
    are both measured from [fetchedAt]. *)
Theorem cache_entry_stamped (es : list Event) (type : string) (e : CachedUsage) :
  cache (run es start) !! type = Some e ->
  lastUpdated e = fetchedAt (snapshot e)
  /\ etag e = "W/" +:+ dquote +:+ type +:+ "-" +:+ String_of_int (lastUpdated e) +:+ dquote
  /\ (forall now, isFresh e now = true <->
        (inject_Z (now - fetchedAt (snapshot e)) < cacheTtlMs)%Q)
  /\ applyCacheHeaders e !! 1%nat =
        Some ("Last-Modified", toUTCString (fetchedAt (snapshot e)))
  /\ (forall s p r snapshot,
        promises s !! p = Some {| f_type := type; f_phase := Fetching |} ->
        r = Ok snapshot ->
        cache (fetched p r s) !! type = Some (built type snapshot) /\
        lastUpdated (built type snapshot) = Codex.fetchedAt snapshot)
  /\ (forall authPath u snapshot,
        Codex.fetchCodexUsage authPath u = Ok snapshot ->
        Codex.fetchedAt snapshot = Codex.u_now u).
Proof.
  intros Hc. destruct (inv_cache _ (Inv_reachable es) type e Hc) as [Hlast Hetag].
  split; [exact Hlast|]. split; [exact Hetag|].
  split; [intros now; rewrite <- Hlast; apply isFresh_iff|].
  split; [simpl; by rewrite Hlast|].
  split.
  - intros s p r snap Hp ->. rewrite (fetched_fetching s p type _ Hp). simpl.
    by rewrite lookup_insert_eq.
  - intros authPath u snap. unfold Codex.fetchCodexUsage, Codex.rethrow.
    destruct (Codex.u_initialize u), (Codex.u_account u), (Codex.u_rateLimits u);
      try (destruct (String.eqb _ ""); discriminate).
    intros [= <-]. reflexivity.
Qed.

(** Callers that find no fresh entry and a fetch in flight all follow it. *)
Lemma loads_joined (type : string) (nows : list Z) (s : t) (p : nat) :
  inFlight s !! type = Some p ->
  Forall (fun now => forall e, cache s !! type = Some e -> isFresh e now = false) nows ->
  loads type nows s = (s, replicate (length nows) (Follows p)).
Proof.
  intros Hp. induction 1 as [|now nows Hstale _ IH]; simpl; [reflexivity|].
  rewrite (loadUsage_joins type now s p Hstale Hp), IH. reflexivity.
Qed.

(** C1. At every instant at most one call of [fetchCodexUsage()] is
    awaited for a key.  Callers of [loadUsage] for one supported key, one
    after the other within a turn of the event loop, none of which finds a
    fresh entry, all follow one promise [p], behind which
    [fetchCodexUsage()] was called exactly once: the first caller starts
    it, unless a fetch for the key was in flight already, and no caller
    after it starts another.  At every later time all the callers have
    received the same thing: nothing yet, the same entry, or the same
    failure; they receive what the fetch gave once [p] settles. *)
Theorem loadUsage_single_flight (es es' : list Event) (type : string)
    (now : Z) (nows : list Z) (s' : t) (ls : list Loaded) :
  (length (upstream (run es start) type) <= 1)%nat
  /\ (type ∈ SUPPORTED_TYPES ->
     Forall (fun now => forall e, cache (run es start) !! type = Some e ->
                                  isFresh e now = false) (now :: nows) ->
     loads type (now :: nows) (run es start) = (s', ls) ->
     exists p,
       ls = replicate (S (length nows)) (Follows p)
       /\ inFlight s' !! type = Some p
       /\ p ∈ calls s' /\ NoDup (calls s')
       /\ calls s' = match inFlight (run es start) !! type with
                     | Some _ => calls (run es start)
                     | None => p :: calls (run es start)
                     end
       /\ (length (upstream (run es' s') type) <= 1)%nat
       /\ (forall l, l ∈ ls ->
             received (run es' s') l = received (run es' s') (Follows p))
       /\ (forall r, fetching s' type p = true ->
             forall l, l ∈ ls ->
             received (run es' (finally_ p (fetched p r s'))) l
             = Some (settles_with type r))).
Proof.
  split; [apply upstream_at_most_one, Inv_reachable|].
  intros Hsup Hstale Hloads.
  assert (type = "codex") as ->
    by (unfold SUPPORTED_TYPES in Hsup; by apply list_elem_of_singleton in Hsup).
  pose proof (Inv_reachable es) as HI.
  set (s := run es start) in *.
  assert (exists p, s' = (loadUsage "codex" now s).1 /\
                    ls = replicate (S (length nows)) (Follows p) /\
                    inFlight s' !! "codex" = Some p /\
                    calls s' = match inFlight s !! "codex" with
                               | Some _ => calls s
                               | None => p :: calls s
                               end) as (p & Hs' & Hls & Hreg & Hcalls).
  { destruct (inFlight s !! "codex") as [p|] eqn:Hin.
    - rewrite (loads_joined "codex" (now :: nows) s p Hin Hstale) in Hloads.
      injection Hloads as <- <-. exists p.
      rewrite (loadUsage_joins "codex" now s p); auto.
      by apply Forall_cons in Hstale as [? _].
    - apply Forall_cons in Hstale as [Hnow Hrest].
      simpl in Hloads. rewrite (loadUsage_miss "codex" now s Hnow Hin) in Hloads.
      rewrite (loadUsage_miss "codex" now s Hnow Hin). simpl in *.
      rewrite (loads_joined "codex" nows _ (length (promises s))) in Hloads;
        [|by simpl; rewrite lookup_insert_eq|exact Hrest].
      injection Hloads as <- <-. exists (length (promises s)). simpl.
      by rewrite lookup_insert_eq. }
  assert (Inv s') as HI' by (rewrite Hs'; by apply Inv_loadUsage).
  exists p. split; [exact Hls|]. split; [exact Hreg|].
  destruct (inv_inFlight s' HI' "codex" p Hreg) as (ph & Hp & Hlive).
  split; [apply (inv_calls s' HI'); eauto|].
  split; [apply (inv_nodup s' HI')|].
  split; [exact Hcalls|].
  split; [by apply upstream_at_most_one, Inv_run|].
  split.
  - intros l Hl. rewrite Hls in Hl. apply elem_of_replicate in Hl as [-> _]. done.
  - intros r Hfetching l Hl. rewrite Hls in Hl.
    apply elem_of_replicate in Hl as [-> _].
    unfold fetching in Hfetching. rewrite Hp in Hfetching.
    destruct ph; try discriminate.
    apply received_run.
    rewrite (fetched_fetching s' p "codex" r Hp).
    rewrite (finally_returned _ p "codex" (settles_with "codex" r));
      cbn [promises received].
    + rewrite set_phase_lookup. case_decide; [|done].
      rewrite set_phase_lookup. case_decide; [|done].
      rewrite Hp. reflexivity.
    + rewrite set_phase_lookup. case_decide; [|done]. rewrite Hp. reflexivity.
Qed.

(** While the body of [p] has returned and its [finally] callback is due,
    nothing else touches [p] or the entry of its type. *)
Lemma returned_step (ev : Event) (s : t) (p : nat) (type : string)
    (o : Res CachedUsage) :
  Inv s ->
  promises s !! p = Some {| f_type := type; f_phase := Returned o |} ->
  ev <> Finally p ->
  promises (step ev s) !! p = Some {| f_type := type; f_phase := Returned o |}
  /\ cache (step ev s) !! type = cache s !! type.
Proof.
  intros HI Hp Hev.
  assert (inFlight s !! type = Some p) as Hreg
    by (by apply (inv_live s HI p type (Returned o))).
  destruct ev as [k now|q r|q]; simpl.
  - destruct (loadUsage_cases k now s) as
      [(e & _ & _ & ->)|[(p' & _ & ->)|(Hstale & Hnone)]]; try done.
    rewrite (loadUsage_miss k now s Hstale Hnone). simpl.
    split; [|done]. rewrite lookup_app_l; [exact Hp | by eapply lookup_lt_Some].
  - unfold fetched.
    destruct (promises s !! q) as [[k [| |]]|] eqn:Hq; try done.
    assert (q <> p) as Hqp by (intros ->; congruence).
    assert (k <> type) as Hk.
    { intros ->. pose proof (inv_live s HI q type Fetching Hq I). congruence. }
    destruct r; simpl; rewrite set_phase_lookup; case_decide; try done.
    by rewrite lookup_insert_ne.
  - assert (q <> p) as Hqp by congruence.
    unfold finally_.
    destruct (promises s !! q) as [[k [|o'|]]|] eqn:Hq; try done.
    simpl. rewrite set_phase_lookup. by case_decide.
Qed.

Lemma returned_run (es : list Event) (s : t) (p : nat) (type : string)
    (o : Res CachedUsage) :
  Inv s ->
  promises s !! p = Some {| f_type := type; f_phase := Returned o |} ->
  Forall (fun ev => ev <> Finally p) es ->
  promises (run es s) !! p = Some {| f_type := type; f_phase := Returned o |}
  /\ cache (run es s) !! type = cache s !! type.
Proof.
  intros HI Hp Hes. revert s HI Hp.
  induction Hes as [|ev es Hev _ IH]; intros s HI Hp; simpl; [done|].
  destruct (returned_step ev s p type o HI Hp Hev) as [Hp' Hc'].
  destruct (IH (step ev s) (Inv_step ev s HI) Hp') as [Hp'' Hc''].
  split; [exact Hp'' | congruence].
Qed.

(** C3. When [fetchCodexUsage()] fails with [e] for the promise [p] of a
    key: nothing is stored (the cache is as it was, and so is the key's
    entry whatever else runs before [p]'s [finally] callback); until that
    callback runs, [p] stays the registered fetch of the key, so whoever
    awaits the key's fetch follows [p]; the callback removes the
    registration; then [p] is rejected with [e], which is what every
    caller following [p] receives; and the next [loadUsage] for the key
    never follows [p]: finding no fresh entry, it starts a fetch anew. *)
Theorem failed_fetch_leaves_cache (es es' : list Event) (p : nat) (type e : string) :
  promises (run es start) !! p = Some {| f_type := type; f_phase := Fetching |} ->
  Forall (fun ev => ev <> Finally p) es' ->
  cache (fetched p (Throw e) (run es start)) = cache (run es start)
  /\ cache (finally_ p (run es' (fetched p (Throw e) (run es start))))
     = cache (run es' (fetched p (Throw e) (run es start)))
  /\ cache (finally_ p (run es' (fetched p (Throw e) (run es start)))) !! type
     = cache (run es start) !! type
  /\ (forall es1 es2 : list Event, es' = (es1 ++ es2)%list ->
        inFlight (run es1 (fetched p (Throw e) (run es start))) !! type = Some p)
  /\ inFlight (finally_ p (run es' (fetched p (Throw e) (run es start)))) !! type = None
  /\ (forall es'', received
        (run es'' (finally_ p (run es' (fetched p (Throw e) (run es start)))))
        (Follows p) = Some (Throw e))
  /\ (forall now,
        (loadUsage type now
           (finally_ p (run es' (fetched p (Throw e) (run es start))))).2
        <> Follows p)
  /\ (forall now,
        (forall e0, cache (run es start) !! type = Some e0 -> isFresh e0 now = false) ->
        exists s3 p',
          loadUsage type now
            (finally_ p (run es' (fetched p (Throw e) (run es start))))
          = (s3, Follows p')
          /\ p' <> p
          /\ fetching s3 type p' = true
          /\ calls s3 =
             p' :: calls (finally_ p (run es' (fetched p (Throw e) (run es start))))).
Proof.
  intros Hp Hes'.
  pose proof (Inv_reachable es) as HI. set (s := run es start) in *.
  assert (type = "codex") as -> by apply (inv_fetching s HI p type Hp).
  pose proof (Inv_fetched p (Throw e) s HI) as HI1.
  pose proof (fetched_fetching s p "codex" (Throw e) Hp) as Hs1.
  set (s1 := fetched p (Throw e) s) in *.
  assert (promises s1 !! p =
          Some {| f_type := "codex"; f_phase := Returned (Throw e) |}) as Hp1.
  { rewrite Hs1. simpl. rewrite set_phase_lookup. case_decide; [|done].
    by rewrite Hp. }
  assert (cache s1 = cache s) as Hc1 by (by rewrite Hs1).
  destruct (returned_run es' s1 p "codex" (Throw e) HI1 Hp1 Hes') as [Hp2 Hc2].
  pose proof (Inv_run es' s1 HI1) as HI2.
  set (s2 := run es' s1) in *.
  pose proof (finally_returned s2 p "codex" (Throw e) Hp2) as Hs3.
  pose proof (Inv_finally p s2 HI2) as HI3.
  set (s3 := finally_ p s2) in *.
  assert (promises s3 !! p =
          Some {| f_type := "codex"; f_phase := Settled (Throw e) |}) as Hp3.
  { rewrite Hs3. simpl. rewrite set_phase_lookup. case_decide; [|done].
    by rewrite Hp2. }
  assert (inFlight s3 !! "codex" = None) as Hreg3
    by (rewrite Hs3; simpl; apply lookup_delete_eq).
  assert (cache s3 = cache s2) as Hc3 by (by rewrite Hs3).
  split; [exact Hc1|]. split; [exact Hc3|].
  split; [rewrite Hc3, Hc2, Hc1; reflexivity|].
  split.
  { intros es1 es2 ->. apply Forall_app in Hes' as [Hes1 _].
    destruct (returned_run es1 s1 p "codex" (Throw e) HI1 Hp1 Hes1) as [Hq _].
    by apply (inv_live _ (Inv_run es1 s1 HI1) p "codex" (Returned (Throw e))). }
  split; [exact Hreg3|].
  split.
  { intros es''. apply received_run. simpl. by rewrite Hp3. }
  split.
  { intros now.
    destruct (loadUsage_cases "codex" now s3) as
      [(e0 & _ & _ & ->)|[(p' & Hp' & _)|(Hstale & Hnone)]]; [done|congruence|].
    rewrite (loadUsage_miss "codex" now s3 Hstale Hnone). simpl.
    intros [= Hlen]. apply lookup_lt_Some in Hp3. lia. }
  intros now Hstale.
  assert (forall e0, cache s3 !! "codex" = Some e0 -> isFresh e0 now = false) as Hstale3.
  { intros e0. rewrite Hc3, Hc2, Hc1. apply Hstale. }
  rewrite (loadUsage_miss "codex" now s3 Hstale3 Hreg3).
  eexists _, _. split; [reflexivity|]. simpl.
  split; [apply lookup_lt_Some in Hp3; lia|].
  split; [|reflexivity].
  unfold fetching. simpl. by rewrite list_lookup_middle.
Qed.

End WithHost.

(** The sample fetch has stored its entry; five seconds later, with the
    default TTL, [loadUsage] returns it. *)
Lemma loadUsage_fresh_hit_witness :
  cache (run (H:=Sample.host) Sample.fetch_done start) !! "codex"
  = Some Sample.entry
  /\ loadUsage (H:=Sample.host) "codex" 1700000005000
       (run (H:=Sample.host) Sample.fetch_done start)
     = (run (H:=Sample.host) Sample.fetch_done start, Entry Sample.entry).
Proof.
  split; [vm_compute; reflexivity|].
  refine (proj1 (loadUsage_fresh_hit (H:=Sample.host) _ "codex" Sample.entry
                   1700000005000 _ _)); vm_compute; reflexivity.
Defined.

(** The ETag of the request is not the entry's, its date is a second
    after the entry's [lastUpdated]: not modified. *)
Lemma isNotModified_either_witness :
  cache (run (H:=Sample.host) Sample.fetch_done start) !! "codex"
  = Some Sample.entry
  /\ isNotModified (H:=Sample.host)
       {| if_none_match := Some "W/0";
          if_modified_since := Some "Tue, 14 Nov 2023 22:13:21 GMT" |}
       Sample.entry = true.
Proof.
  split; [vm_compute; reflexivity|].
  apply (isNotModified_either (H:=Sample.host) Sample.fetch_done "codex");
    [vm_compute; reflexivity|].
  right. exists "Tue, 14 Nov 2023 22:13:21 GMT", 1700000001000.
  repeat split. simpl. lia.
Defined.

Lemma cache_entry_stamped_witness :
  cache (run (H:=Sample.host) Sample.fetch_done start) !! "codex"
  = Some Sample.entry
  /\ lastUpdated Sample.entry = fetchedAt (snapshot Sample.entry)
  /\ etag Sample.entry =
     "W/" +:+ dquote +:+ "codex" +:+ "-" +:+ String_of_int 1700000000000 +:+ dquote.
Proof.
  split; [vm_compute; reflexivity|].
  destruct (cache_entry_stamped (H:=Sample.host) Sample.fetch_done "codex"
              Sample.entry) as (Hlast & Hetag & _);
    [vm_compute; reflexivity|].
  split; [exact Hlast | exact Hetag].
Defined.

(** Three callers in one turn, on an empty cache: one promise, one call of
    [fetchCodexUsage()]. *)
Lemma loadUsage_single_flight_witness :
  exists p,
    (loads (H:=Sample.host) "codex" [5; 6; 7] start).2 = replicate 3 (Follows p)
    /\ calls (loads (H:=Sample.host) "codex" [5; 6; 7] start).1 = [p].
Proof.
  destruct (proj2 (loadUsage_single_flight (H:=Sample.host) [] [] "codex" 5 [6; 7]
              (loads (H:=Sample.host) "codex" [5; 6; 7] start).1
              (loads (H:=Sample.host) "codex" [5; 6; 7] start).2))
    as (p & Hls & _ & _ & _ & Hcalls & _).
  - apply list_elem_of_singleton. reflexivity.
  - repeat constructor; intros e; vm_compute; discriminate.
  - apply surjective_pairing.
  - exists p. split; [exact Hls | exact Hcalls].
Defined.

(** A fetch fails while a second caller has joined it: both are rejected
    with the fetch's error. *)
Lemma failed_fetch_leaves_cache_witness :
  promises (run (H:=Sample.host) [Load "codex" 5] start) !! 0%nat
  = Some {| f_type := "codex"; f_phase := Fetching |}
  /\ received
       (finally_ 0
          (run (H:=Sample.host) [Load "codex" 6]
             (fetched 0 (Throw "spawn codex ENOENT")
                (run (H:=Sample.host) [Load "codex" 5] start))))
       (Follows 0)
     = Some (Throw "spawn codex ENOENT")
  /\ cache
       (finally_ 0
          (run (H:=Sample.host) [Load "codex" 6]
             (fetched 0 (Throw "spawn codex ENOENT")
                (run (H:=Sample.host) [Load "codex" 5] start))))
     = cache (run (H:=Sample.host) [Load "codex" 6]
                (fetched 0 (Throw "spawn codex ENOENT")
                   (run (H:=Sample.host) [Load "codex" 5] start))).
Proof.
  split; [vm_compute; reflexivity|].
  destruct (failed_fetch_leaves_cache (H:=Sample.host) [Load "codex" 5]
              [Load "codex" 6] 0 "codex" "spawn codex ENOENT")
    as (_ & Hcache & _ & _ & _ & Hreceived & _).
  - vm_compute. reflexivity.
  - repeat constructor; discriminate.
  - split; [exact (Hreceived []) | exact Hcache].
Defined.

End RpcFacts.

(** ** The credential fallback *)

Module AuthFacts.
Import Codex.

Section WithHost.
Context `{Host}.

(** [parsed.tokens?.idToken], for [parsed] other than [null]. *)
Definition idToken_of (parsed : json) : value :=
  optional_member (get parsed "tokens") "idToken".

(** The second segment of a token, when it has one that is not empty. *)
Definition middle (token : string) : option string :=
  match split "." token with
  | _ :: payload :: _ => if String.eqb payload "" then None else Some payload
  | _ => None
  end.

(** The text [decodeJwtPayload] hands to [JSON.parse]. *)
Definition decoded (payload : string) : string :=
  let normalized := replaceAll "_" "/" (replaceAll "-" "+" payload) in
  let n := String.length normalized in
  base64_utf8 (padEnd normalized (n + ((4 - n mod 4) mod 4))%nat "=").

Lemma decodeJwtPayload_middle (token : string) :
  decodeJwtPayload token =
  match middle token with
  | Some payload => JSON_parse (decoded payload)
  | None => None
  end.
Proof.
  unfold decodeJwtPayload, middle, decoded.
  destruct (split "." token) as [|? [|payload ?]]; try reflexivity.
  destruct (String.eqb payload ""); reflexivity.
Qed.

Lemma readCodexAuth_parsed (authPath raw : string) (parsed : json) :
  readFile authPath = Ok raw -> JSON_parse raw = Some parsed ->
  catch_undefined (readCodexAuth authPath) =
  match idToken_of parsed with
  | Some (JStr token) =>
      match decodeJwtPayload token with
      | Some claims =>
          if truthy (Some claims) then Some (fallback_of claims) else None
      | None => None
      end
  | _ => None
  end.
Proof.
  intros Hfile Hparse. unfold readCodexAuth, idToken_of.
  rewrite Hfile. simpl. rewrite Hparse.
  destruct parsed as [|b|n|s|l|fields]; simpl; try reflexivity.
  destruct (optional_member (assoc "tokens" fields) "idToken")
    as [[|b|[| |q]|s|l|fs]|]; simpl; try reflexivity.
  - destruct b; reflexivity.
  - destruct (Qeq_bool q 0); reflexivity.
  - destruct (String.eqb_spec s "") as [->|Hs]; simpl.
    + reflexivity.
    + destruct (decodeJwtPayload s) as [claims|]; [|reflexivity].
      match goal with |- context [negb ?b] => destruct b end; reflexivity.
Qed.

(** C7. The credential fallback as [fetchCodexUsage] reads it,
    [readCodexAuth(authPath).catch(() => undefined)], is an optional value
    for every path: it is absent when the file cannot be read, when its
    text is not JSON, when there is no token (no string under
    [tokens.idToken]) or the token has no second segment, and when the
    decoded segment is not JSON (or is a falsy value); no rejection of
    [readCodexAuth] reaches [fetchCodexUsage], which succeeds whenever its
    three requests do.  When the read succeeds, the email and the plan
    type are the values under the namespaced claim keys, and those under
    the bare keys only where the namespaced one is absent or null. *)
Theorem readCodexAuth_best_effort (authPath : string) :
  (forall e, readFile authPath = Throw e ->
     catch_undefined (readCodexAuth authPath) = None)
  /\ (forall raw, readFile authPath = Ok raw -> JSON_parse raw = None ->
     catch_undefined (readCodexAuth authPath) = None)
  /\ (forall raw parsed, readFile authPath = Ok raw -> JSON_parse raw = Some parsed ->
     (forall token, idToken_of parsed <> Some (JStr token)) ->
     catch_undefined (readCodexAuth authPath) = None)
  /\ (forall raw parsed token, readFile authPath = Ok raw ->
     JSON_parse raw = Some parsed -> idToken_of parsed = Some (JStr token) ->
     middle token = None ->
     catch_undefined (readCodexAuth authPath) = None)
  /\ (forall raw parsed token payload, readFile authPath = Ok raw ->
     JSON_parse raw = Some parsed -> idToken_of parsed = Some (JStr token) ->
     middle token = Some payload ->
     (JSON_parse (decoded payload) = None \/
      exists claims, JSON_parse (decoded payload) = Some claims /\
                     truthy (Some claims) = false) ->
     catch_undefined (readCodexAuth authPath) = None)
  /\ (forall raw parsed token payload claims, readFile authPath = Ok raw ->
     JSON_parse raw = Some parsed -> idToken_of parsed = Some (JStr token) ->
     middle token = Some payload ->
     JSON_parse (decoded payload) = Some claims -> truthy (Some claims) = true ->
     catch_undefined (readCodexAuth authPath) = Some (fallback_of claims))
  /\ (forall claims,
     (forall v, get claims email_key = Some v -> v <> JNull ->
        a_email (fallback_of claims) = Some v)
     /\ (get claims email_key = None \/ get claims email_key = Some JNull ->
        a_email (fallback_of claims) = get claims "email")
     /\ (forall v, get claims plan_key = Some v -> v <> JNull ->
        a_planType (fallback_of claims) = Some v)
     /\ (get claims plan_key = None \/ get claims plan_key = Some JNull ->
        a_planType (fallback_of claims) = get claims "chatgpt_plan_type"))
  /\ (forall u i a r, u_initialize u = Ok i -> u_account u = Ok a ->
     u_rateLimits u = Ok r ->
     exists snapshot, fetchCodexUsage authPath u = Ok snapshot /\
       account snapshot =
         mergeAccount a (catch_undefined (readCodexAuth authPath))).
Proof.
  split.
  { intros e He. unfold readCodexAuth. rewrite He. reflexivity. }
  split.
  { intros raw Hfile Hparse. unfold readCodexAuth.
    rewrite Hfile. simpl. rewrite Hparse. reflexivity. }
  split.
  { intros raw parsed Hfile Hparse Hno.
    rewrite (readCodexAuth_parsed authPath raw parsed Hfile Hparse).
    destruct (idToken_of parsed) as [[| | |token| |]|]; try reflexivity.
    by destruct (Hno token). }
  split.
  { intros raw parsed token Hfile Hparse Htoken Hmid.
    rewrite (readCodexAuth_parsed authPath raw parsed Hfile Hparse), Htoken.
    rewrite decodeJwtPayload_middle, Hmid. reflexivity. }
  split.
  { intros raw parsed token payload Hfile Hparse Htoken Hmid Hbad.
    rewrite (readCodexAuth_parsed authPath raw parsed Hfile Hparse), Htoken.
    rewrite decodeJwtPayload_middle, Hmid.
    destruct Hbad as [->|(claims & -> & ->)]; reflexivity. }
  split.
  { intros raw parsed token payload claims Hfile Hparse Htoken Hmid Hclaims Htruthy.
    rewrite (readCodexAuth_parsed authPath raw parsed Hfile Hparse), Htoken.
    rewrite decodeJwtPayload_middle, Hmid, Hclaims, Htruthy. reflexivity. }
  split.
  { intros claims. unfold fallback_of. simpl. repeat split.
    - intros v -> Hv. by destruct v.
    - intros [-> | ->]; reflexivity.
    - intros v -> Hv. by destruct v.
    - intros [-> | ->]; reflexivity. }
  intros u i a r Hi Ha Hr. unfold fetchCodexUsage. rewrite Hi, Ha, Hr.
  eexists. split; reflexivity.
Qed.

End WithHost.

End AuthFacts.

(** ** The table of pending calls *)

Module ClientFacts.
Import CodexRpcClient.

(** The ids of the calls that were settled, newest first. *)
Definition settled_ids (c : t) : list Z := s_id <$> settles c.

(** What every state of a client satisfies: the ids in the table are below
    [nextId], a call is in the table exactly while its timer is live, a
    call that was settled is out of the table and was settled once, and
    the ids given out are 1, 2, ... in this order, each in the table or
    settled. *)
Record Inv (c : t) : Prop := {
  inv_next : 1 <= nextId c;
  inv_pending : forall id pc, pending c !! id = Some pc ->
    1 <= id < nextId c /\ timeoutId pc = id;
  inv_timers : forall id, is_Some (timers c !! id) <-> is_Some (pending c !! id);
  inv_timer_id : forall id tm, timers c !! id = Some tm -> t_id tm = id;
  inv_settled : forall id, id ∈ settled_ids c ->
    1 <= id < nextId c /\ pending c !! id = None;
  inv_once : NoDup (settled_ids c);
  inv_issued : issued c = seqZ 1 (nextId c - 1);
  inv_accounted : forall id, 1 <= id < nextId c ->
    is_Some (pending c !! id) \/ id ∈ settled_ids c;
  inv_closed : closed c = true -> pending c = ∅;
}.

Lemma Inv_connect : Inv connect.
Proof.
  split; simpl; try done.
  - intros id. rewrite !lookup_empty. split; intros [? [=]].
  - unfold settled_ids. simpl. intros id Hin. inversion Hin.
  - unfold settled_ids. simpl. constructor.
  - intros id ?. lia.
Qed.

Lemma seqZ_snoc (n : Z) : 1 <= n -> seqZ 1 (n + 1 - 1) = seqZ 1 (n - 1) ++ [n].
Proof.
  intros Hn. replace (n + 1 - 1) with ((n - 1) + 1) by lia.
  rewrite seqZ_app by lia. f_equal.
  rewrite seqZ_cons by lia. rewrite seqZ_nil by lia. f_equal. lia.
Qed.

Lemma Inv_request (method : string) (params : json) (timeoutMs : Z) (c : t) :
  Inv c -> Inv (request method params timeoutMs c).1.
Proof.
  intros HI. unfold request. destruct (closed c) eqn:Hclosed; simpl; [exact HI|].
  split; simpl.
  - pose proof (inv_next c HI). lia.
  - intros id pc. rewrite lookup_insert_Some. intros [[<- <-]|[Hne Hp]].
    + pose proof (inv_next c HI). simpl. split; [lia | reflexivity].
    + apply (inv_pending c HI) in Hp. lia.
  - intros id. rewrite !lookup_insert_is_Some, (inv_timers c HI). tauto.
  - intros id tm. rewrite lookup_insert_Some. intros [[<- <-]|[Hne Hp]].
    + reflexivity.
    + by apply (inv_timer_id c HI).
  - intros id Hin. apply (inv_settled c HI) in Hin as [Hb Hp].
    split; [lia|]. rewrite lookup_insert_ne by lia. exact Hp.
  - apply (inv_once c HI).
  - transitivity (issued c ++ [nextId c]).
    + unfold issued. simpl. by rewrite reverse_cons.
    + rewrite (inv_issued c HI). symmetry. apply seqZ_snoc, (inv_next c HI).
  - intros id Hb. destruct (decide (id = nextId c)) as [->|Hne].
    + left. rewrite lookup_insert_eq. eauto.
    + destruct (inv_accounted c HI id) as [Hp|Hs]; [lia| |by right].
      left. by rewrite lookup_insert_ne.
  - congruence.
Qed.

(** A call leaves the table, its timer is cleared, its promise settled. *)
Definition removed (id : Z) (by_ : Trigger) (o : Res value) (c : t) : t :=
  settle id by_ o (set_pending (delete id) (set_timers (delete id) c)).

Lemma Inv_removed (id : Z) (pc : PendingCall) (by_ : Trigger) (o : Res value) (c : t) :
  Inv c -> pending c !! id = Some pc -> Inv (removed id by_ o c).
Proof.
  intros HI Hp. destruct (inv_pending c HI id pc Hp) as [Hb _].
  assert (id ∉ settled_ids c) as Hfresh.
  { intros Hin. apply (inv_settled c HI) in Hin as [_ Hnone]. congruence. }
  split; simpl.
  - apply (inv_next c HI).
  - intros id' pc'. rewrite lookup_delete_Some. intros [_ Hp'].
    by apply (inv_pending c HI).
  - intros id'. rewrite !lookup_delete_is_Some, (inv_timers c HI). tauto.
  - intros id' tm. rewrite lookup_delete_Some. intros [_ Htm].
    by apply (inv_timer_id c HI).
  - unfold settled_ids. simpl. intros id' [->|Hin]%elem_of_cons.
    + split; [exact Hb | apply lookup_delete_eq].
    + apply (inv_settled c HI) in Hin as [Hb' Hnone].
      split; [exact Hb'|]. rewrite lookup_delete_None. by right.
  - unfold settled_ids. simpl. apply NoDup_cons. split; [exact Hfresh|].
    apply (inv_once c HI).
  - apply (inv_issued c HI).
  - unfold settled_ids. simpl. intros id' Hb'.
    destruct (decide (id' = id)) as [->|Hne]; [right; apply elem_of_cons; by left|].
    destruct (inv_accounted c HI id' Hb') as [Hp'|Hs].
    + left. rewrite lookup_delete_is_Some. split; [congruence | exact Hp'].
    + right. apply elem_of_cons. by right.
  - intros Hclosed. rewrite (inv_closed c HI Hclosed) in Hp.
    rewrite lookup_empty in Hp. discriminate.
Qed.

Lemma timeout_live (tid : Z) (tm : Timer) (c : t) :
  Inv c -> timers c !! tid = Some tm ->
  timeout tid c =
  removed tid TimedOut (Throw ("Codex RPC request timed out: " +:+ t_method tm)) c.
Proof.
  intros HI Htm. unfold timeout. rewrite Htm.
  rewrite (inv_timer_id c HI tid tm Htm). reflexivity.
Qed.

Lemma Inv_timeout (tid : Z) (c : t) : Inv c -> Inv (timeout tid c).
Proof.
  intros HI. destruct (timers c !! tid) as [tm|] eqn:Htm.
  - rewrite (timeout_live tid tm c HI Htm).
    destruct (proj1 (inv_timers c HI tid)) as [pc Hp]; [eauto|].
    by apply (Inv_removed tid pc).
  - unfold timeout. rewrite Htm. exact HI.
Qed.

Section WithHost.
Context `{Host}.

(** A line is dropped, or it removes the one call it answers. *)
Lemma handleLine_cases (line : string) (c : t) :
  Inv c ->
  handleLine line c = c \/
  exists id pc o, pending c !! id = Some pc /\
                  handleLine line c = removed id Response o c.
Proof.
  intros HI. unfold handleLine.
  destruct (JSON_parse line) as [payload|]; [|by left].
  destruct (negb (truthy (Some payload))); [by left|].
  destruct (get payload "id") as [[| |n| | |]|]; try by left.
  destruct (key_of n) as [id|]; simpl; [|by left].
  destruct (pending c !! id) as [pc|] eqn:Hp; simpl; [|by left].
  destruct (inv_pending c HI id pc Hp) as [_ Htid]. rewrite Htid.
  right. exists id, pc.
  destruct (get payload "error") as [err|];
    [match goal with |- context [if ?b then _ else _] => destruct b end|];
    eexists; (split; [exact Hp|]); reflexivity.
Qed.

Lemma Inv_handleLine (line : string) (c : t) : Inv c -> Inv (handleLine line c).
Proof.
  intros HI.
  destruct (handleLine_cases line c HI) as [->|(id & pc & o & Hp & ->)];
    [exact HI | by apply (Inv_removed id pc)].
Qed.

End WithHost.

(** The settlement [failAllPending] makes of one entry of the table. *)
Definition failure (message : string) (by_ : Trigger) (entry : Z * PendingCall)
  : Settle :=
  {| s_id := entry.1; s_trigger := by_; s_outcome := Throw message |}.

Lemma fail_each (message : string) (by_ : Trigger) (l : list (Z * PendingCall)) (c : t) :
  foldl (fun c entry =>
           settle entry.1 by_ (Throw message) (clearTimeout (timeoutId entry.2) c))
        c l =
  {| pending := pending c; stderrChunks := stderrChunks c; nextId := nextId c;
     closed := closed c;
     timers := foldl (fun m entry => delete (timeoutId entry.2) m) (timers c) l;
     written := written c;
     settles := reverse (failure message by_ <$> l) ++ settles c;
     killed := killed c |}.
Proof.
  revert c. induction l as [|entry l IH]; intros c; simpl.
  - by destruct c.
  - rewrite IH. simpl. rewrite reverse_cons, <- app_assoc. reflexivity.
Qed.

Lemma failAllPending_eq (message : string) (by_ : Trigger) (c : t) :
  failAllPending message by_ c =
  {| pending := ∅; stderrChunks := stderrChunks c; nextId := nextId c;
     closed := closed c;
     timers := foldl (fun m entry => delete (timeoutId entry.2) m) (timers c)
                     (map_to_list (pending c));
     written := written c;
     settles := reverse (failure message by_ <$> map_to_list (pending c)) ++ settles c;
     killed := killed c |}.
Proof. unfold failAllPending. rewrite fail_each. reflexivity. Qed.

Lemma lookup_foldl_delete (l : list (Z * PendingCall)) (m : gmap Z Timer) (k : Z) :
  foldl (fun m entry => delete (timeoutId entry.2) m) m l !! k =
  if decide (k ∈ (fun entry => timeoutId entry.2) <$> l) then None else m !! k.
Proof.
  revert m. induction l as [|entry l IH]; intros m; [reflexivity|].
  cbn [foldl]. rewrite IH, fmap_cons.
  destruct (decide (k ∈ _)) as [Hin|Hin];
    destruct (decide (k ∈ _ :: _)) as [Hin'|Hin']; try reflexivity.
  - exfalso. apply Hin', elem_of_cons. by right.
  - apply lookup_delete_None. left. by apply elem_of_cons in Hin' as [->|?].
  - apply lookup_delete_ne. intros Heq. apply Hin', elem_of_cons. by left.
Qed.

(** The ids of the table, as [failAllPending] goes through them. *)
Lemma failed_ids (message : string) (by_ : Trigger) (l : list (Z * PendingCall)) :
  s_id <$> reverse (failure message by_ <$> l) = reverse l.*1.
Proof. rewrite fmap_reverse, <- list_fmap_compose. reflexivity. Qed.

Lemma Inv_failAllPending (message : string) (by_ : Trigger) (c : t) :
  Inv c -> Inv (failAllPending message by_ c).
Proof.
  intros HI. rewrite failAllPending_eq.
  assert (forall id, id ∈ (map_to_list (pending c)).*1 <-> is_Some (pending c !! id))
    as Hkeys.
  { intros id. rewrite list_elem_of_fmap. split.
    - intros ([id' pc] & -> & Hin). apply elem_of_map_to_list in Hin. eauto.
    - intros [pc Hp]. exists (id, pc). split; [reflexivity|].
      by apply elem_of_map_to_list. }
  split; simpl.
  - apply (inv_next c HI).
  - intros id pc. rewrite lookup_empty. discriminate.
  - intros id. rewrite lookup_foldl_delete, lookup_empty.
    case_decide as Hin; [split; intros [? [=]]|].
    split; [|intros [? [=]]]. intros Htm. exfalso. apply Hin.
    apply (inv_timers c HI) in Htm as [pc Hp].
    apply list_elem_of_fmap. exists (id, pc). split.
    + simpl. symmetry. apply (inv_pending c HI id pc Hp).
    + by apply elem_of_map_to_list.
  - intros id tm. rewrite lookup_foldl_delete. case_decide; [discriminate|].
    apply (inv_timer_id c HI).
  - unfold settled_ids. simpl. rewrite fmap_app, failed_ids.
    intros id [Hin|Hin]%elem_of_app; (split; [|apply lookup_empty]).
    + apply elem_of_reverse, Hkeys in Hin as [pc Hp].
      apply (inv_pending c HI id pc Hp).
    + apply (inv_settled c HI id Hin).
  - unfold settled_ids. simpl. rewrite fmap_app, failed_ids.
    apply NoDup_app.
    split; [rewrite reverse_Permutation; apply NoDup_fst_map_to_list|].
    split; [|apply (inv_once c HI)].
    intros id Hin Hold. apply elem_of_reverse, Hkeys in Hin as [pc Hp].
    apply (inv_settled c HI) in Hold as [_ Hnone]. congruence.
  - apply (inv_issued c HI).
  - unfold settled_ids. simpl. rewrite fmap_app, failed_ids.
    intros id Hb. right. apply elem_of_app.
    destruct (inv_accounted c HI id Hb) as [Hp|Hs]; [left|by right].
    by apply elem_of_reverse, Hkeys.
  - reflexivity.
Qed.

(** [close] was not called before: the flags it sets, then the table is
    failed. *)
Definition closing (c : t) : t :=
  {| pending := pending c; stderrChunks := stderrChunks c;
     nextId := nextId c; closed := true; timers := timers c;
     written := written c; settles := settles c; killed := true |}.

Lemma Inv_close (c : t) : Inv c -> Inv (close c).1.
Proof.
  intros HI. unfold close. destruct (closed c) eqn:Hclosed; simpl; [exact HI|].
  pose proof (Inv_failAllPending "Codex RPC client closed" Closed c HI) as HI'.
  rewrite failAllPending_eq in HI'.
  change (Inv (failAllPending "Codex RPC client closed" Closed (closing c))).
  rewrite failAllPending_eq. simpl.
  destruct HI' as [H1 H2 H3 H4 H5 H6 H7 H8 H9].
  split; simpl in *; try assumption. reflexivity.
Qed.

Lemma Inv_exit (code : option Z) (signal : option string) (c : t) :
  Inv c -> Inv (exit code signal c).
Proof.
  intros HI. unfold exit. destruct (closed c); [exact HI|].
  by apply Inv_failAllPending.
Qed.

Lemma Inv_event `{Host} (e : Event) (c : t) : Inv c -> Inv (step e c).
Proof.
  intros HI. destruct e; simpl.
  - by apply Inv_request.
  - unfold notify. destruct (closed c); [exact HI|]. by destruct HI.
  - by apply Inv_close.
  - by apply Inv_handleLine.
  - by destruct HI.
  - by apply Inv_timeout.
  - by apply Inv_exit.
Qed.

Lemma Inv_events `{Host} (es : list Event) (c : t) : Inv c -> Inv (run es c).
Proof.
  revert c. induction es as [|e es IH]; intros c HI; simpl; [exact HI|].
  apply IH, Inv_event, HI.
Qed.

Lemma Inv_client `{Host} (es : list Event) : Inv (run es connect).
Proof. apply Inv_events, Inv_connect. Qed.

(** *** Ids and removals *)

Lemma timeout_not_pending (id : Z) (c : t) :
  Inv c -> pending c !! id = None -> timeout id c = c.
Proof.
  intros HI Hp. unfold timeout.
  destruct (timers c !! id) as [tm|] eqn:Htm; [|reflexivity].
  destruct (proj1 (inv_timers c HI id)) as [pc Hpc]; [eauto | congruence].
Qed.

Lemma handleLine_not_pending `{Host} (line : string) (payload : json)
    (n : number) (id : Z) (c : t) :
  JSON_parse line = Some payload -> get payload "id" = Some (JNum n) ->
  key_of n = Some id -> pending c !! id = None ->
  handleLine line c = c.
Proof.
  intros Hparse Hid Hkey Hp. unfold handleLine. rewrite Hparse, Hid, Hkey.
  simpl. rewrite Hp. simpl. by destruct (negb _).
Qed.

Lemma settles_step `{Host} (e : Event) (c : t) :
  (forall st, st ∈ settles (step e c) -> st ∈ settles c \/
     match e with
     | DoClose => s_trigger st = Closed
     | OnLine _ => s_trigger st = Response
     | OnTimeout _ => s_trigger st = TimedOut
     | OnExit _ _ => s_trigger st = Exited
     | _ => False
     end).
Proof.
  destruct e as [m p ms|m p| |line|chunk|tid|code sg]; simpl; intros st Hin.
  - unfold request in Hin. destruct (closed c); by left.
  - unfold notify in Hin. destruct (closed c); by left.
  - unfold close in Hin. destruct (closed c); cbn [fst] in Hin; [by left|].
    rewrite failAllPending_eq in Hin. simpl in Hin.
    apply elem_of_app in Hin as [Hin|Hin]; [right|by left].
    apply elem_of_reverse, list_elem_of_fmap in Hin as (entry & -> & _). done.
  - unfold handleLine in Hin.
    destruct (JSON_parse line) as [payload|]; [|by left].
    destruct (negb (truthy (Some payload))); [by left|].
    destruct (get payload "id") as [[| |n| | |]|]; try by left.
    destruct (key_of n ≫= _) as [[id pc]|]; [|by left].
    destruct (get payload "error") as [err|];
      [destruct (truthy (Some err))|]; simpl in Hin;
      apply elem_of_cons in Hin as [->|Hin]; (by right) || (by left).
  - by left.
  - unfold timeout in Hin. destruct (timers c !! tid); [|by left].
    simpl in Hin. apply elem_of_cons in Hin as [->|Hin]; [by right | by left].
  - unfold exit in Hin. destruct (closed c); [by left|].
    rewrite failAllPending_eq in Hin. simpl in Hin.
    apply elem_of_app in Hin as [Hin|Hin]; [right|by left].
    apply elem_of_reverse, list_elem_of_fmap in Hin as (entry & -> & _). done.
Qed.

Lemma never_closed `{Host} (es : list Event) (c : t) :
  Forall (fun e => e <> DoClose) es ->
  (forall st, st ∈ settles c -> s_trigger st <> Closed) ->
  forall st, st ∈ settles (run es c) -> s_trigger st <> Closed.
Proof.
  intros Hes. revert c. induction Hes as [|e es He _ IH]; intros c Hc; [exact Hc|].
  simpl. apply IH. intros st Hin.
  destruct (settles_step e c st Hin) as [Hold|Hnew]; [by apply Hc|].
  destruct e; try done; rewrite Hnew; discriminate.
Qed.

(** C9. In every state a client reaches through requests, notifications,
    lines, timeouts, an exit and [close], in any order: the table maps an
    id to one call, every id in it is below [nextId], so that [request]
    always adds a key that is not there; the ids given out are 1, 2, 3,
    ... in the order of the requests, strictly increasing and never given
    twice; a call that left the table is settled, once, and never comes
    back, and a call that was given an id is in the table or has left it;
    what removed it is a response, a timeout, the exit (or [close], when
    [close] is called); a timeout or a response for a call that is not in
    the table changes nothing. *)
Theorem pending_ids_unique `{Host} (es : list Event) :
  (forall id pc, pending (run es connect) !! id = Some pc ->
     1 <= id < nextId (run es connect))
  /\ pending (run es connect) !! nextId (run es connect) = None
  /\ issued (run es connect) = seqZ 1 (nextId (run es connect) - 1)
  /\ (forall (i j : nat) a b, (i < j)%nat ->
       issued (run es connect) !! i = Some a ->
       issued (run es connect) !! j = Some b -> a < b)
  /\ NoDup (issued (run es connect))
  /\ NoDup (settled_ids (run es connect))
  /\ (forall id, id ∈ settled_ids (run es connect) ->
       id ∈ issued (run es connect) /\ pending (run es connect) !! id = None)
  /\ (forall id, id ∈ issued (run es connect) ->
       is_Some (pending (run es connect) !! id) \/
       id ∈ settled_ids (run es connect))
  /\ (Forall (fun e => e <> DoClose) es ->
       forall st, st ∈ settles (run es connect) ->
       s_trigger st = Response \/ s_trigger st = TimedOut \/ s_trigger st = Exited)
  /\ (forall id, pending (run es connect) !! id = None ->
       timeout id (run es connect) = run es connect)
  /\ (forall line payload n id,
       JSON_parse line = Some payload -> get payload "id" = Some (JNum n) ->
       key_of n = Some id -> pending (run es connect) !! id = None ->
       handleLine line (run es connect) = run es connect).
Proof.
  pose proof (Inv_client es) as HI. set (c := run es connect) in *.
  assert (forall id, id ∈ issued c <-> 1 <= id < nextId c) as Hissued.
  { intros id. rewrite (inv_issued c HI), elem_of_seqZ. lia. }
  split; [intros id pc Hp; apply (inv_pending c HI id pc Hp)|].
  split.
  { destruct (pending c !! nextId c) as [pc|] eqn:Hp; [|reflexivity].
    apply (inv_pending c HI) in Hp. lia. }
  split; [apply (inv_issued c HI)|].
  split.
  { intros i j a b Hij. rewrite (inv_issued c HI), !lookup_seqZ. lia. }
  split; [rewrite (inv_issued c HI); apply NoDup_seqZ|].
  split; [apply (inv_once c HI)|].
  split.
  { intros id Hin. destruct (inv_settled c HI id Hin) as [Hb Hp].
    split; [by apply Hissued | exact Hp]. }
  split; [intros id Hin; by apply (inv_accounted c HI), Hissued|].
  split.
  { intros Hes st Hin.
    assert (s_trigger st <> Closed) as Hne.
    { apply (never_closed es connect Hes); [|exact Hin].
      simpl. intros st' Hin'. inversion Hin'. }
    destruct (s_trigger st); auto. done. }
  split; [intros id; by apply timeout_not_pending|].
  intros line payload n id. apply handleLine_not_pending.
Qed.

(** *** The exit of the process *)

Lemma startsWith_app (p r : string) : startsWith p (p +:+ r) = true.
Proof.
  induction p as [|a p IH]; simpl; [by destruct r|].
  by rewrite Ascii.eqb_refl, IH.
Qed.

Lemma includes_here (sub r : string) : includes sub (sub +:+ r) = true.
Proof.
  destruct (sub +:+ r) eqn:Heq; simpl; rewrite <- Heq, startsWith_app; reflexivity.
Qed.

Lemma includes_later (sub p s : string) :
  includes sub s = true -> includes sub (p +:+ s) = true.
Proof.
  intros Hs. induction p as [|a p IH]; simpl; [exact Hs|].
  rewrite IH. apply orb_true_r.
Qed.

Lemma exitMessage_code (n : Z) (signal : option string) :
  n <> 0 -> includes (String_of_int n) (exitMessage (Some n) signal) = true.
Proof.
  intros Hn. unfold exitMessage. destruct n; [done| |];
    apply includes_later, includes_here.
Qed.

Lemma exitMessage_unknown (signal : option string) :
  includes "unknown" (exitMessage None signal) = true.
Proof. unfold exitMessage. apply includes_later, includes_here. Qed.

Lemma exitMessage_signal (code : option Z) (sg : string) :
  code <> Some 0 -> includes sg (exitMessage code (Some sg)) = true.
Proof.
  intros Hcode.
  assert (forall text, includes sg
    ("Codex RPC process exited (" +:+ text +:+ "$" +:+
     (if String.eqb sg "" then "" else ":" +:+ sg) +:+ ")") = true) as Hgen.
  { intros text. apply includes_later, includes_later, (includes_later sg "$").
    destruct (String.eqb_spec sg "") as [->|_]; [reflexivity|].
    apply (includes_later sg ":"), includes_here. }
  unfold exitMessage. destruct code as [[| |]|]; [done| | |]; apply Hgen.
Qed.

Lemma outcome_in_app (new old : list Settle) (id : Z) :
  outcome_in (new ++ old) id =
  match outcome_in old id with
  | Some o => Some o
  | None => outcome_in new id
  end.
Proof.
  induction new as [|st new IH]; simpl.
  - by destruct (outcome_in old id).
  - rewrite IH. by destruct (outcome_in old id).
Qed.

Lemma outcome_in_none (log : list Settle) (id : Z) :
  id ∉ s_id <$> log -> outcome_in log id = None.
Proof.
  induction log as [|st log IH]; simpl; [done|].
  intros Hnot. apply not_elem_of_cons in Hnot as [Hne Hnot].
  rewrite (IH Hnot).
  destruct (Z.eqb_spec (s_id st) id) as [Heq|_]; [|reflexivity].
  by destruct Hne.
Qed.

Lemma outcome_in_same (log : list Settle) (id : Z) (o : Res value) :
  (forall st, st ∈ log -> s_outcome st = o) -> id ∈ s_id <$> log ->
  outcome_in log id = Some o.
Proof.
  induction log as [|st log IH]; simpl; intros Hall Hin; [inversion Hin|].
  destruct (decide (id ∈ s_id <$> log)) as [Hlater|Hnot].
  - rewrite IH; [reflexivity | | exact Hlater].
    intros st' Hst'. apply Hall, elem_of_cons. by right.
  - rewrite (outcome_in_none log id Hnot).
    apply elem_of_cons in Hin as [->|Hin]; [|done].
    rewrite Z.eqb_refl. f_equal. apply Hall, elem_of_cons. by left.
Qed.

(** What [failAllPending] does to the promise of a call of the table. *)
Lemma failAllPending_outcome (message : string) (by_ : Trigger) (c : t)
    (id : Z) (pc : PendingCall) :
  Inv c -> pending c !! id = Some pc ->
  outcome (failAllPending message by_ c) id = Some (Throw message).
Proof.
  intros HI Hp. unfold outcome. rewrite failAllPending_eq. simpl.
  rewrite outcome_in_app, outcome_in_none.
  - apply outcome_in_same.
    + intros st Hin.
      by apply elem_of_reverse, list_elem_of_fmap in Hin as (entry & -> & _).
    + rewrite failed_ids. apply elem_of_reverse, list_elem_of_fmap.
      exists (id, pc). split; [reflexivity | by apply elem_of_map_to_list].
  - intros Hin. apply (inv_settled c HI) in Hin as [_ Hnone]. congruence.
Qed.

(** [close] on a client that is not closed and has an empty table. *)
Lemma close_idle (c : t) :
  closed c = false -> pending c = ∅ -> close c = (closing c, Ok tt).
Proof.
  intros Hclosed Hp. unfold close. rewrite Hclosed. f_equal.
  rewrite failAllPending_eq. unfold closing. simpl.
  rewrite Hp, map_to_list_empty. reflexivity.
Qed.

(** C8. When the process exits while a call is
    pending, the call is rejected with the exit's error and the table is
    emptied. The error's message names the exit code (or "unknown" when
    there is none) and the signal when there is one, unless the code is 0:
    then it is "Codex RPC process exited unexpectedly", an error all the
    same. [close] after such an exit returns without throwing; it settles
    no call and leaves the table empty; it sets the [closed] flag and
    kills the child, and nothing else. *)
Theorem exit_rejects_pending `{Host} (es : list Event) (code : option Z)
    (signal : option string) (id : Z) (pc : PendingCall) :
  pending (run es connect) !! id = Some pc ->
  outcome (run es connect) id = None
  /\ outcome (exit code signal (run es connect)) id
     = Some (Throw (exitMessage code signal))
  /\ pending (exit code signal (run es connect)) = ∅
  /\ (forall n, code = Some n -> n <> 0 ->
       includes (String_of_int n) (exitMessage code signal) = true)
  /\ (code = None -> includes "unknown" (exitMessage code signal) = true)
  /\ (forall sg, code <> Some 0 -> signal = Some sg ->
       includes sg (exitMessage code signal) = true)
  /\ (code = Some 0 ->
       exitMessage code signal = "Codex RPC process exited unexpectedly")
  /\ (close (exit code signal (run es connect))).2 = Ok tt
  /\ (close (exit code signal (run es connect))).1
     = closing (exit code signal (run es connect))
  /\ settles (close (exit code signal (run es connect))).1
     = settles (exit code signal (run es connect))
  /\ pending (close (exit code signal (run es connect))).1 = ∅
  /\ (forall id', outcome (close (exit code signal (run es connect))).1 id'
                  = outcome (exit code signal (run es connect)) id').
Proof.
  intros Hp. pose proof (Inv_client es) as HI. set (c := run es connect) in *.
  assert (closed c = false) as Hclosed.
  { destruct (closed c) eqn:Hc; [|reflexivity].
    rewrite (inv_closed c HI Hc), lookup_empty in Hp. discriminate. }
  assert (exit code signal c = failAllPending (exitMessage code signal) Exited c)
    as Hexit by (unfold exit; by rewrite Hclosed).
  assert (pending (exit code signal c) = ∅) as Hempty
    by (rewrite Hexit, failAllPending_eq; reflexivity).
  assert (closed (exit code signal c) = false) as Hclosed'
    by (rewrite Hexit, failAllPending_eq; exact Hclosed).
  pose proof (close_idle (exit code signal c) Hclosed' Hempty) as Hclose.
  split.
  { apply outcome_in_none. intros Hin.
    apply (inv_settled c HI) in Hin as [_ Hnone]. congruence. }
  split; [rewrite Hexit; by apply (failAllPending_outcome _ _ c id pc)|].
  split; [exact Hempty|].
  split; [intros n -> Hn; by apply exitMessage_code|].
  split; [intros ->; apply exitMessage_unknown|].
  split; [intros sg Hcode ->; by apply exitMessage_signal|].
  split; [intros ->; reflexivity|].
  rewrite Hclose. simpl. auto.
Qed.

(** The process exits with code 0 while the call 1 is pending: the call is
    rejected with a message that names no exit code and no signal; and
    [close] after the exit is not the identity, it sets [closed]. *)
Lemma exit_code_zero_names_no_code :
  pending (request "account/read" (JObj []) 10000 connect).1 !! 1
  = Some {| timeoutId := 1 |}
  /\ outcome (exit (Some 0) None (request "account/read" (JObj []) 10000 connect).1) 1
     = Some (Throw "Codex RPC process exited unexpectedly")
  /\ includes (String_of_int 0) "Codex RPC process exited unexpectedly" = false
  /\ closed (exit (Some 0) None (request "account/read" (JObj []) 10000 connect).1)
     = false
  /\ closed (close (exit (Some 0) None
                     (request "account/read" (JObj []) 10000 connect).1)).1
     = true.
Proof. repeat split; vm_compute; reflexivity. Qed.

(** The process exits with code 2 while two calls are pending. *)
Lemma exit_rejects_pending_witness :
  pending (run (H:=Sample.host)
             [DoRequest "initialize" (JObj []) 10000;
              DoRequest "account/read" (JObj []) 10000] connect) !! 2
  = Some {| timeoutId := 2 |}
  /\ outcome
       (exit (Some 2) None
          (run (H:=Sample.host)
             [DoRequest "initialize" (JObj []) 10000;
              DoRequest "account/read" (JObj []) 10000] connect)) 2
     = Some (Throw "Codex RPC process exited (2$)").
Proof.
  split; [vm_compute; reflexivity|].
  refine (proj1 (proj2 (exit_rejects_pending (H:=Sample.host) _ (Some 2) None 2
                          {| timeoutId := 2 |} _))).
  vm_compute. reflexivity.
Defined.

End ClientFacts.

(** ** The definitions at work *)

Module Runs.
Import Codex Rpc.

Example fetchCodexUsage_sample :
  fetchCodexUsage (H:=Sample.host) Sample.authPath Sample.upstream
  = Ok Sample.snapshot.
Proof. vm_compute. reflexivity. Qed.

Example readCodexAuth_sample :
  readCodexAuth (H:=Sample.host) Sample.authPath
  = Ok (Some {| a_email := Some (JStr "n@x.com");
                a_planType := Some (JStr "plus");
                a_claims := Sample.claims |}).
Proof. vm_compute. reflexivity. Qed.

Example readCodexAuth_missing :
  readCodexAuth (H:=Sample.host) "/nowhere"
  = Throw "ENOENT: no such file or directory, open /nowhere"
  /\ catch_undefined (readCodexAuth (H:=Sample.host) "/nowhere") = None.
Proof. split; vm_compute; reflexivity. Qed.

Example cache_sample :
  cache (run (H:=Sample.host) Sample.fetch_done start) !! "codex"
  = Some Sample.entry.
Proof. vm_compute. reflexivity. Qed.

Example parseFloat_samples :
  parseFloat "12abc" = Fin 12 /\ parseFloat "  -1.5e2xyz" = Fin (-150)
  /\ parseFloat ".5" = Fin (1 # 2) /\ parseFloat "1e999" = Infinity false
  /\ parseFloat "-Infinity" = Infinity true /\ parseFloat "e5" = NaN
  /\ parseFloat "." = NaN /\ parseFloat "7." = Fin 7 /\ parseFloat "3e" = Fin 3.
Proof. repeat split; vm_compute; reflexivity. Qed.

End Runs.

(** * More of the code *)

(** ** [rpc.ts]: the TTL, unsupported types, a fetch that succeeds *)

Module CacheFacts.
Import Transformer Rpc RpcFacts.

Section WithHost.
Context `{Host}.

Lemma Qlt_bool_false (x y : Q) : Qlt_bool x y = false <-> (y <= x)%Q.
Proof.
  unfold Qlt_bool. rewrite negb_false_iff. apply Qle_bool_iff.
Qed.

(** X1. The TTL in force is never negative, whatever the environment
    holds: it is what [RPC_CACHE_TTL_MS] reads as only when that is a
    finite number that is not negative, and 10000 when the variable is
    unset, empty, not a number, infinite or negative. *)
Theorem cacheTtlMs_never_negative :
  (0 <= cacheTtlMs)%Q
  /\ (env_RPC_CACHE_TTL_MS = None -> cacheTtlMs = 10000%Q)
  /\ (env_RPC_CACHE_TTL_MS = Some "" -> cacheTtlMs = 10000%Q)
  /\ (forall raw, env_RPC_CACHE_TTL_MS = Some raw ->
       Number_isFinite (Number_of raw) = false -> cacheTtlMs = 10000%Q)
  /\ (forall raw q, env_RPC_CACHE_TTL_MS = Some raw -> Number_of raw = Fin q ->
       (q < 0)%Q -> cacheTtlMs = 10000%Q)
  /\ (forall raw q, env_RPC_CACHE_TTL_MS = Some raw -> raw <> "" ->
       Number_of raw = Fin q -> (0 <= q)%Q -> cacheTtlMs = q).
Proof.
  unfold cacheTtlMs, parseCacheTtl, DEFAULT_CACHE_TTL_MS.
  split.
  { destruct env_RPC_CACHE_TTL_MS as [raw|]; [|done].
    destruct (String.eqb raw ""); [done|].
    destruct (Number_of raw) as [| |q]; try done.
    destruct (Qlt_bool q 0) eqn:Hq; [done|]. by apply Qlt_bool_false. }
  split; [by intros ->|]. split; [by intros ->|].
  split.
  { intros raw -> Hfin. destruct (String.eqb raw ""); [done|].
    by destruct (Number_of raw). }
  split.
  { intros raw q -> -> Hq. destruct (String.eqb raw ""); [done|].
    apply Qlt_bool_iff in Hq. by rewrite Hq. }
  intros raw q -> Hraw -> Hq.
  destruct (String.eqb_spec raw "") as [->|_]; [done|].
  apply Qlt_bool_false in Hq. by rewrite Hq.
Qed.

(** X2. An entry that is stale stays stale: it is fresh at a time only if
    it is fresh at every earlier time; it is never fresh at or after
    [lastUpdated] plus the TTL, so that with a TTL of zero no entry is
    fresh from its [lastUpdated] on. *)
Theorem stale_stays_stale (e : CachedUsage) (now later : Z) :
  now <= later ->
  (isFresh e now = false -> isFresh e later = false)
  /\ (isFresh e later = true -> isFresh e now = true)
  /\ ((inject_Z (lastUpdated e) + cacheTtlMs <= inject_Z now)%Q ->
      isFresh e now = false)
  /\ ((cacheTtlMs == 0)%Q -> lastUpdated e <= now -> isFresh e now = false).
Proof.
  intros Hle.
  assert (inject_Z (now - lastUpdated e) <= inject_Z (later - lastUpdated e))%Q
    as Hmono by (rewrite <- Zle_Qle; lia).
  assert (isFresh e now = false -> isFresh e later = false) as Hstale.
  { unfold isFresh. rewrite !Qlt_bool_false. intros Hnow.
    by eapply Qle_trans. }
  split; [exact Hstale|].
  split.
  { destruct (isFresh e now); [done|]. intros Hlater.
    rewrite Hstale in Hlater; done. }
  split.
  - unfold isFresh. rewrite Qlt_bool_false. intros Hwin.
    unfold Z.sub. rewrite inject_Z_plus, inject_Z_opp.
    apply (Qplus_le_l _ _ (inject_Z (lastUpdated e))). ring_simplify.
    by rewrite Qplus_comm.
  - unfold isFresh. rewrite Qlt_bool_false. intros -> Hlast.
    change 0%Q with (inject_Z 0). rewrite <- Zle_Qle. lia.
Qed.






End WithHost.

Lemma stale_stays_stale_witness :
  isFresh (H:=Sample.host) Sample.entry 1700000010000 = false
  /\ isFresh (H:=Sample.host) Sample.entry 1700000020000 = false.
Proof.
  split; [vm_compute; reflexivity|].
  refine (proj1 (stale_stays_stale (H:=Sample.host) Sample.entry
                   1700000010000 1700000020000 _) _); [lia|].
  vm_compute. reflexivity.
Defined.


End CacheFacts.

(** ** [rpc.ts]: a fetch that succeeds, other keys, ETags *)

Module ServedFacts.
Import Transformer Rpc RpcFacts.

Lemma length_append (a b : string) :
  String.length (a +:+ b) = (String.length a + String.length b)%nat.
Proof. induction a as [|c a IH]; simpl; [reflexivity | by rewrite IH]. Qed.

Lemma append_cancel_r (a b d : string) : a +:+ d = b +:+ d -> a = b.
Proof.
  revert b. induction a as [|c a IH]; intros [|c' b] Heq.
  - reflexivity.
  - apply (f_equal String.length) in Heq.
    rewrite !length_append in Heq. simpl in Heq. lia.
  - apply (f_equal String.length) in Heq.
    rewrite !length_append in Heq. simpl in Heq. lia.
  - simpl in Heq. injection Heq as -> Heq. f_equal. by apply IH.
Qed.

(** For one type, entries of different times have different ETags. *)
Lemma buildEtag_inj (type : string) (t1 t2 : Z) :
  buildEtag type t1 = buildEtag type t2 -> t1 = t2.
Proof.
  unfold buildEtag, String_of_int. intros Heq.
  do 4 apply String.app_inj in Heq.
  apply append_cancel_r in Heq. by apply pretty_Z_inj in Heq.
Qed.

Section WithHost.
Context `{Host}.

(** X4. When [fetchCodexUsage()] succeeds for the promise [p] of a key,
    whatever else runs before [p]'s [finally] callback: the entry built
    from the snapshot is the key's entry, the registration is removed,
    every caller following [p] receives that entry, and [loadUsage] serves
    that same entry without a fetch for as long as the time since the
    snapshot's [fetchedAt] is below the TTL, and starts a new fetch from
    then on. *)
Theorem fetch_success_served (es es' es'' : list Event) (p : nat) (type : string)
    (snap : Codex.CodexUsageSnapshot) :
  promises (run es start) !! p = Some {| f_type := type; f_phase := Fetching |} ->
  Forall (fun ev => ev <> Finally p) es' ->
  cache (finally_ p (run es' (fetched p (Ok snap) (run es start)))) !! type
  = Some (built type snap)
  /\ inFlight (finally_ p (run es' (fetched p (Ok snap) (run es start)))) !! type
     = None
  /\ received
       (run es'' (finally_ p (run es' (fetched p (Ok snap) (run es start)))))
       (Follows p)
     = Some (Ok (built type snap))
  /\ (forall now,
       (inject_Z (now - Codex.fetchedAt snap) < cacheTtlMs)%Q ->
       loadUsage type now
         (finally_ p (run es' (fetched p (Ok snap) (run es start))))
       = (finally_ p (run es' (fetched p (Ok snap) (run es start))),
          Entry (built type snap)))
  /\ (forall now,
       (cacheTtlMs <= inject_Z (now - Codex.fetchedAt snap))%Q ->
       exists s3 p',
         loadUsage type now
           (finally_ p (run es' (fetched p (Ok snap) (run es start))))
         = (s3, Follows p')
         /\ p' <> p
         /\ calls s3 =
            p' :: calls (finally_ p (run es' (fetched p (Ok snap) (run es start))))).
Proof.
  intros Hp Hes'.
  pose proof (Inv_reachable es) as HI. set (s := run es start) in *.
  assert (type = "codex") as -> by apply (inv_fetching s HI p type Hp).
  pose proof (Inv_fetched p (Ok snap) s HI) as HI1.
  pose proof (fetched_fetching s p "codex" (Ok snap) Hp) as Hs1.
  set (s1 := fetched p (Ok snap) s) in *.
  assert (promises s1 !! p = Some {| f_type := "codex";
            f_phase := Returned (Ok (built "codex" snap)) |}) as Hp1.
  { rewrite Hs1. simpl. rewrite set_phase_lookup. case_decide; [|done].
    by rewrite Hp. }
  assert (cache s1 !! "codex" = Some (built "codex" snap)) as Hc1
    by (rewrite Hs1; simpl; apply lookup_insert_eq).
  destruct (returned_run es' s1 p "codex" _ HI1 Hp1 Hes') as [Hp2 Hc2].
  set (s2 := run es' s1) in *.
  pose proof (finally_returned s2 p "codex" _ Hp2) as Hs3.
  set (s3 := finally_ p s2) in *.
  assert (promises s3 !! p = Some {| f_type := "codex";
            f_phase := Settled (Ok (built "codex" snap)) |}) as Hp3.
  { rewrite Hs3. simpl. rewrite set_phase_lookup. case_decide; [|done].
    by rewrite Hp2. }
  assert (inFlight s3 !! "codex" = None) as Hreg3
    by (rewrite Hs3; simpl; apply lookup_delete_eq).
  assert (cache s3 !! "codex" = Some (built "codex" snap)) as Hc3
    by (rewrite Hs3; simpl; congruence).
  split; [exact Hc3|]. split; [exact Hreg3|].
  split; [apply received_run; simpl; by rewrite Hp3|].
  split.
  - intros now Hfresh. apply loadUsage_hit; [exact Hc3|].
    by apply isFresh_iff.
  - intros now Hstale.
    assert (forall e0, cache s3 !! "codex" = Some e0 -> isFresh e0 now = false)
      as Hstale3.
    { intros e0. rewrite Hc3. intros [= <-].
      apply CacheFacts.Qlt_bool_false. exact Hstale. }
    rewrite (loadUsage_miss "codex" now s3 Hstale3 Hreg3).
    eexists _, _. split; [reflexivity|]. simpl.
    split; [apply lookup_lt_Some in Hp3; lia | reflexivity].
Qed.

(** The key an event is about. *)
Definition key_of_event (s : t) (ev : Event) : option string :=
  match ev with
  | Load type _ => Some type
  | Fetched p _ | Finally p => f_type <$> promises s !! p
  end.

(** X5. An event about one key leaves the entry and the registration of
    every other key as they are. [loadUsage] and the [finally] callback
    never change the cache, and the end of a fetch never changes the
    registry. *)
Theorem other_keys_untouched (ev : Event) (s : t) (k : string) :
  key_of_event s ev <> Some k ->
  cache (step ev s) !! k = cache s !! k
  /\ inFlight (step ev s) !! k = inFlight s !! k
  /\ (forall type now, cache (loadUsage type now s).1 = cache s)
  /\ (forall p, cache (finally_ p s) = cache s)
  /\ (forall p r, inFlight (fetched p r s) = inFlight s).
Proof.
  intros Hkey.
  assert (forall type now, cache (loadUsage type now s).1 = cache s) as Hload.
  { intros type now.
    destruct (loadUsage_cases type now s) as
      [(e & _ & _ & ->)|[(p' & _ & ->)|(Hstale & Hnone)]]; try done.
    by rewrite (loadUsage_miss type now s Hstale Hnone). }
  assert (forall p, cache (finally_ p s) = cache s) as Hfin.
  { intros p. unfold finally_.
    by destruct (promises s !! p) as [[type [|o|]]|]. }
  assert (forall p r, inFlight (fetched p r s) = inFlight s) as Hfetched.
  { intros p r. unfold fetched.
    destruct (promises s !! p) as [[type [| |]]|]; try done. by destruct r. }
  repeat split; try done.
  - destruct ev as [type now|p r|p]; simpl in *.
    + by rewrite Hload.
    + unfold fetched.
      destruct (promises s !! p) as [[type [| |]]|] eqn:Hp; try done.
      simpl in Hkey.
      destruct r; simpl; [|done]. apply lookup_insert_ne. congruence.
    + by rewrite Hfin.
  - destruct ev as [type now|p r|p]; simpl in *.
    + destruct (loadUsage_cases type now s) as
        [(e & _ & _ & ->)|[(p' & _ & ->)|(Hstale & Hnone)]]; try done.
      rewrite (loadUsage_miss type now s Hstale Hnone). simpl.
      apply lookup_insert_ne. congruence.
    + by rewrite Hfetched.
    + unfold finally_.
      destruct (promises s !! p) as [[type [|o|]]|] eqn:Hp; try done.
      simpl in Hkey.
      simpl. apply lookup_delete_ne. congruence.
Qed.

(** The ETag of an entry of the cache is never the empty text. *)
Lemma cached_etag_nonempty (es : list Event) (type : string) (e : CachedUsage) :
  cache (run es start) !! type = Some e -> etag e <> "".
Proof.
  intros Hc. destruct (inv_cache _ (Inv_reachable es) type e Hc) as [_ ->].
  apply buildEtag_nonempty.
Qed.

(** X6. The ETag sent with an entry of the cache revalidates that entry,
    whatever [if-modified-since] says; it does not revalidate an entry of
    the same key with another [lastUpdated], whose ETag is different. *)
Theorem etag_revalidates (es es2 : list Event) (type : string) (e e2 : CachedUsage)
    (since : option string) :
  cache (run es start) !! type = Some e ->
  cache (run es2 start) !! type = Some e2 ->
  applyCacheHeaders e !! 0%nat = Some ("ETag", etag e)
  /\ isNotModified {| if_none_match := Some (etag e); if_modified_since := since |} e
     = true
  /\ (lastUpdated e2 <> lastUpdated e ->
      etag e2 <> etag e
      /\ isNotModified {| if_none_match := Some (etag e); if_modified_since := None |} e2
         = false).
Proof.
  intros Hc Hc2. split; [reflexivity|].
  split; [apply isNotModified_true; [exact (cached_etag_nonempty es type e Hc) | by left]|].
  intros Hlast.
  destruct (inv_cache _ (Inv_reachable es) type e Hc) as [_ Hetag].
  destruct (inv_cache _ (Inv_reachable es2) type e2 Hc2) as [_ Hetag2].
  assert (etag e2 <> etag e) as Hne.
  { rewrite Hetag, Hetag2. intros Heq. by apply buildEtag_inj in Heq. }
  split; [exact Hne|].
  destruct (isNotModified _ e2) eqn:Hnm; [|reflexivity].
  apply (isNotModified_true _ e2 (cached_etag_nonempty es2 type e2 Hc2)) in Hnm
    as [[= Heq]|(v & parsed & [=] & _)]. by destruct Hne.
Qed.

End WithHost.

Lemma fetch_success_served_witness :
  promises (run (H:=Sample.host) [Load "codex" 5] start) !! 0%nat
  = Some {| f_type := "codex"; f_phase := Fetching |}
  /\ loadUsage (H:=Sample.host) "codex" 1700000005000
       (finally_ 0 (run (H:=Sample.host) []
          (fetched 0 (Ok Sample.snapshot)
             (run (H:=Sample.host) [Load "codex" 5] start))))
     = (finally_ 0 (run (H:=Sample.host) []
          (fetched 0 (Ok Sample.snapshot)
             (run (H:=Sample.host) [Load "codex" 5] start))),
        Entry (built "codex" Sample.snapshot)).
Proof.
  split; [vm_compute; reflexivity|].
  destruct (fetch_success_served (H:=Sample.host) [Load "codex" 5] [] [] 0
              "codex" Sample.snapshot) as (_ & _ & _ & Hserved & _).
  - vm_compute. reflexivity.
  - constructor.
  - apply Hserved. vm_compute. reflexivity.
Defined.

Lemma other_keys_untouched_witness :
  inFlight (step (H:=Sample.host) (Load "claude" 5)
              (run (H:=Sample.host) [Load "codex" 5] start)) !! "codex"
  = inFlight (run (H:=Sample.host) [Load "codex" 5] start) !! "codex".
Proof.
  refine (proj1 (proj2 (other_keys_untouched (H:=Sample.host) (Load "claude" 5)
                          (run (H:=Sample.host) [Load "codex" 5] start) "codex" _))).
  discriminate.
Defined.

(** A later fetch than the sample's. *)
Definition later_snapshot : Codex.CodexUsageSnapshot :=
  {| Codex.source := "rpc"; Codex.fetchedAt := 1700000099000;
     Codex.account := None; Codex.rateLimits := None; Codex.raw := None |}.

Lemma etag_revalidates_witness :
  isNotModified (H:=Sample.host)
    {| if_none_match := Some (etag Sample.entry); if_modified_since := None |}
    Sample.entry = true
  /\ isNotModified (H:=Sample.host)
       {| if_none_match := Some (etag Sample.entry); if_modified_since := None |}
       (built "codex" later_snapshot) = false.
Proof.
  destruct (etag_revalidates (H:=Sample.host) Sample.fetch_done
              [Load "codex" 5; Fetched 0 (Ok later_snapshot)] "codex"
              Sample.entry (built "codex" later_snapshot) None)
    as (_ & Hsame & Hother); [vm_compute; reflexivity ..|].
  split; [exact Hsame|]. apply Hother. discriminate.
Defined.

End ServedFacts.

(** ** [rpc.ts]: the routes [/usage/:type] and [/last-updated/:type] *)

Module Routes.
Import Transformer Rpc.

(** [toLowerCase] on code units below 256. *)
Definition lower (c : ascii) : ascii :=
  let n := code c in
  if ((65 <=? n) && (n <=? 90))
     || ((192 <=? n) && (n <=? 222) && negb (n =? 215))
  then ascii_of_nat (Z.to_nat (n + 32)) else c.

Fixpoint toLowerCase (s : string) : string :=
  match s with
  | String c r => String (lower c) (toLowerCase r)
  | EmptyString => EmptyString
  end.

(** What a handler reads of a request: the [:type] parameter, the [email]
    query and the conditional headers. *)
Record Incoming := {
  param_type : string;
  query_email : option string;
  conditional : Request;
}.

(** [c.req.query("email")?.trim() || undefined] *)
Definition email_of (query : option string) : option string :=
  match query with
  | Some v => if String.eqb (trim v) "" then None else Some (trim v)
  | None => None
  end.

(** [RpcUsageResponse], [RpcLastUpdatedResponse] and [RpcUsageError]. *)
Inductive Body :=
| Usage (type : string) (email : option string) (lastUpdated : Z)
        (usage : AgentUsageSnapshot)
| LastUpdated (type : string) (email : option string) (lastUpdated : Z)
| Failed (type : string) (email : option string) (error : string).

(** The status, the headers the handler has set, and the JSON body. *)
Record Response := {
  status : Z;
  headers : list (string * string);
  body : option Body;
}.

(** [SUPPORTED_TYPES.has(type)] *)
Definition supported (type : string) : bool :=
  existsb (String.eqb type) SUPPORTED_TYPES.

(** [email && entry.snapshot.account?.email &&
     entry.snapshot.account.email !== email] *)
Definition other_account (email : option string) (entry : CachedUsage) : bool :=
  match email with
  | None => false
  | Some email =>
      let account_email := account (snapshot entry) ≫= u_email in
      truthy account_email &&
      negb match account_email with
           | Some (JStr s) => String.eqb s email
           | _ => false
           end
  end.

Definition rejected (type : string) (email : option string) : Response :=
  {| status := 400; headers := [];
     body := Some (Failed type email ("Unsupported usage type: " +:+ type)) |}.

Section WithHost.
Context `{Host}.

(** Either handler up to its [await]: its answer, or the [loadUsage] it
    awaits. *)
Definition enter (req : Incoming) (now : Z) (s : t) : t * (Response + Loaded) :=
  let type := toLowerCase (param_type req) in
  let email := email_of (query_email req) in
  if negb (supported type) then (s, inl (rejected type email))
  else let '(s', l) := loadUsage type now s in (s', inr l).

(** The handler of [/usage/:type] once [loadUsage] has settled. *)
Definition usage (req : Incoming) (loaded : Res CachedUsage) : Response :=
  let type := toLowerCase (param_type req) in
  let email := email_of (query_email req) in
  match loaded with
  | Ok entry =>
      if isNotModified (conditional req) entry
      then {| status := 304; headers := []; body := None |}
      else if other_account email entry
      then {| status := 404; headers := applyCacheHeaders entry;
              body := Some (Failed type email "No usage data for requested email.") |}
      else {| status := 200; headers := applyCacheHeaders entry;
              body := Some (Usage type email (lastUpdated entry) (snapshot entry)) |}
  | Throw message =>
      {| status := 500; headers := []; body := Some (Failed type email message) |}
  end.

(** The handler of [/last-updated/:type] once [loadUsage] has settled. *)
Definition last_updated (req : Incoming) (loaded : Res CachedUsage) : Response :=
  let type := toLowerCase (param_type req) in
  let email := email_of (query_email req) in
  match loaded with
  | Ok entry =>
      if isNotModified (conditional req) entry
      then {| status := 304; headers := []; body := None |}
      else if other_account email entry
      then {| status := 404; headers := applyCacheHeaders entry;
              body := Some (Failed type email "No usage data for requested email.") |}
      else {| status := 200; headers := applyCacheHeaders entry;
              body := Some (LastUpdated type email (lastUpdated entry)) |}
  | Throw message =>
      {| status := 500; headers := []; body := Some (Failed type email message) |}
  end.

(** What happens to the cache when it is used through the routes only. *)
Inductive Served :=
| Enter (req : Incoming) (now : Z)
| FetchDone (p : nat) (r : Res Codex.CodexUsageSnapshot)
| Callback (p : nat).

Definition serve (ev : Served) (s : t) : t :=
  match ev with
  | Enter req now => (enter req now s).1
  | FetchDone p r => fetched p r s
  | Callback p => finally_ p s
  end.

Definition served (evs : list Served) (s : t) : t :=
  foldl (fun s ev => serve ev s) s evs.

End WithHost.

End Routes.

Module RouteFacts.
Import Transformer Rpc RpcFacts Routes.

Section WithHost.
Context `{Host}.

Lemma supported_codex (type : string) : supported type = true <-> type = "codex".
Proof.
  unfold supported, SUPPORTED_TYPES. simpl. rewrite orb_false_r.
  apply String.eqb_eq.
Qed.

Lemma enter_supported (req : Incoming) (now : Z) (s : t) :
  toLowerCase (param_type req) = "codex" ->
  enter req now s
  = ((loadUsage "codex" now s).1, inr (loadUsage "codex" now s).2).
Proof.
  intros Htype. unfold enter. rewrite Htype. simpl.
  by destruct (loadUsage "codex" now s).
Qed.

Lemma enter_unsupported (req : Incoming) (now : Z) (s : t) :
  toLowerCase (param_type req) <> "codex" ->
  enter req now s
  = (s, inl (rejected (toLowerCase (param_type req))
                      (email_of (query_email req)))).
Proof.
  intros Htype. unfold enter.
  destruct (supported _) eqn:Hs; [|reflexivity].
  by apply supported_codex in Hs.
Qed.

Lemma set_phase_type (p q : nat) (ph : Phase) (l : list Fetch) (f : Fetch) :
  set_phase p ph l !! q = Some f ->
  exists f0, l !! q = Some f0 /\ f_type f0 = f_type f.
Proof.
  rewrite set_phase_lookup. case_decide as Hpq; [|eauto]. subst q.
  destruct (l !! p) as [f0|]; simpl; [|done]. intros [= <-]. eauto.
Qed.

Lemma serve_types (ev : Served) (s : t) :
  (forall p f, promises s !! p = Some f -> f_type f = "codex") ->
  forall p f, promises (serve ev s) !! p = Some f -> f_type f = "codex".
Proof.
  intros Hall p f. destruct ev as [r n|q r|q]; simpl.
  - destruct (decide (toLowerCase (param_type r) = "codex")) as [Hc|Hc].
    + rewrite (enter_supported r n s Hc). simpl.
      destruct (loadUsage_cases "codex" n s) as
        [(e & _ & _ & ->)|[(p' & _ & ->)|(Hstale & Hnone)]];
        [apply Hall..|].
      rewrite (loadUsage_miss "codex" n s Hstale Hnone). simpl.
      intros [[_ Hp]|[_ <-]]%lookup_snoc_Some; [by eapply Hall | done].
    + rewrite (enter_unsupported r n s Hc). apply Hall.
  - unfold fetched.
    destruct (promises s !! q) as [[type [| |]]|] eqn:Hq; try apply Hall.
    destruct r; simpl; intros (f0 & Hf0 & <-)%set_phase_type; by eapply Hall.
  - unfold finally_.
    destruct (promises s !! q) as [[type [|o|]]|] eqn:Hq; try apply Hall.
    simpl. intros (f0 & Hf0 & <-)%set_phase_type. by eapply Hall.
Qed.

Lemma Inv_serve (ev : Served) (s : t) : Inv s -> Inv (serve ev s).
Proof.
  intros HI. destruct ev as [r n|p r|p]; simpl.
  - destruct (decide (toLowerCase (param_type r) = "codex")) as [Hc|Hc].
    + rewrite (enter_supported r n s Hc). by apply Inv_loadUsage.
    + by rewrite (enter_unsupported r n s Hc).
  - by apply Inv_fetched.
  - by apply Inv_finally.
Qed.

(** X7. A route answers a type that is not "codex" in any letter case
    with status 400 at once, "Unsupported usage type: <type>", touching
    neither the cache nor the registry; for "codex" it awaits
    [loadUsage("codex")]. So when the cache is used through the routes
    only, every promise is for "codex" and has called
    [fetchCodexUsage()]: the "Unsupported usage type" that [loadUsage]
    itself throws is never met. *)
Theorem routes_load_codex_only (req : Incoming) (now : Z) (s : t)
    (evs : list Served) :
  (toLowerCase (param_type req) <> "codex" ->
     enter req now s
     = (s, inl {| status := 400; headers := [];
                  body := Some (Failed (toLowerCase (param_type req))
                                  (email_of (query_email req))
                                  ("Unsupported usage type: "
                                   +:+ toLowerCase (param_type req))) |}))
  /\ (toLowerCase (param_type req) = "codex" ->
     enter req now s
     = ((loadUsage "codex" now s).1, inr (loadUsage "codex" now s).2))
  /\ (forall p f, promises (served evs start) !! p = Some f ->
     f_type f = "codex" /\ p ∈ calls (served evs start)).
Proof.
  split; [apply enter_unsupported|]. split; [apply enter_supported|].
  assert (forall s0, Inv s0 ->
            (forall p f, promises s0 !! p = Some f -> f_type f = "codex") ->
            Inv (served evs s0) /\
            forall p f, promises (served evs s0) !! p = Some f -> f_type f = "codex")
    as Hserved.
  { induction evs as [|ev evs IH]; intros s0 HI Hall; simpl; [done|].
    apply IH; [by apply Inv_serve | by apply serve_types]. }
  destruct (Hserved start Inv_start) as [HI Hall].
  { intros p f. simpl. by rewrite lookup_nil. }
  intros p [type ph] Hp. pose proof (Hall p _ Hp) as Htype. simpl in Htype.
  subst type. split; [reflexivity|]. apply (inv_calls _ HI). eauto.
Qed.


(** The value a response carries for a header. *)
Definition header (name : string) (r : Response) : option string :=
  snd <$> List.find (fun h => String.eqb h.1 name) (headers r).


(** X9. A client that sends back, as [if-none-match], the ETag a route
    gave it with an entry is answered 304 with no body by both routes for
    as long as that entry is the one [loadUsage] returns, whichever
    account it asks for; the ETag is sent with a 404 as it is with a
    200. *)
Theorem route_revalidation (es : list Event) (type : string) (e : CachedUsage)
    (req again : Incoming) :
  cache (run es start) !! type = Some e ->
  isNotModified (conditional req) e = false ->
  if_none_match (conditional again) = header "ETag" (usage req (Ok e)) ->
  header "ETag" (usage req (Ok e)) = Some (etag e)
  /\ header "ETag" (last_updated req (Ok e)) = Some (etag e)
  /\ usage again (Ok e) = {| status := 304; headers := []; body := None |}
  /\ last_updated again (Ok e) = {| status := 304; headers := []; body := None |}.
Proof.
  intros Hc Hnm Hsent.
  assert (header "ETag" (usage req (Ok e)) = Some (etag e)) as Hetag.
  { unfold usage. rewrite Hnm. by destruct (other_account _ e). }
  assert (isNotModified (conditional again) e = true) as Hagain.
  { apply isNotModified_true;
      [exact (ServedFacts.cached_etag_nonempty es type e Hc) | left; congruence]. }
  split; [exact Hetag|].
  split; [unfold last_updated; rewrite Hnm; by destruct (other_account _ e)|].
  unfold usage, last_updated. by rewrite Hagain.
Qed.

End WithHost.


(** A request for the sample account, and the same request again with
    the ETag of the answer. *)
Definition first_request : Incoming :=
  {| param_type := "Codex"; query_email := Some " n@x.com ";
     conditional := {| if_none_match := None; if_modified_since := None |} |}.

Definition second_request : Incoming :=
  {| param_type := "codex"; query_email := Some "other@x.com";
     conditional := {| if_none_match := Some (etag Sample.entry);
                       if_modified_since := None |} |}.

Example usage_sample :
  usage (H:=Sample.host) first_request (Ok Sample.entry)
  = {| status := 200;
       headers := [ ("ETag", etag Sample.entry);
                    ("Last-Modified", "Tue, 14 Nov 2023 22:13:20 GMT");
                    ("X-Last-Updated", "1700000000000");
                    ("Cache-Control", "no-cache") ];
       body := Some (Usage "codex" (Some "n@x.com") 1700000000000
                       (snapshot Sample.entry)) |}.
Proof. vm_compute. reflexivity. Qed.

Lemma route_revalidation_witness :
  cache (run (H:=Sample.host) Sample.fetch_done start) !! "codex"
  = Some Sample.entry
  /\ usage (H:=Sample.host) second_request (Ok Sample.entry)
     = {| status := 304; headers := []; body := None |}.
Proof.
  split; [vm_compute; reflexivity|].
  refine (proj1 (proj2 (proj2
    (route_revalidation (H:=Sample.host) Sample.fetch_done "codex"
       Sample.entry first_request second_request _ _ _))));
    vm_compute; reflexivity.
Defined.

End RouteFacts.

(** ** [CodexRpcClient]: responses, timeouts, [close], diagnostics *)

Module WireFacts.
Import CodexRpcClient ClientFacts.

Section WithHost.
Context `{Host}.

(** What a response settles its call with. *)
Definition answer (payload : json) : Res value :=
  match get payload "error" with
  | Some err =>
      if truthy (Some err) then
        Throw ("Codex RPC error " +:+ ToString (get err "code")
               +:+ ": " +:+ ToString (get err "message"))
      else Ok (get payload "result")
  | None => Ok (get payload "result")
  end.

(** The call a line answers: the line is JSON with a numeric [id] that is
    a key of the table. *)
Definition answered (line : string) (c : t) : option (Z * json) :=
  match JSON_parse line with
  | Some payload =>
      match get payload "id" with
      | Some (JNum n) =>
          match key_of n with
          | Some id => if decide (is_Some (pending c !! id))
                       then Some (id, payload) else None
          | None => None
          end
      | _ => None
      end
  | None => None
  end.

Lemma handleLine_answered (line : string) (c : t) :
  Inv c ->
  handleLine line c =
  match answered line c with
  | Some (id, payload) => removed id Response (answer payload) c
  | None => c
  end.
Proof.
  intros HI. unfold handleLine, answered.
  destruct (JSON_parse line) as [payload|]; [|reflexivity].
  destruct (get payload "id") as [[| |n| | |]|] eqn:Hid;
    try (by destruct (negb (truthy (Some payload)))).
  assert (truthy (Some payload) = true) as ->
    by (destruct payload; try discriminate; reflexivity).
  simpl. destruct (key_of n) as [id|]; simpl; [|reflexivity].
  destruct (decide (is_Some (pending c !! id))) as [[pc Hp]|Hnone].
  - rewrite Hp. simpl. destruct (inv_pending c HI id pc Hp) as [_ ->].
    unfold answer.
    destruct (get payload "error") as [err|]; [|reflexivity].
    unfold truthy.
    by match goal with |- context [if ?b then _ else _] => destruct b end.
  - destruct (pending c !! id) as [pc|]; [|reflexivity].
    destruct Hnone. eauto.
Qed.

Lemma key_of_integer (id : Z) : key_of (Fin (inject_Z id)) = Some id.
Proof.
  unfold key_of. pose proof (Qred_correct (inject_Z id)) as Heq.
  pose proof (gcd_Qred (inject_Z id)) as Hgcd.
  destruct (Qred (inject_Z id)) as [num den].
  unfold Qeq in Heq. simpl in *. rewrite Z.mul_1_r in Heq. subst num.
  rewrite Z.mul_comm, Z.gcd_comm, Z.gcd_mul_diag_l in Hgcd by lia.
  injection Hgcd as ->. simpl. f_equal. lia.
Qed.

(** X10. A response settles the call whose id it carries, and only that
    call: the call is resolved with the response's [result], or rejected
    with "Codex RPC error <code>: <message>" when the response has an
    [error]; it leaves the table and its timer is cleared; every other
    call stays pending with its timer, whatever the order of the
    responses. *)
Theorem response_settles_its_call (es : list Event) (line : string)
    (payload : json) (n : number) (id : Z) (pc : PendingCall) :
  pending (run es connect) !! id = Some pc ->
  JSON_parse line = Some payload ->
  get payload "id" = Some (JNum n) ->
  key_of n = Some id ->
  outcome (handleLine line (run es connect)) id = Some (answer payload)
  /\ pending (handleLine line (run es connect)) = delete id (pending (run es connect))
  /\ timers (handleLine line (run es connect)) = delete id (timers (run es connect))
  /\ (forall other, other <> id ->
       pending (handleLine line (run es connect)) !! other
       = pending (run es connect) !! other
       /\ timers (handleLine line (run es connect)) !! other
          = timers (run es connect) !! other
       /\ outcome (handleLine line (run es connect)) other
          = outcome (run es connect) other)
  /\ nextId (handleLine line (run es connect)) = nextId (run es connect)
  /\ written (handleLine line (run es connect)) = written (run es connect).
Proof.
  intros Hp Hparse Hid Hkey. pose proof (Inv_client es) as HI.
  set (c := run es connect) in *.
  rewrite (handleLine_answered line c HI). unfold answered.
  rewrite Hparse, Hid, Hkey, decide_True by eauto.
  assert (outcome c id = None) as Hnone.
  { apply outcome_in_none. intros Hin.
    apply (inv_settled c HI) in Hin as [_ Hin]. congruence. }
  unfold outcome in *. simpl. rewrite Hnone, Z.eqb_refl.
  repeat split; try done.
  - by apply lookup_delete_ne.
  - by apply lookup_delete_ne.
  - destruct (outcome_in (settles c) other); [done|].
    destruct (Z.eqb_spec id other); [congruence | done].
Qed.

(** X11. A line changes the client exactly when it answers a pending
    call. A line that is not JSON, a JSON value without a numeric [id] (a
    notification of the server), and a response whose id is not in the
    table (its call timed out, or was never made) are dropped. *)
Theorem line_dropped_unless_answer (es : list Event) (line : string) :
  (handleLine line (run es connect) = run es connect <->
   answered line (run es connect) = None)
  /\ (JSON_parse line = None ->
      handleLine line (run es connect) = run es connect)
  /\ (forall payload, JSON_parse line = Some payload ->
      (forall n, get payload "id" <> Some (JNum n)) ->
      handleLine line (run es connect) = run es connect)
  /\ (forall payload n, JSON_parse line = Some payload ->
      get payload "id" = Some (JNum n) ->
      (forall id, key_of n = Some id -> pending (run es connect) !! id = None) ->
      handleLine line (run es connect) = run es connect).
Proof.
  pose proof (Inv_client es) as HI. set (c := run es connect) in *.
  rewrite (handleLine_answered line c HI).
  split.
  { destruct (answered line c) as [[id payload]|]; [|done].
    split; [|done]. intros Heq. apply (f_equal settles) in Heq.
    apply (f_equal length) in Heq. simpl in Heq. lia. }
  unfold answered. split; [by intros ->|]. split.
  - intros payload -> Hid.
    destruct (get payload "id") as [[| |n| | |]|]; try done. by destruct (Hid n).
  - intros payload n -> -> Hkey. destruct (key_of n) as [id|]; [|done].
    rewrite decide_False; [done|]. rewrite (Hkey id eq_refl). by intros [? [=]].
Qed.

Lemma settles_grow (e : Event) (c : t) :
  exists new, settles (step e c) = new ++ settles c.
Proof.
  destruct e as [m p ms|m p| |line|chunk|tid|code sg]; simpl.
  - exists []. unfold request. by destruct (closed c).
  - exists []. unfold notify. by destruct (closed c).
  - unfold close. destruct (closed c); cbn [fst]; [by exists []|].
    rewrite failAllPending_eq. simpl. eauto.
  - unfold handleLine.
    destruct (JSON_parse line) as [payload|]; [|by exists []].
    destruct (negb (truthy (Some payload))); [by exists []|].
    destruct (get payload "id") as [[| |n| | |]|]; try by exists [].
    destruct (key_of n ≫= _) as [[id pc]|]; [|by exists []].
    destruct (get payload "error") as [err|];
      [destruct (truthy (Some err))|]; simpl; by eexists [_].
  - by exists [].
  - unfold timeout. destruct (timers c !! tid); [|by exists []].
    simpl. by eexists [_].
  - unfold exit. destruct (closed c); [by exists []|].
    rewrite failAllPending_eq. simpl. eauto.
Qed.


(** The requests written are below [nextId], one per id, and a live timer
    holds the method of the request it was set for. *)
Record Inv_written (c : t) : Prop := {
  inv_asked : forall id tm, timers c !! id = Some tm ->
    exists params, Request id (t_method tm) params ∈ written c;
  inv_below : forall id m params, Request id m params ∈ written c ->
    id < nextId c;
  inv_one : forall id m params m' params',
    Request id m params ∈ written c -> Request id m' params' ∈ written c ->
    m = m' /\ params = params';
}.

Lemma Inv_written_step (e : Event) (c : t) :
  Inv c -> Inv_written c -> Inv_written (step e c).
Proof.
  intros HI [Hasked Hbelow Hone].
  assert (forall c', written c' = written c -> nextId c' = nextId c ->
            (forall id tm, timers c' !! id = Some tm -> timers c !! id = Some tm) ->
            Inv_written c') as Hshrink.
  { intros c' Hw Hn Ht. split; rewrite ?Hw, ?Hn; eauto. }
  destruct e as [m p ms|m p| |line|chunk|tid|code sg]; simpl.
  - unfold request. destruct (closed c); simpl; [done|]. split; simpl.
    + intros id tm [[<- <-]|[_ Htm]]%lookup_insert_Some.
      * exists p. simpl. apply elem_of_cons. by left.
      * destruct (Hasked id tm Htm) as [params Hin]. exists params.
        apply elem_of_cons. by right.
    + intros id m' params [Heq|Hin]%elem_of_cons.
      * inversion Heq. lia.
      * apply Hbelow in Hin. lia.
    + intros id m1 p1 m2 p2 [Heq1|Hin1]%elem_of_cons [Heq2|Hin2]%elem_of_cons.
      * inversion Heq1. inversion Heq2. by subst.
      * inversion Heq1. subst. apply Hbelow in Hin2. lia.
      * inversion Heq2. subst. apply Hbelow in Hin1. lia.
      * by eapply Hone.
  - unfold notify. destruct (closed c); [done|]. split; simpl.
    + intros id tm Htm. destruct (Hasked id tm Htm) as [params Hin].
      exists params. apply elem_of_cons. by right.
    + intros id m' params [[=]|Hin]%elem_of_cons. by eapply Hbelow.
    + intros id m1 p1 m2 p2 [[=]|Hin1]%elem_of_cons [[=]|Hin2]%elem_of_cons.
      by eapply Hone.
  - unfold close. destruct (closed c); cbn [fst]; [done|].
    rewrite failAllPending_eq. apply Hshrink; simpl; try done.
    intros id tm. rewrite lookup_foldl_delete. by case_decide.
  - rewrite (handleLine_answered line c HI).
    destruct (answered line c) as [[id payload]|]; [|done].
    apply Hshrink; simpl; try done.
    intros id' tm [_ Htm]%lookup_delete_Some. exact Htm.
  - by apply Hshrink.
  - destruct (timers c !! tid) as [tm|] eqn:Htm.
    + rewrite (timeout_live tid tm c HI Htm). apply Hshrink; simpl; try done.
      intros id' tm' [_ Htm']%lookup_delete_Some. exact Htm'.
    + unfold timeout. by rewrite Htm.
  - unfold exit. destruct (closed c); [done|].
    rewrite failAllPending_eq. apply Hshrink; simpl; try done.
    intros id tm. rewrite lookup_foldl_delete. by case_decide.
Qed.

Lemma Inv_written_client (es : list Event) : Inv_written (run es connect).
Proof.
  assert (forall c, Inv c -> Inv_written c -> Inv_written (run es c)) as Hrun.
  { induction es as [|e es IH]; intros c HI HW; simpl; [exact HW|].
    apply IH; [by apply Inv_event | by apply Inv_written_step]. }
  apply Hrun; [apply Inv_connect|]. split; simpl.
  - intros id tm. by rewrite lookup_empty.
  - intros id m params Hin. inversion Hin.
  - intros id m params m' params' Hin. inversion Hin.
Qed.

(** X13. When the timer of a pending call fires, the call is rejected
    with "Codex RPC request timed out: <method>", the method being the one
    of the request written with the call's id; the call leaves the table
    and every other call stays as it is; a response that comes for it
    afterwards is dropped. *)
Theorem timeout_rejects_with_method (es : list Event) (id : Z) (pc : PendingCall) :
  pending (run es connect) !! id = Some pc ->
  exists method params,
    Request id method params ∈ written (run es connect)
    /\ (forall m p, Request id m p ∈ written (run es connect) ->
         m = method /\ p = params)
    /\ outcome (timeout id (run es connect)) id
       = Some (Throw ("Codex RPC request timed out: " +:+ method))
    /\ pending (timeout id (run es connect)) = delete id (pending (run es connect))
    /\ (forall other, other <> id ->
         pending (timeout id (run es connect)) !! other
         = pending (run es connect) !! other
         /\ outcome (timeout id (run es connect)) other
            = outcome (run es connect) other)
    /\ (forall line payload n,
         JSON_parse line = Some payload -> get payload "id" = Some (JNum n) ->
         key_of n = Some id ->
         handleLine line (timeout id (run es connect))
         = timeout id (run es connect)).
Proof.
  intros Hp. pose proof (Inv_client es) as HI.
  pose proof (Inv_written_client es) as HW. set (c := run es connect) in *.
  destruct (proj2 (inv_timers c HI id)) as [tm Htm]; [eauto|].
  destruct (inv_asked c HW id tm Htm) as [params Hin].
  exists (t_method tm), params. split; [exact Hin|].
  split; [intros m p Hin'; by apply (inv_one c HW id m p _ _ Hin')|].
  rewrite (timeout_live id tm c HI Htm).
  assert (outcome c id = None) as Hnone.
  { apply outcome_in_none. intros Hs.
    apply (inv_settled c HI) in Hs as [_ Hs]. congruence. }
  unfold outcome in *. simpl. rewrite Hnone, Z.eqb_refl.
  repeat split; try done.
  - by apply lookup_delete_ne.
  - destruct (outcome_in (settles c) other); [done|].
    destruct (Z.eqb_spec id other); [congruence | done].
  - intros line payload n Hparse Hid Hkey.
    apply (handleLine_not_pending line payload n id); try done.
    simpl. apply lookup_delete_eq.
Qed.

(** X14. [close] rejects every pending call with "Codex RPC client
    closed", clears every timer and empties the table; it returns without
    throwing. *)
Theorem close_rejects_pending (es : list Event) (id : Z) (pc : PendingCall) :
  pending (run es connect) !! id = Some pc ->
  outcome (close (run es connect)).1 id = Some (Throw "Codex RPC client closed")
  /\ (close (run es connect)).2 = Ok tt
  /\ pending (close (run es connect)).1 = ∅
  /\ timers (close (run es connect)).1 = ∅
  /\ closed (close (run es connect)).1 = true
  /\ written (close (run es connect)).1 = written (run es connect).
Proof.
  intros Hp. pose proof (Inv_client es) as HI. set (c := run es connect) in *.
  assert (closed c = false) as Hclosed.
  { destruct (closed c) eqn:Hc; [|reflexivity].
    rewrite (inv_closed c HI Hc), lookup_empty in Hp. discriminate. }
  pose proof (Inv_close c HI) as HI'.
  assert (timers (close c).1 = ∅) as Htimers.
  { apply map_empty. intros id'.
    destruct (timers (close c).1 !! id') as [tm|] eqn:Htm; [|done].
    destruct (proj1 (inv_timers _ HI' id')) as [pc' Hpc']; [eauto|].
    unfold close in Hpc'. rewrite Hclosed in Hpc'. cbn [fst] in Hpc'.
    rewrite failAllPending_eq in Hpc'. simpl in Hpc'.
    by rewrite lookup_empty in Hpc'. }
  split.
  { unfold close. rewrite Hclosed. cbn [fst].
    change (outcome (failAllPending "Codex RPC client closed" Closed (closing c)) id
            = Some (Throw "Codex RPC client closed")).
    unfold outcome. rewrite failAllPending_eq. simpl.
    pose proof (failAllPending_outcome "Codex RPC client closed" Closed c id pc
                  HI Hp) as Hout.
    unfold outcome in Hout. by rewrite failAllPending_eq in Hout. }
  split; [unfold close; by rewrite Hclosed|].
  split; [unfold close; rewrite Hclosed; cbn [fst]; by rewrite failAllPending_eq|].
  split; [exact Htimers|].
  split; unfold close; rewrite Hclosed; cbn [fst]; by rewrite failAllPending_eq.
Qed.

Lemma closed_step (e : Event) (c : t) :
  Inv c -> closed c = true ->
  closed (step e c) = true /\ pending (step e c) = ∅
  /\ settles (step e c) = settles c /\ written (step e c) = written c
  /\ nextId (step e c) = nextId c /\ timers (step e c) = timers c.
Proof.
  intros HI Hclosed. pose proof (inv_closed c HI Hclosed) as Hempty.
  destruct e as [m p ms|m p| |line|chunk|tid|code sg]; simpl.
  - unfold request. by rewrite Hclosed.
  - unfold notify. by rewrite Hclosed.
  - unfold close. by rewrite Hclosed.
  - rewrite (handleLine_answered line c HI). unfold answered.
    destruct (JSON_parse line) as [payload|]; [|done].
    destruct (get payload "id") as [[| |n| | |]|]; try done.
    destruct (key_of n) as [id|]; [|done].
    rewrite decide_False; [done|]. rewrite Hempty, lookup_empty. by intros [? [=]].
  - done.
  - rewrite timeout_not_pending; [done..|]. by rewrite Hempty, lookup_empty.
  - unfold exit. by rewrite Hclosed.
Qed.

(** X15. Once [close] has been called the client is inert: a second
    [close] returns and changes nothing, [request] is rejected with
    "Codex RPC client is closed" without taking an id or writing a line,
    [notify] writes nothing, and no line, timeout or exit settles a call,
    adds one to the table or writes to the child. *)
Theorem closed_is_final (es es' : list Event) :
  close (close (run es connect)).1 = ((close (run es connect)).1, Ok tt)
  /\ (forall m p ms,
       request m p ms (close (run es connect)).1
       = ((close (run es connect)).1, Throw "Codex RPC client is closed"))
  /\ (forall m p, notify m p (close (run es connect)).1 = (close (run es connect)).1)
  /\ closed (run es' (close (run es connect)).1) = true
  /\ pending (run es' (close (run es connect)).1) = ∅
  /\ settles (run es' (close (run es connect)).1)
     = settles (close (run es connect)).1
  /\ written (run es' (close (run es connect)).1)
     = written (close (run es connect)).1
  /\ nextId (run es' (close (run es connect)).1)
     = nextId (close (run es connect)).1.
Proof.
  pose proof (Inv_close _ (Inv_client es)) as HI.
  assert (closed (close (run es connect)).1 = true) as Hclosed.
  { unfold close. destruct (closed (run es connect)) eqn:Hc; cbn [fst]; [done|].
    by rewrite failAllPending_eq. }
  set (c := (close (run es connect)).1) in *.
  split; [unfold close; by rewrite Hclosed|].
  split; [intros m p ms; unfold request; by rewrite Hclosed|].
  split; [intros m p; unfold notify; by rewrite Hclosed|].
  clearbody c. revert c HI Hclosed.
  induction es' as [|e es' IH]; intros c HI Hclosed; simpl.
  - by rewrite (inv_closed c HI Hclosed).
  - destruct (closed_step e c HI Hclosed) as (Hc & _ & Hs & Hw & Hn & _).
    rewrite <- Hs, <- Hw, <- Hn. apply IH; [by apply Inv_event | exact Hc].
Qed.

(** The chunk an event brings on the child's [stderr]. *)
Definition chunk_of (e : Event) : option string :=
  match e with OnStderr chunk => Some chunk | _ => None end.

(** X16. The diagnostic output is kept as it comes: [stderrChunks] holds
    the chunks of the [stderr] events in their order, nothing else ever
    changes it (not [close] either), and [stderr] is their concatenation,
    trimmed. *)
Theorem stderr_accumulates (es : list Event) (c : t) :
  stderrChunks (run es c) = stderrChunks c ++ omap chunk_of es
  /\ stderr (run es connect) = trim (foldr String.append "" (omap chunk_of es)).
Proof.
  assert (forall c, stderrChunks (run es c) = stderrChunks c ++ omap chunk_of es)
    as Hrun.
  { clear c. induction es as [|e es IH]; intros c; simpl.
    - by rewrite app_nil_r.
    - rewrite IH. cut (stderrChunks (step e c)
                      = stderrChunks c ++ from_option (fun x => [x]) [] (chunk_of e)).
      { intros ->. rewrite <- app_assoc. f_equal.
        by destruct e. }
      destruct e as [m p ms|m p| |line|chunk|tid|code sg]; simpl;
        rewrite ?app_nil_r.
      + unfold request. by destruct (closed c).
      + unfold notify. by destruct (closed c).
      + unfold close. destruct (closed c); cbn [fst]; [done|].
        by rewrite failAllPending_eq.
      + unfold handleLine.
        destruct (JSON_parse line) as [payload|]; [|done].
        destruct (negb (truthy (Some payload))); [done|].
        destruct (get payload "id") as [[| |n| | |]|]; try done.
        destruct (key_of n ≫= _) as [[id pc]|]; [|done].
        by destruct (get payload "error") as [err|];
          [destruct (truthy (Some err))|].
      + done.
      + unfold timeout. by destruct (timers c !! tid).
      + unfold exit. destruct (closed c); [done|]. by rewrite failAllPending_eq. }
  split; [apply Hrun|]. unfold stderr. by rewrite Hrun.
Qed.

End WithHost.


(** A host whose [JSON.parse] knows three lines of a Codex process. *)
Definition wire : Host :=
  {| JSON_parse := fun text =>
       if String.eqb text "result-1" then
         Some (JObj [("id", JNum (Fin 1)); ("result", JObj [])])
       else if String.eqb text "result-2" then
         Some (JObj [("id", JNum (Fin 2));
                     ("result", JObj [("requiresOpenaiAuth", JBool true)])])
       else if String.eqb text "error-2" then
         Some (JObj [("id", JNum (Fin 2));
                     ("error", JObj [("code", JStr "-32600");
                                     ("message", JStr "Invalid request")])])
       else None;
     base64_utf8 := fun _ => "";
     readFile := fun _ => Throw "ENOENT";
     Date_parse := fun _ => None;
     Date_parse_empty := eq_refl;
     toUTCString := fun _ => "";
     ToString := fun v =>
       match v with Some (JStr text) => text | _ => "undefined" end;
     Number_of := fun _ => NaN;
     env_RPC_CACHE_TTL_MS := None |}.

(** Two requests are pending. *)
Definition two_pending : list Event :=
  [DoRequest "initialize" (JObj []) 10000;
   DoRequest "account/read" (JObj []) 10000].

Lemma response_settles_its_call_witness :
  pending (run (H:=wire) two_pending connect) !! 2 = Some {| timeoutId := 2 |}
  /\ outcome (handleLine (H:=wire) "error-2" (run (H:=wire) two_pending connect)) 2
     = Some (Throw "Codex RPC error -32600: Invalid request")
  /\ pending (handleLine (H:=wire) "error-2" (run (H:=wire) two_pending connect))
     = delete 2 (pending (run (H:=wire) two_pending connect)).
Proof.
  split; [vm_compute; reflexivity|].
  destruct (response_settles_its_call (H:=wire) two_pending "error-2"
              (JObj [("id", JNum (Fin 2));
                     ("error", JObj [("code", JStr "-32600");
                                     ("message", JStr "Invalid request")])])
              (Fin 2) 2 {| timeoutId := 2 |})
    as (Hout & Hpending & _); [vm_compute; reflexivity ..|].
  split; [exact Hout | exact Hpending].
Defined.


Lemma timeout_rejects_with_method_witness :
  exists method params,
    Request 2 method params ∈ written (run (H:=wire) two_pending connect)
    /\ outcome (timeout 2 (run (H:=wire) two_pending connect)) 2
       = Some (Throw ("Codex RPC request timed out: " +:+ method)).
Proof.
  destruct (timeout_rejects_with_method (H:=wire) two_pending 2 {| timeoutId := 2 |})
    as (method & params & Hin & _ & Hout & _); [vm_compute; reflexivity|].
  exists method, params. split; [exact Hin | exact Hout].
Defined.

Lemma close_rejects_pending_witness :
  pending (run (H:=wire) two_pending connect) !! 1 = Some {| timeoutId := 1 |}
  /\ outcome (close (run (H:=wire) two_pending connect)).1 1
     = Some (Throw "Codex RPC client closed").
Proof.
  split; [vm_compute; reflexivity|].
  refine (proj1 (close_rejects_pending (H:=wire) two_pending 1
                   {| timeoutId := 1 |} _)).
  vm_compute. reflexivity.
Defined.

End WireFacts.

(** ** [codex.ts]: the merged account, the normalized snapshot, failures *)

Module SnapshotFacts.
Import Codex Transformer.

(** X17. [mergeAccount] gives no account exactly when the RPC answer has
    no type, email, plan type and [requiresOpenaiAuth] and the fallback
    brings neither an email nor a plan type; a [null] of the fallback is a
    value, and gives an account. *)
Theorem mergeAccount_absent_iff (result : CodexAccountResponse)
    (fallback : option CodexAuthFallback) :
  (mergeAccount result fallback = None <->
   r_account result ≫= r_type = None
   /\ r_account result ≫= r_email = None
   /\ r_account result ≫= r_planType = None
   /\ r_requiresOpenaiAuth result = None
   /\ fallback ≫= a_email = None
   /\ fallback ≫= a_planType = None)
  /\ (forall fb, fallback = Some fb -> a_email fb = Some JNull ->
      r_account result ≫= r_email = None ->
      merged email (mergeAccount result fallback) = Some JNull).
Proof.
  split.
  - destruct result as [[[[ty|] [em|] [pl|]]|] [req|]];
      destruct fallback as [[[em'|] [pl'|] claims]|];
      unfold mergeAccount; simpl;
      try destruct em'; try destruct pl'; simpl;
      (split; [intros Hnone | intros (? & ? & ? & ? & ? & ?)]);
      try discriminate; repeat split; reflexivity.
  - intros fb -> Hnull Hrpc.
    destruct (mergeAccount_fields result (Some fb)) as (He & _).
    rewrite He, Hrpc. simpl. by rewrite Hnull.
Qed.

Section WithHost.
Context `{Host}.


(** The first request of the three that fails, and its error. *)
Definition first_failure (u : Upstream) : option string :=
  match u_initialize u, u_account u, u_rateLimits u with
  | Throw e, _, _ => Some e
  | Ok _, Throw e, _ => Some e
  | Ok _, Ok _, Throw e => Some e
  | Ok _, Ok _, Ok _ => None
  end.

(** X19. With answers of the types it declares, [fetchCodexUsage] fails
    exactly when one of its three requests does, with the error of the
    first that fails, whatever the credential file holds; the message is
    that error's, followed by "Codex stderr: " and the diagnostic output
    of the process on a line of its own when there is any. *)
Theorem fetch_fails_with_first_failure (authPath : string) (u : Upstream) :
  (first_failure u = None <-> exists snap, fetchCodexUsage authPath u = Ok snap)
  /\ (forall e, first_failure u = Some e ->
      fetchCodexUsage authPath u
      = Throw (if String.eqb (u_stderr u) "" then e
               else e +:+ String (ascii_of_nat 10) "Codex stderr: " +:+ u_stderr u)
      /\ (forall message, fetchCodexUsage authPath u = Throw message ->
          startsWith e message = true
          /\ includes (u_stderr u) message = true))
  /\ (forall message, fetchCodexUsage authPath u = Throw message ->
      exists e, first_failure u = Some e).
Proof.
  assert (forall e,
    startsWith e (if String.eqb (u_stderr u) "" then e
                  else e +:+ String (ascii_of_nat 10) "Codex stderr: " +:+ u_stderr u)
    = true
    /\ includes (u_stderr u)
         (if String.eqb (u_stderr u) "" then e
          else e +:+ String (ascii_of_nat 10) "Codex stderr: " +:+ u_stderr u)
       = true) as Hmsg.
  { assert (forall s : string, s +:+ "" = s) as Hnil
      by (intros s; induction s as [|c s IH]; [done|];
          change (String c (s +:+ "") = String c s); by rewrite IH).
    intros e. destruct (String.eqb_spec (u_stderr u) "") as [Hempty|_].
    - rewrite Hempty. split; [|by destruct e].
      pose proof (ClientFacts.startsWith_app e "") as Hs.
      by rewrite Hnil in Hs.
    - split; [apply ClientFacts.startsWith_app|].
      apply ClientFacts.includes_later.
      apply (ClientFacts.includes_later _ (String (ascii_of_nat 10) "Codex stderr: ")).
      pose proof (ClientFacts.includes_here (u_stderr u) "") as Hs.
      by rewrite Hnil in Hs. }
  unfold first_failure, fetchCodexUsage, rethrow.
  destruct (u_initialize u) as [i|e1]; [destruct (u_account u) as [a|e2];
    [destruct (u_rateLimits u) as [rl|e3]|]|].
  - split; [split; eauto|]. split; [done | by intros m [=]].
  - split; [split; [done | intros [snap Hs]; by destruct (String.eqb _ "")]|].
    split; [|eauto]. intros e [= <-].
    split; [by destruct (String.eqb _ "")|].
    intros m Hm. destruct (Hmsg e3) as [Hs Hi].
    destruct (String.eqb _ ""); by injection Hm as <-.
  - split; [split; [done | intros [snap Hs]; by destruct (String.eqb _ "")]|].
    split; [|eauto]. intros e [= <-].
    split; [by destruct (String.eqb _ "")|].
    intros m Hm. destruct (Hmsg e2) as [Hs Hi].
    destruct (String.eqb _ ""); by injection Hm as <-.
  - split; [split; [done | intros [snap Hs]; by destruct (String.eqb _ "")]|].
    split; [|eauto]. intros e [= <-].
    split; [by destruct (String.eqb _ "")|].
    intros m Hm. destruct (Hmsg e1) as [Hs Hi].
    destruct (String.eqb _ ""); by injection Hm as <-.
Qed.

End WithHost.


End SnapshotFacts.

(** ** [codex.ts]: [decodeJwtPayload] *)

Module JwtFacts.
Import Codex AuthFacts.

(** The text [decodeJwtPayload] decodes as base64: the segment in the
    standard alphabet, padded. *)
Definition padded (payload : string) : string :=
  let normalized := replaceAll "_" "/" (replaceAll "-" "+" payload) in
  let n := String.length normalized in
  padEnd normalized (n + ((4 - n mod 4) mod 4))%nat "=".

Lemma includes_char (c d : ascii) (r : string) :
  includes (String c "") (String d r)
  = Ascii.eqb c d || includes (String c "") r.
Proof. simpl. by rewrite andb_true_r. Qed.

Lemma includes_char_app (c : ascii) (a b : string) :
  includes (String c "") (a +:+ b)
  = includes (String c "") a || includes (String c "") b.
Proof.
  induction a as [|d a IH]; [reflexivity|].
  change (String d a +:+ b) with (String d (a +:+ b)).
  rewrite !includes_char, IH. by rewrite orb_assoc.
Qed.

Lemma includes_char_repeat (c d : ascii) (k : nat) :
  c <> d -> includes (String c "") (repeat_char d k) = false.
Proof.
  intros Hne. induction k as [|k IH]; [reflexivity|].
  change (repeat_char d (S k)) with (String d (repeat_char d k)).
  rewrite includes_char, IH. by destruct (Ascii.eqb_spec c d).
Qed.

(** Replacing a character by another leaves none of it, brings in no
    third character, and keeps the length. *)
Lemma replaceAll_char (c x d : ascii) (s : string) :
  c <> d -> (x = c \/ includes (String c "") s = false) ->
  includes (String c "") (replaceAll x (String d "") s) = false.
Proof.
  intros Hne. induction s as [|a s IH]; intros Hs; [reflexivity|].
  simpl replaceAll. destruct (Ascii.eqb_spec x a) as [->|Hxa].
  - change (String d "" +:+ ?r) with (String d r).
    rewrite includes_char.
    destruct (Ascii.eqb_spec c d) as [|_]; [done|]. simpl orb. apply IH.
    destruct Hs as [->|Hs]; [by left|]. right.
    rewrite includes_char in Hs. by apply orb_false_iff in Hs as [_ Hs].
  - rewrite includes_char. destruct Hs as [->|Hs].
    + destruct (Ascii.eqb_spec c a) as [|_]; [done|]. apply IH. by left.
    + rewrite includes_char in Hs. apply orb_false_iff in Hs as [-> Hs].
      apply IH. by right.
Qed.

Lemma replaceAll_length (x d : ascii) (s : string) :
  String.length (replaceAll x (String d "") s) = String.length s.
Proof.
  induction s as [|a s IH]; [reflexivity|].
  simpl replaceAll. destruct (Ascii.eqb x a).
  - change (String d "" +:+ ?r) with (String d r). simpl. by rewrite IH.
  - simpl. by rewrite IH.
Qed.

Lemma repeat_char_length (c : ascii) (k : nat) : String.length (repeat_char c k) = k.
Proof. induction k as [|k IH]; simpl; [reflexivity | by rewrite IH]. Qed.

Lemma pad_below_four (n : nat) :
  ((4 - n mod 4) mod 4 < 4 /\ (n + (4 - n mod 4) mod 4) mod 4 = 0
   /\ (n mod 4 = 0 -> (4 - n mod 4) mod 4 = 0))%nat.
Proof.
  pose proof (Nat.mod_upper_bound n 4 ltac:(lia)) as Hr.
  pose proof (Nat.div_mod_eq n 4) as Hn.
  split; [apply Nat.mod_upper_bound; lia|].
  split; [|by intros ->].
  destruct (n mod 4)%nat as [|[|[|[|r]]]] eqn:Hmod; try lia.
  - change ((4 - 0) mod 4)%nat with 0%nat. by rewrite Nat.add_0_r.
  - change ((4 - 1) mod 4)%nat with 3%nat.
    symmetry. apply (Nat.mod_unique _ 4 (n / 4 + 1) 0); lia.
  - change ((4 - 2) mod 4)%nat with 2%nat.
    symmetry. apply (Nat.mod_unique _ 4 (n / 4 + 1) 0); lia.
  - change ((4 - 3) mod 4)%nat with 1%nat.
    symmetry. apply (Nat.mod_unique _ 4 (n / 4 + 1) 0); lia.
Qed.

(** X20. What [decodeJwtPayload] gives the base64 decoder: the segment
    with every [-] turned into [+] and every [_] into [/], followed by
    fewer than four [=], as many as bring the length to a multiple of
    four (none when it is one already); neither [-] nor [_] is left in
    it. *)
Theorem base64_input_padded `{Host} (payload : string) :
  (forall token, middle token = Some payload ->
     decodeJwtPayload token = JSON_parse (base64_utf8 (padded payload)))
  /\ (String.length (padded payload) mod 4 = 0)%nat
  /\ (exists k, (k < 4)%nat
      /\ padded payload
         = replaceAll "_" "/" (replaceAll "-" "+" payload) +:+ repeat_char "=" k
      /\ String.length (padded payload) = (String.length payload + k)%nat
      /\ ((String.length payload mod 4 = 0)%nat -> k = 0%nat))
  /\ includes "-" (padded payload) = false
  /\ includes "_" (padded payload) = false.
Proof.
  split.
  { intros token Hmid. by rewrite decodeJwtPayload_middle, Hmid. }
  unfold padded, padEnd.
  set (normalized := replaceAll "_" "/" (replaceAll "-" "+" payload)).
  assert (String.length normalized = String.length payload) as Hlen
    by (unfold normalized; by rewrite !replaceAll_length).
  destruct (pad_below_four (String.length normalized)) as (Hk & Hmod & Hzero).
  replace (String.length normalized + (4 - String.length normalized mod 4) mod 4
           - String.length normalized)%nat
    with ((4 - String.length normalized mod 4) mod 4)%nat by lia.
  assert (forall k, String.length (normalized +:+ repeat_char "=" k)
                    = (String.length normalized + k)%nat) as Hpad.
  { intros k. by rewrite ServedFacts.length_append, repeat_char_length. }
  split; [by rewrite Hpad|].
  split.
  { exists ((4 - String.length normalized mod 4) mod 4)%nat.
    split; [exact Hk|]. split; [reflexivity|].
    split; [by rewrite Hpad, Hlen|]. rewrite <- Hlen. exact Hzero. }
  rewrite !includes_char_app, !includes_char_repeat by discriminate.
  rewrite !orb_false_r. unfold normalized. split.
  - apply replaceAll_char; [discriminate|]. right.
    apply replaceAll_char; [discriminate | by left].
  - apply replaceAll_char; [discriminate | by left].
Qed.

Lemma split_none (s : string) :
  includes "." s = false -> split "." s = [s].
Proof.
  induction s as [|d s IH]; [reflexivity|].
  rewrite includes_char. intros [Hd Hs]%orb_false_iff.
  cbn [split]. rewrite Hd, (IH Hs). reflexivity.
Qed.

Lemma split_first (h r : string) :
  includes "." h = false ->
  split "." (h +:+ String "." r) = h :: split "." r.
Proof.
  induction h as [|d h IH]; [reflexivity|].
  rewrite includes_char. intros [Hd Hs]%orb_false_iff.
  change (String d h +:+ ?x) with (String d (h +:+ x)).
  cbn [split]. rewrite Hd, (IH Hs). reflexivity.
Qed.

(** X21. Of a token, [decodeJwtPayload] decodes what stands between the
    first dot and the second, or the end: whatever follows the second dot
    is ignored, however many segments that is; a token without a dot, or
    with nothing between its first two dots, gives no claims. *)
Theorem second_segment_decoded `{Host} (header payload rest : string) :
  includes "." header = false -> includes "." payload = false -> payload <> "" ->
  decodeJwtPayload (header +:+ "." +:+ payload)
  = JSON_parse (base64_utf8 (padded payload))
  /\ decodeJwtPayload (header +:+ "." +:+ payload +:+ "." +:+ rest)
     = JSON_parse (base64_utf8 (padded payload))
  /\ decodeJwtPayload header = None
  /\ decodeJwtPayload (header +:+ ".") = None
  /\ decodeJwtPayload (header +:+ "." +:+ "." +:+ rest) = None.
Proof.
  intros Hh Hp Hne.
  assert (String.eqb payload "" = false) as Hnonempty
    by (by destruct (String.eqb_spec payload "")).
  assert (forall x : string, "." +:+ x = String "." x) as Hdot by reflexivity.
  rewrite !decodeJwtPayload_middle. unfold middle.
  rewrite !Hdot, !split_first by done. rewrite (split_none header Hh).
  rewrite (split_none payload Hp), Hnonempty. by repeat split.
Qed.

Lemma second_segment_decoded_witness :
  decodeJwtPayload (H:=Sample.host) "aGVhZGVy.e30.c2ln"
  = @JSON_parse Sample.host (@base64_utf8 Sample.host "e30=").
Proof.
  exact (proj1 (proj2 (second_segment_decoded (H:=Sample.host)
                         "aGVhZGVy" "e30" "c2ln" eq_refl eq_refl
                         ltac:(discriminate)))).
Defined.

End JwtFacts.

(** ** [codex.ts]: [fetchCodexUsage] over its client

    The function runs from one [await] to the next.  What it waits for is
    its stage; a line, diagnostic output, a timer or the exit of the child
    goes to the client first, and the function goes on, in the same turn,
    when the promise it waits for was settled.  The reading of the
    credential file settles in a turn of its own.  Spawning the child is
    taken to succeed. *)

Module FetchCodexUsage.

Record CodexFetchOptions := {
  binaryPath : option string;
  timeoutMs : option Z;
  authPath : option string;
  clientInfo : option json;
}.

Definition DEFAULT_TIMEOUT_MS : Z := 10000.

Definition DEFAULT_CLIENT_INFO : json :=
  JObj [("name", JStr "agent-usage-stats"); ("version", JStr "0.0.0")].

(** What the [return] statement builds the snapshot from. *)
Record Returned := {
  accountResult : value;
  rateLimitsResult : value;
  authFallback : option Codex.CodexAuthFallback;
  fetchedAt : Z;
}.

(** What the function waits for: the promise of the request [id], the
    reading of the credential file; or it has settled. *)
Inductive Stage :=
| Initialize (id : Z)
| AccountRead (id : Z)
| RateLimitsRead (id : Z) (accountResult : value)
| ReadAuth (accountResult rateLimitsResult : value)
| Settled (r : Res Returned).

Record t := {
  client : CodexRpcClient.t;
  stage : Stage;
}.

Inductive Event :=
| Line (line : string)
| Stderr (chunk : string)
| Fired (tid : Z)
| Exit (code : option Z) (signal : option string)
| AuthRead (now : Z).

Section WithHost.
Context `{Host}.

(** The call's options, and [join(homedir(), ".codex", "auth.json")]. *)
Variable options : CodexFetchOptions.
Variable home_auth : string.

Definition timeoutMs_of : Z := default DEFAULT_TIMEOUT_MS (timeoutMs options).
Definition clientInfo_of : json := default DEFAULT_CLIENT_INFO (clientInfo options).
Definition authPath_of : string := default home_auth (authPath options).

(** The message of the error the [catch] block throws. *)
Definition rethrown (message stderr : string) : string :=
  if String.eqb stderr "" then message
  else message +:+ String (ascii_of_nat 10) "Codex stderr: " +:+ stderr.

(** The [finally] block, after which the function's promise settles. *)
Definition finally_ (r : Res Returned) (c : CodexRpcClient.t) : t :=
  {| client := (CodexRpcClient.close c).1; stage := Settled r |}.

(** The [catch] block. *)
Definition catch (message : string) (c : CodexRpcClient.t) : t :=
  finally_ (Throw (rethrown message (CodexRpcClient.stderr c))) c.

(** [await client.request(...)]: the function waits for the promise of
    the request; a request that throws goes to the [catch] block. *)
Definition await (waiting : Z -> Stage) (cr : CodexRpcClient.t * Res Z) : t :=
  match cr.2 with
  | Ok id => {| client := cr.1; stage := waiting id |}
  | Throw message => catch message cr.1
  end.

(** The call, up to its first [await] of a response. *)
Definition start : t :=
  await Initialize
    (CodexRpcClient.request "initialize" (JObj [("clientInfo", clientInfo_of)])
       timeoutMs_of CodexRpcClient.connect).

(** After the credential file was read, or not: [mergeAccount] and
    [normalizeRateLimits] read a property of their argument, which throws
    a TypeError on [undefined] and [null]; then the [return]. *)
Definition return_ (accountResult rateLimitsResult : value) (now : Z)
    (c : CodexRpcClient.t) : t :=
  let authFallback := catch_undefined (Codex.readCodexAuth authPath_of) in
  match member accountResult "account" with
  | Throw message => catch message c
  | Ok _ =>
      match member rateLimitsResult "rateLimits" with
      | Throw message => catch message c
      | Ok _ =>
          finally_ (Ok {| accountResult := accountResult;
                          rateLimitsResult := rateLimitsResult;
                          authFallback := authFallback;
                          fetchedAt := now |}) c
      end
  end.

(** The function goes on when the promise it waits for was settled. *)
Definition resume (s : t) : t :=
  let c := client s in
  match stage s with
  | Initialize id =>
      match CodexRpcClient.outcome c id with
      | None => s
      | Some (Throw message) => catch message c
      | Some (Ok _) =>
          await AccountRead
            (CodexRpcClient.request "account/read" (JObj []) timeoutMs_of
               (CodexRpcClient.notify "initialized" (JObj []) c))
      end
  | AccountRead id =>
      match CodexRpcClient.outcome c id with
      | None => s
      | Some (Throw message) => catch message c
      | Some (Ok accountResult) =>
          await (fun id => RateLimitsRead id accountResult)
            (CodexRpcClient.request "account/rateLimits/read" (JObj [])
               timeoutMs_of c)
      end
  | RateLimitsRead id accountResult =>
      match CodexRpcClient.outcome c id with
      | None => s
      | Some (Throw message) => catch message c
      | Some (Ok rateLimitsResult) =>
          {| client := c; stage := ReadAuth accountResult rateLimitsResult |}
      end
  | ReadAuth _ _ | Settled _ => s
  end.

(** What an event is to the client. *)
Definition to_client (e : Event) : option CodexRpcClient.Event :=
  match e with
  | Line line => Some (CodexRpcClient.OnLine line)
  | Stderr chunk => Some (CodexRpcClient.OnStderr chunk)
  | Fired tid => Some (CodexRpcClient.OnTimeout tid)
  | Exit code signal => Some (CodexRpcClient.OnExit code signal)
  | AuthRead _ => None
  end.

Definition step (e : Event) (s : t) : t :=
  match to_client e with
  | Some e' =>
      resume {| client := CodexRpcClient.step e' (client s); stage := stage s |}
  | None =>
      match e, stage s with
      | AuthRead now, ReadAuth accountResult rateLimitsResult =>
          return_ accountResult rateLimitsResult now (client s)
      | _, _ => s
      end
  end.

(** The call after the events [es], oldest first. *)
Definition run (es : list Event) (s : t) : t :=
  foldl (fun s e => step e s) s es.

(** The request the function waits for. *)
Definition awaited (st : Stage) : option (Z * string) :=
  match st with
  | Initialize id => Some (id, "initialize")
  | AccountRead id => Some (id, "account/read")
  | RateLimitsRead id _ => Some (id, "account/rateLimits/read")
  | ReadAuth _ _ | Settled _ => None
  end.

(** Everything the function ever writes to the child, in this order. *)
Definition protocol : list CodexRpcClient.Written :=
  [ CodexRpcClient.Request 1 "initialize" (JObj [("clientInfo", clientInfo_of)]);
    CodexRpcClient.Notification "initialized" (JObj []);
    CodexRpcClient.Request 2 "account/read" (JObj []);
    CodexRpcClient.Request 3 "account/rateLimits/read" (JObj []) ].

End WithHost.

End FetchCodexUsage.

(** ** [fetchCodexUsage] over its client: what every run satisfies *)

Module FetchFacts.
Import CodexRpcClient ClientFacts FetchCodexUsage.

Section WithHost.
Context `{Host}.
Variable options : CodexFetchOptions.
Variable home_auth : string.

(** The call of [fetchCodexUsage] after the events [es], oldest first. *)
Definition call (es : list FetchCodexUsage.Event) : FetchCodexUsage.t :=
  FetchCodexUsage.run options home_auth es (start options).

(** The request [id] was answered without error. *)
Definition ok (c : CodexRpcClient.t) (id : Z) : Prop :=
  exists v, outcome c id = Some (Ok v).

(** What was written so far: the first request; or, the first request
    answered, the notification and the second; or, the second answered
    too, all of the protocol. *)
Definition sent (c : CodexRpcClient.t) : Prop :=
  (nextId c = 2 /\ written c = reverse (take 1 (protocol options)))
  \/ (nextId c = 3 /\ written c = reverse (take 3 (protocol options)) /\ ok c 1)
  \/ (nextId c = 4 /\ written c = reverse (protocol options) /\ ok c 1 /\ ok c 2).

(** Why a call failed with [message]: the last request written was
    rejected, or all three were answered and an answer was [undefined] or
    [null]. *)
Definition cause (c : CodexRpcClient.t) (message : string) : Prop :=
  outcome c (nextId c - 1) = Some (Throw message)
  \/ (nextId c = 4 /\ exists a rl,
        outcome c 2 = Some (Ok a) /\ outcome c 3 = Some (Ok rl)
        /\ (member a "account" = Throw message
            \/ (exists v, member a "account" = Ok v)
               /\ member rl "rateLimits" = Throw message)).

Definition result (c : CodexRpcClient.t) (r : Res Returned) : Prop :=
  match r with
  | Ok ret =>
      nextId c = 4
      /\ outcome c 2 = Some (Ok (accountResult ret))
      /\ outcome c 3 = Some (Ok (rateLimitsResult ret))
      /\ (exists v, member (accountResult ret) "account" = Ok v)
      /\ (exists v, member (rateLimitsResult ret) "rateLimits" = Ok v)
      /\ authFallback ret
         = catch_undefined (Codex.readCodexAuth (authPath_of options home_auth))
  | Throw message =>
      exists e seen,
        seen `prefix_of` stderrChunks c
        /\ message = rethrown e (trim (foldr String.append "" seen))
        /\ cause c e
  end.

(** [waiting]: the function has gone on if it could, so that the promise
    it waits for is not settled. *)
Definition at_stage (waiting : bool) (s : FetchCodexUsage.t) : Prop :=
  let c := client s in
  match stage s with
  | Initialize id =>
      id = 1 /\ nextId c = 2 /\ closed c = false
      /\ (waiting = true -> outcome c 1 = None)
  | AccountRead id =>
      id = 2 /\ nextId c = 3 /\ closed c = false
      /\ (waiting = true -> outcome c 2 = None)
  | RateLimitsRead id a =>
      id = 3 /\ nextId c = 4 /\ closed c = false
      /\ outcome c 2 = Some (Ok a)
      /\ (waiting = true -> outcome c 3 = None)
  | ReadAuth a rl =>
      nextId c = 4 /\ closed c = false
      /\ outcome c 2 = Some (Ok a) /\ outcome c 3 = Some (Ok rl)
  | Settled r =>
      closed c = true /\ killed c = true /\ timers c = ∅ /\ result c r
  end.

Record Inv_fetch (waiting : bool) (s : FetchCodexUsage.t) : Prop := {
  inv_client : Inv (client s);
  inv_sent : sent (client s);
  inv_timer : forall id tm, timers (client s) !! id = Some tm ->
    exists m, awaited (stage s) = Some (id, m)
              /\ tm = {| t_id := id; t_method := m;
                         t_timeoutMs := timeoutMs_of options |};
  inv_settles : forall st, st ∈ settles (client s) -> s_trigger st <> Closed;
  inv_stage : at_stage waiting s;
}.

Lemma outcome_settled (c : CodexRpcClient.t) (id : Z) :
  id ∈ settled_ids c <-> is_Some (outcome c id).
Proof.
  unfold settled_ids, outcome. induction (settles c) as [|st log IH]; simpl.
  - split; [intros Hin; inversion Hin | intros [? [=]]].
  - rewrite elem_of_cons, IH. destruct (outcome_in log id) as [o|].
    + split; eauto.
    + destruct (Z.eqb_spec (s_id st) id) as [Heq|Hne].
      * split; eauto.
      * split; [intros [?|[? [=]]]; congruence | intros [? [=]]].
Qed.

(** With every request answered, no call is pending and no timer runs. *)
Lemma idle (c : CodexRpcClient.t) :
  Inv c -> (forall id, 1 <= id < nextId c -> is_Some (outcome c id)) ->
  pending c = ∅ /\ timers c = ∅.
Proof.
  intros HI Hall.
  assert (pending c = ∅) as Hp.
  { apply map_empty. intros id. destruct (pending c !! id) as [pc|] eqn:Hp; [|done].
    destruct (inv_pending c HI id pc Hp) as [Hb _].
    apply Hall, outcome_settled, (inv_settled c HI) in Hb as [_ Hnone]. congruence. }
  split; [exact Hp|]. apply map_empty. intros id.
  destruct (timers c !! id) as [tm|] eqn:Htm; [|done].
  destruct (proj1 (inv_timers c HI id)) as [pc Hpc]; [eauto|].
  rewrite Hp, lookup_empty in Hpc. discriminate.
Qed.

(** With every request but [k] answered, the only call pending is [k]. *)
Lemma busy (c : CodexRpcClient.t) (k : Z) :
  Inv c -> 1 <= k < nextId c -> outcome c k = None ->
  (forall id, 1 <= id < nextId c -> id <> k -> is_Some (outcome c id)) ->
  pending c = {[ k := {| timeoutId := k |} ]}.
Proof.
  intros HI Hk Hnone Hall. apply map_eq. intros id.
  destruct (decide (id = k)) as [->|Hne].
  - rewrite lookup_singleton_eq.
    destruct (inv_accounted c HI k Hk) as [[pc Hp]|Hs].
    + rewrite Hp. destruct (inv_pending c HI k pc Hp) as [_ Hid].
      destruct pc as [tid]. simpl in Hid. by subst.
    + apply outcome_settled in Hs as [o Ho]. congruence.
  - rewrite lookup_singleton_ne by done.
    destruct (pending c !! id) as [pc|] eqn:Hp; [|done].
    destruct (inv_pending c HI id pc Hp) as [Hb _].
    apply Hall, outcome_settled, (inv_settled c HI) in Hb as [_ Hnone']; congruence.
Qed.

(** What an event of the child leaves as it is. *)
Lemma child_event (e : CodexRpcClient.Event) (c : CodexRpcClient.t) :
  Inv c ->
  match e with DoRequest _ _ _ | DoNotify _ _ | DoClose => False | _ => True end ->
  nextId (CodexRpcClient.step e c) = nextId c
  /\ closed (CodexRpcClient.step e c) = closed c
  /\ killed (CodexRpcClient.step e c) = killed c
  /\ written (CodexRpcClient.step e c) = written c
  /\ (forall id tm, timers (CodexRpcClient.step e c) !! id = Some tm ->
        timers c !! id = Some tm)
  /\ stderrChunks c `prefix_of` stderrChunks (CodexRpcClient.step e c)
  /\ (forall st, st ∈ settles (CodexRpcClient.step e c) ->
        st ∈ settles c \/ s_trigger st <> Closed).
Proof.
  intros HI He. destruct e as [| | |line|chunk|tid|code sg]; try done; simpl.
  - rewrite (WireFacts.handleLine_answered line c HI).
    destruct (WireFacts.answered line c) as [[id payload]|]; simpl.
    + repeat split; try done.
      * intros id' tm [_ Htm]%lookup_delete_Some. exact Htm.
      * intros st [->|Hin]%elem_of_cons; [by right | by left].
    + repeat split; try done. by left.
  - repeat split; try done; [by apply prefix_app_r | by left].
  - destruct (timers c !! tid) as [tm|] eqn:Htm.
    + rewrite (timeout_live tid tm c HI Htm). simpl. repeat split; try done.
      * intros id' tm' [_ Htm']%lookup_delete_Some. exact Htm'.
      * intros st [->|Hin]%elem_of_cons; [by right | by left].
    + unfold timeout. rewrite Htm. repeat split; try done. by left.
  - unfold exit. destruct (closed c) eqn:Hclosed.
    + repeat split; try done. by left.
    + rewrite failAllPending_eq. simpl. repeat split; try done.
      * intros id tm. rewrite lookup_foldl_delete. by case_decide.
      * intros st [Hin|Hin]%elem_of_app; [right | by left].
        by apply elem_of_reverse, list_elem_of_fmap in Hin as (entry & -> & _).
Qed.

Lemma outcome_kept (e : CodexRpcClient.Event) (c : CodexRpcClient.t) (id : Z)
    (o : Res value) :
  outcome c id = Some o -> outcome (CodexRpcClient.step e c) id = Some o.
Proof.
  intros Ho. destruct (WireFacts.settles_grow e c) as [new Hnew].
  unfold outcome in *. by rewrite Hnew, outcome_in_app, Ho.
Qed.

Lemma outcome_fresh (c : CodexRpcClient.t) (id : Z) :
  Inv c -> nextId c <= id -> outcome c id = None.
Proof.
  intros HI Hid. destruct (outcome c id) as [o|] eqn:Ho; [|reflexivity].
  assert (id ∈ settled_ids c) as Hin by (apply outcome_settled; eauto).
  apply (inv_settled c HI) in Hin. lia.
Qed.

Lemma sent_first (c : CodexRpcClient.t) :
  sent c -> nextId c = 2 -> written c = reverse (take 1 (protocol options)).
Proof. intros [[_ Hw]|[[? _]|[? _]]] Hn; [exact Hw | lia | lia]. Qed.

Lemma sent_second (c : CodexRpcClient.t) :
  sent c -> nextId c = 3 ->
  written c = reverse (take 3 (protocol options)) /\ ok c 1.
Proof. intros [[? _]|[[_ Hw]|[? _]]] Hn; [lia | exact Hw | lia]. Qed.

Lemma sent_third (c : CodexRpcClient.t) :
  sent c -> nextId c = 4 ->
  written c = reverse (protocol options) /\ ok c 1 /\ ok c 2.
Proof. intros [[? _]|[[? _]|[_ Hw]]] Hn; [lia | lia | exact Hw]. Qed.

(** Every request written has its outcome. *)
Definition answered_all (c : CodexRpcClient.t) : Prop :=
  forall id, 1 <= id < nextId c -> is_Some (outcome c id).

Lemma answered_upto (c : CodexRpcClient.t) :
  sent c -> is_Some (outcome c (nextId c - 1)) -> answered_all c.
Proof.
  intros Hsent Hlast id Hid.
  destruct (decide (id = nextId c - 1)) as [->|Hne]; [exact Hlast|].
  destruct Hsent as [[Hn _]|[(Hn & _ & [v Hv])|(Hn & _ & [v Hv] & [a Ha])]].
  - lia.
  - assert (id = 1) as -> by lia. eauto.
  - assert (id = 1 \/ id = 2) as [-> | ->] by lia; eauto.
Qed.

(** The [finally] block finds no call pending: [close] rejects nothing. *)
Lemma Inv_fetch_finally (c : CodexRpcClient.t) (r : Res Returned) :
  Inv c -> sent c -> closed c = false -> answered_all c ->
  (forall st, st ∈ settles c -> s_trigger st <> Closed) ->
  result c r ->
  finally_ r c = {| client := closing c; stage := Settled r |}
  /\ Inv_fetch true (finally_ r c).
Proof.
  intros HI Hsent Hclosed Hall Hsettles Hr.
  destruct (idle c HI Hall) as [Hp Ht].
  assert (finally_ r c = {| client := closing c; stage := Settled r |}) as Heq.
  { unfold finally_. by rewrite (close_idle c Hclosed Hp). }
  split; [exact Heq|]. rewrite Heq.
  pose proof (Inv_close c HI) as HI'. rewrite (close_idle c Hclosed Hp) in HI'.
  split; simpl.
  - exact HI'.
  - exact Hsent.
  - intros id tm. by rewrite Ht, lookup_empty.
  - exact Hsettles.
  - unfold at_stage. simpl. by repeat split.
Qed.

Lemma Inv_catch (c : CodexRpcClient.t) (message : string) :
  Inv c -> sent c -> closed c = false -> answered_all c ->
  (forall st, st ∈ settles c -> s_trigger st <> Closed) ->
  cause c message ->
  Inv_fetch true (catch message c).
Proof.
  intros HI Hsent Hclosed Hall Hsettles Hcause.
  apply Inv_fetch_finally; try done.
  exists message, (stderrChunks c). by repeat split.
Qed.

(** An event of the child reaches the client. *)
Lemma Inv_child (e : CodexRpcClient.Event) (s : FetchCodexUsage.t) :
  match e with DoRequest _ _ _ | DoNotify _ _ | DoClose => False | _ => True end ->
  Inv_fetch true s ->
  Inv_fetch false {| client := CodexRpcClient.step e (client s); stage := stage s |}.
Proof.
  intros He [HI Hsent Htimer Hsettles Hstage].
  destruct (child_event e (client s) HI He)
    as (Hn & Hc & Hk & Hw & Ht & Hchunks & Hnew).
  assert (forall id, ok (client s) id -> ok (CodexRpcClient.step e (client s)) id)
    as Hok by (intros id [v Hv]; exists v; by apply outcome_kept).
  split; simpl.
  - by apply Inv_event.
  - unfold sent. rewrite Hn, Hw.
    destruct Hsent as [?|[(? & ? & ?)|(? & ? & ? & ?)]]; auto 10.
  - intros id tm Htm. apply Htimer, Ht, Htm.
  - intros st Hin. destruct (Hnew st Hin) as [Hold|Hne]; [by apply Hsettles | exact Hne].
  - unfold at_stage in *. simpl. rewrite Hn, Hc, Hk.
    destruct (stage s) as [id|id|id a|a rl|r].
    + destruct Hstage as (? & ? & ? & _). by repeat split.
    + destruct Hstage as (? & ? & ? & _). by repeat split.
    + destruct Hstage as (? & ? & ? & Ha & _).
      repeat split; try done. by apply outcome_kept.
    + destruct Hstage as (? & ? & Ha & Hrl).
      repeat split; try done; by apply outcome_kept.
    + destruct Hstage as (? & ? & Hempty & Hr).
      repeat split; try done.
      * apply map_empty. intros id.
        destruct (timers (CodexRpcClient.step e (client s)) !! id) as [tm|] eqn:Htm;
          [|done].
        apply Ht in Htm. by rewrite Hempty, lookup_empty in Htm.
      * destruct r as [ret|message]; simpl in *.
        -- rewrite Hn. destruct Hr as (? & ? & ? & ? & ? & ?).
           repeat split; try done; by apply outcome_kept.
        -- destruct Hr as (e0 & seen & Hseen & Hm & Hcause).
           exists e0, seen. split; [by etransitivity|]. split; [exact Hm|].
           unfold cause in *. rewrite Hn.
           destruct Hcause as [Hlast|(? & a & rl & ? & ? & ?)].
           ++ left. by apply outcome_kept.
           ++ right. split; [done|]. exists a, rl.
              repeat split; try done; by apply outcome_kept.
Qed.

(** A request of a client that is not closed, every earlier request
    answered. *)
Lemma Inv_await (c : CodexRpcClient.t) (method : string) (params : json)
    (waiting : Z -> Stage) :
  Inv c -> closed c = false -> answered_all c ->
  (forall st, st ∈ settles c -> s_trigger st <> Closed) ->
  awaited (waiting (nextId c)) = Some (nextId c, method) ->
  sent (request method params (timeoutMs_of options) c).1 ->
  at_stage true {| client := (request method params (timeoutMs_of options) c).1;
                   stage := waiting (nextId c) |} ->
  Inv_fetch true (await waiting (request method params (timeoutMs_of options) c)).
Proof.
  intros HI Hclosed Hall Hsettles Hwait Hsent Hstage.
  pose proof (Inv_request method params (timeoutMs_of options) c HI) as HI'.
  destruct (idle c HI Hall) as [_ Ht].
  revert HI' Hsent Hstage. unfold await, request. rewrite Hclosed. simpl.
  intros HI' Hsent Hstage. split; simpl; try done.
  intros id tm. rewrite Ht, lookup_insert_Some, lookup_empty.
  intros [[<- <-]|[_ [=]]]. eauto.
Qed.

Lemma Inv_fetch_start : Inv_fetch true (start options).
Proof.
  unfold start.
  apply (Inv_await connect "initialize" (JObj [("clientInfo", clientInfo_of options)])
           Initialize); try done.
  - apply Inv_connect.
  - intros id. simpl. lia.
  - intros st Hin. inversion Hin.
  - left. by split.
Qed.

Lemma Inv_resume (s : FetchCodexUsage.t) :
  Inv_fetch false s -> Inv_fetch true (resume options s).
Proof.
  intros [HI Hsent Htimer Hsettles Hstage].
  destruct s as [c st]. unfold at_stage in Hstage. simpl in *.
  unfold resume. simpl.
  destruct st as [id|id|id a|a rl|r].
  - destruct Hstage as (-> & Hn & Hclosed & _).
    destruct (outcome c 1) as [[v|message]|] eqn:Ho.
    + assert (answered_all c) as Hall
        by (apply (answered_upto c Hsent); rewrite Hn; simpl; eauto).
      pose proof (sent_first c Hsent Hn) as Hw.
      assert (notify "initialized" (JObj []) c
              = write (Notification "initialized" (JObj [])) c) as Hnotify
        by (unfold notify; by rewrite Hclosed).
      rewrite Hnotify.
      pose proof (Inv_event (DoNotify "initialized" (JObj [])) c HI) as HI'.
      simpl in HI'. rewrite Hnotify in HI'.
      apply (Inv_await (write (Notification "initialized" (JObj [])) c)
                       "account/read" (JObj []) AccountRead); try done.
      * unfold request. simpl. rewrite Hclosed. simpl. right. left.
        rewrite Hn, Hw. repeat split. by exists v.
      * unfold request, at_stage. simpl. rewrite Hclosed. simpl.
        rewrite Hn. repeat split. intros _.
        change (outcome c 2 = None). apply (outcome_fresh c 2 HI). lia.
    + apply Inv_catch; try done.
      * apply (answered_upto c Hsent). rewrite Hn. simpl. eauto.
      * left. by rewrite Hn.
    + split; simpl; try done; unfold at_stage; simpl; by repeat split.
  - destruct Hstage as (-> & Hn & Hclosed & _).
    destruct (sent_second c Hsent Hn) as [Hw Hfirst].
    destruct (outcome c 2) as [[v|message]|] eqn:Ho.
    + assert (answered_all c) as Hall
        by (apply (answered_upto c Hsent); rewrite Hn; simpl; eauto).
      apply (Inv_await c "account/rateLimits/read" (JObj [])
               (fun id => RateLimitsRead id v)); try done.
      * unfold request. rewrite Hclosed. simpl. right. right.
        rewrite Hn, Hw. repeat split; [exact Hfirst | by exists v].
      * unfold request, at_stage. rewrite Hclosed. simpl.
        rewrite Hn. repeat split; [exact Ho|]. intros _.
        change (outcome c 3 = None). apply (outcome_fresh c 3 HI). lia.
    + apply Inv_catch; try done.
      * apply (answered_upto c Hsent). rewrite Hn. simpl. eauto.
      * left. by rewrite Hn.
    + split; simpl; try done; unfold at_stage; simpl; by repeat split.
  - destruct Hstage as (-> & Hn & Hclosed & Ha & _).
    destruct (outcome c 3) as [[v|message]|] eqn:Ho.
    + split; simpl; try done.
      * intros id tm Htm.
        assert (answered_all c) as Hall
          by (apply (answered_upto c Hsent); rewrite Hn; simpl; eauto).
        destruct (idle c HI Hall) as [_ Ht]. by rewrite Ht, lookup_empty in Htm.
    + apply Inv_catch; try done.
      * apply (answered_upto c Hsent). rewrite Hn. simpl. eauto.
      * left. by rewrite Hn.
    + split; simpl; try done; unfold at_stage; simpl; by repeat split.
  - split; simpl; try done.
  - split; simpl; try done.
Qed.

Lemma Inv_return (c : CodexRpcClient.t) (a rl : value) (now : Z) :
  Inv_fetch true {| client := c; stage := ReadAuth a rl |} ->
  Inv_fetch true (return_ options home_auth a rl now c).
Proof.
  intros [HI Hsent Htimer Hsettles Hstage].
  unfold at_stage in Hstage. simpl in *.
  destruct Hstage as (Hn & Hclosed & Ha & Hrl).
  assert (answered_all c) as Hall
    by (apply (answered_upto c Hsent); rewrite Hn; simpl; eauto).
  unfold return_.
  destruct (member a "account") as [v|message] eqn:Hma.
  - destruct (member rl "rateLimits") as [v'|message] eqn:Hmrl.
    + apply Inv_fetch_finally; try done. simpl. repeat split; eauto.
    + apply Inv_catch; try done. right. split; [exact Hn|].
      exists a, rl. repeat split; try done. right. eauto.
  - apply Inv_catch; try done. right. split; [exact Hn|].
    exists a, rl. repeat split; try done. by left.
Qed.

Lemma to_client_child (e : FetchCodexUsage.Event) (e' : CodexRpcClient.Event) :
  to_client e = Some e' ->
  match e' with DoRequest _ _ _ | DoNotify _ _ | DoClose => False | _ => True end.
Proof. destruct e; intros [= <-]; exact I. Qed.

Lemma Inv_fetch_step (e : FetchCodexUsage.Event) (s : FetchCodexUsage.t) :
  Inv_fetch true s -> Inv_fetch true (FetchCodexUsage.step options home_auth e s).
Proof.
  intros HI. unfold FetchCodexUsage.step.
  destruct (to_client e) as [e'|] eqn:He.
  - apply Inv_resume, Inv_child; [by apply (to_client_child e) | exact HI].
  - destruct e as [| | | |now]; try done.
    destruct s as [c [id|id|id a|a rl|r]]; simpl; try done.
    by apply Inv_return.
Qed.

Lemma Inv_fetch_run (es : list FetchCodexUsage.Event) (s : FetchCodexUsage.t) :
  Inv_fetch true s -> Inv_fetch true (FetchCodexUsage.run options home_auth es s).
Proof.
  revert s. induction es as [|e es IH]; intros s HI; simpl; [exact HI|].
  by apply IH, Inv_fetch_step.
Qed.

Lemma Inv_call (es : list FetchCodexUsage.Event) : Inv_fetch true (call es).
Proof. apply Inv_fetch_run, Inv_fetch_start. Qed.


(** X22. Whatever the child does, [fetchCodexUsage] writes to it nothing
    but its protocol, in order: the [initialize] request with the client
    info, under id 1; once that was answered without error, the
    [initialized] notification and the [account/read] request, under id
    2; once that was answered without error, the
    [account/rateLimits/read] request, under id 3. *)
Theorem requests_in_order (es : list FetchCodexUsage.Event) :
  reverse (written (client (call es))) = take 1 (protocol options)
  \/ (reverse (written (client (call es))) = take 3 (protocol options)
      /\ exists v, outcome (client (call es)) 1 = Some (Ok v))
  \/ (reverse (written (client (call es))) = protocol options
      /\ (exists v, outcome (client (call es)) 1 = Some (Ok v))
      /\ (exists v, outcome (client (call es)) 2 = Some (Ok v))).
Proof.
  destruct (inv_sent _ _ (Inv_call es)) as [[_ Hw]|[(_ & Hw & H1)|(_ & Hw & H1 & H2)]];
    rewrite Hw, reverse_involutive; auto.
Qed.

Lemma waiting_for (es : list FetchCodexUsage.Event) :
  match awaited (stage (call es)) with
  | Some (id, method) =>
      pending (client (call es)) = {[ id := {| timeoutId := id |} ]}
      /\ timers (client (call es))
         = {[ id := {| t_id := id; t_method := method;
                       t_timeoutMs := timeoutMs_of options |} ]}
      /\ outcome (client (call es)) id = None
  | None => pending (client (call es)) = ∅ /\ timers (client (call es)) = ∅
  end.
Proof.
  destruct (Inv_call es) as [HI Hsent Htimer _ Hstage].
  unfold at_stage in Hstage. set (s := call es) in *.
  assert (forall id method,
            awaited (stage s) = Some (id, method) ->
            1 <= id < nextId (client s) -> outcome (client s) id = None ->
            (forall k, 1 <= k < nextId (client s) -> k <> id ->
                       is_Some (outcome (client s) k)) ->
            pending (client s) = {[ id := {| timeoutId := id |} ]}
            /\ timers (client s)
               = {[ id := {| t_id := id; t_method := method;
                             t_timeoutMs := timeoutMs_of options |} ]}
            /\ outcome (client s) id = None) as Hbusy.
  { intros id method Hwait Hid Hnone Hall.
    pose proof (busy (client s) id HI Hid Hnone Hall) as Hp.
    split; [exact Hp|]. split; [|exact Hnone].
    apply map_eq. intros k. destruct (timers (client s) !! k) as [tm|] eqn:Htm.
    - destruct (Htimer k tm Htm) as (m & Hm & ->). rewrite Hwait in Hm.
      injection Hm as <- <-. by rewrite lookup_singleton_eq.
    - destruct (decide (k = id)) as [->|Hne];
        [|by rewrite lookup_singleton_ne].
      assert (is_Some (timers (client s) !! id)) as [tm Htm'].
      { apply (inv_timers _ HI). rewrite Hp, lookup_singleton_eq. eauto. }
      congruence. }
  destruct (stage s) as [id|id|id a|a rl|r] eqn:Hst; simpl.
  - destruct Hstage as (-> & Hn & _ & Hnone).
    apply Hbusy; [done | lia | by apply Hnone |]. intros k ? ?. lia.
  - destruct Hstage as (-> & Hn & _ & Hnone).
    destruct (sent_second _ Hsent Hn) as [_ [v Hv]].
    apply Hbusy; [done | lia | by apply Hnone |].
    intros k ? ?. assert (k = 1) as -> by lia. eauto.
  - destruct Hstage as (-> & Hn & _ & Ha & Hnone).
    destruct (sent_third _ Hsent Hn) as (_ & [v Hv] & _).
    apply Hbusy; [done | lia | by apply Hnone |].
    intros k ? ?. assert (k = 1 \/ k = 2) as [-> | ->] by lia; eauto.
  - destruct Hstage as (Hn & _ & _ & Hrl).
    apply (idle _ HI), (answered_upto _ Hsent). rewrite Hn. simpl. eauto.
  - destruct Hstage as (Hclosed & _ & Ht & _).
    split; [by apply (inv_closed _ HI) | exact Ht].
Qed.

(** X23. The function has one call pending while it waits for a
    response, the one it waits for, whose timer runs for the method asked
    and the call's [timeoutMs]; it has none, and no timer, while it reads
    the credential file and once it has settled. *)
Theorem one_call_at_a_time (es : list FetchCodexUsage.Event) :
  match awaited (stage (call es)) with
  | Some (id, method) =>
      pending (client (call es)) = {[ id := {| timeoutId := id |} ]}
      /\ timers (client (call es))
         = {[ id := {| t_id := id; t_method := method;
                       t_timeoutMs := timeoutMs_of options |} ]}
      /\ outcome (client (call es)) id = None
  | None => pending (client (call es)) = ∅ /\ timers (client (call es)) = ∅
  end.
Proof. exact (waiting_for es). Qed.

(** Once it has settled the function does nothing more. *)
Lemma settled_fetch_step (e : FetchCodexUsage.Event) (s : FetchCodexUsage.t)
    (r : Res Returned) :
  Inv_fetch true s -> stage s = Settled r ->
  stage (FetchCodexUsage.step options home_auth e s) = Settled r
  /\ written (client (FetchCodexUsage.step options home_auth e s)) = written (client s)
  /\ settles (client (FetchCodexUsage.step options home_auth e s)) = settles (client s).
Proof.
  intros [HI _ _ _ Hstage] Hst. unfold at_stage in Hstage. rewrite Hst in Hstage.
  destruct Hstage as (Hclosed & _).
  unfold FetchCodexUsage.step. destruct (to_client e) as [e'|] eqn:He.
  - unfold resume. simpl. rewrite Hst.
    destruct (WireFacts.closed_step e' (client s) HI Hclosed)
      as (_ & _ & Hs & Hw & _). by repeat split.
  - destruct e; try done. by rewrite Hst.
Qed.

(** X24. The client is closed exactly when the function has settled, with
    a snapshot or an error: then the child was killed, no call is pending
    and no timer runs, and whatever the child still sends changes neither
    the result nor what was written.  [close] never rejects a call: no
    call of the function fails with "Codex RPC client closed". *)
Theorem settled_is_closed (es : list FetchCodexUsage.Event) :
  (closed (client (call es)) = true <-> exists r, stage (call es) = Settled r)
  /\ (closed (client (call es)) = true ->
      killed (client (call es)) = true
      /\ pending (client (call es)) = ∅ /\ timers (client (call es)) = ∅)
  /\ (forall st, st ∈ settles (client (call es)) -> s_trigger st <> Closed)
  /\ (forall r es', stage (call es) = Settled r ->
      stage (FetchCodexUsage.run options home_auth es' (call es)) = Settled r
      /\ written (client (FetchCodexUsage.run options home_auth es' (call es)))
         = written (client (call es))
      /\ settles (client (FetchCodexUsage.run options home_auth es' (call es)))
         = settles (client (call es))).
Proof.
  pose proof (Inv_call es) as HIf. set (s := call es) in *.
  destruct HIf as [HI Hsent Htimer Hsettles Hstage].
  assert (closed (client s) = true <-> exists r, stage s = Settled r) as Hiff.
  { unfold at_stage in Hstage. destruct (stage s) as [id|id|id a|a rl|r].
    - destruct Hstage as (_ & _ & -> & _). split; [done | by intros [? [=]]].
    - destruct Hstage as (_ & _ & -> & _). split; [done | by intros [? [=]]].
    - destruct Hstage as (_ & _ & -> & _). split; [done | by intros [? [=]]].
    - destruct Hstage as (_ & -> & _). split; [done | by intros [? [=]]].
    - destruct Hstage as (-> & _). split; eauto. }
  split; [exact Hiff|]. split.
  { intros [r Hr]%Hiff. unfold at_stage in Hstage. rewrite Hr in Hstage.
    destruct Hstage as (Hclosed & Hk & Ht & _).
    split; [exact Hk|]. split; [by apply (inv_closed _ HI) | exact Ht]. }
  split; [exact Hsettles|].
  intros r es' Hr.
  assert (Inv_fetch true s) as HIf by (by split).
  clearbody s. clear - HIf Hr. revert s HIf Hr.
  induction es' as [|e es' IH]; intros s HIf Hr; simpl; [done|].
  destruct (settled_fetch_step e s r HIf Hr) as (Hst & Hw & Hs).
  rewrite <- Hw, <- Hs. apply IH; [by apply Inv_fetch_step | exact Hst].
Qed.

(** The function goes to its [catch] block when the call it waits for was
    rejected. *)
Lemma rejected_step (e : CodexRpcClient.Event) (s : FetchCodexUsage.t) (id : Z)
    (method message : string) :
  match e with DoRequest _ _ _ | DoNotify _ _ | DoClose => False | _ => True end ->
  Inv_fetch true s -> awaited (stage s) = Some (id, method) ->
  outcome (CodexRpcClient.step e (client s)) id = Some (Throw message) ->
  stage (resume options {| client := CodexRpcClient.step e (client s);
                           stage := stage s |})
  = Settled (Throw (rethrown message (stderr (CodexRpcClient.step e (client s))))).
Proof.
  intros He HIf Hwait Hout. unfold resume. simpl.
  destruct (stage s) as [k|k|k a|a rl|r]; try discriminate;
    injection Hwait as -> <-; by rewrite Hout.
Qed.

(** X25. No wait for a response is without end: the timer of the call the
    function waits for runs, and when it fires the function fails with
    "Codex RPC request timed out: <method>"; when the child exits, it
    fails with the error of the exit.  Either way the message is followed
    by the diagnostic output there is at that time. *)
Theorem wait_ends (es : list FetchCodexUsage.Event) (id : Z) (method : string) :
  awaited (stage (call es)) = Some (id, method) ->
  stage (FetchCodexUsage.step options home_auth (Fired id) (call es))
  = Settled (Throw (rethrown ("Codex RPC request timed out: " +:+ method)
                             (stderr (client (call es)))))
  /\ (forall code signal,
      stage (FetchCodexUsage.step options home_auth (Exit code signal) (call es))
      = Settled (Throw (rethrown (exitMessage code signal)
                                 (stderr (client (call es)))))).
Proof.
  intros Hwait. pose proof (waiting_for es) as Hone.
  pose proof (Inv_call es) as HIf. set (s := call es) in *.
  rewrite Hwait in Hone. destruct Hone as (Hp & Ht & Hnone).
  pose proof (inv_client _ _ HIf) as HI.
  assert (closed (client s) = false) as Hclosed.
  { destruct (closed (client s)) eqn:Hc; [|reflexivity].
    apply (inv_closed _ HI) in Hc. rewrite Hc in Hp.
    apply (f_equal (fun m => m !! id)) in Hp.
    by rewrite lookup_empty, lookup_singleton_eq in Hp. }
  split.
  - unfold FetchCodexUsage.step. simpl to_client. cbv iota.
    rewrite (rejected_step (OnTimeout id) s id method
               ("Codex RPC request timed out: " +:+ method)); try done.
    + simpl. unfold timeout. by rewrite Ht, lookup_singleton_eq.
    + simpl. unfold outcome, timeout. rewrite Ht, lookup_singleton_eq. simpl.
      fold (outcome (client s) id). rewrite Hnone. by rewrite Z.eqb_refl.
  - intros code signal. unfold FetchCodexUsage.step. simpl to_client. cbv iota.
    rewrite (rejected_step (OnExit code signal) s id method
               (exitMessage code signal)); try done.
    + simpl. unfold exit. rewrite Hclosed. by rewrite failAllPending_eq.
    + simpl. unfold exit. rewrite Hclosed.
      apply (failAllPending_outcome _ _ _ id {| timeoutId := id |} HI).
      by rewrite Hp, lookup_singleton_eq.
Qed.


Lemma call_snoc (es : list FetchCodexUsage.Event) (e : FetchCodexUsage.Event) :
  call (es ++ [e]) = FetchCodexUsage.step options home_auth e (call es).
Proof. unfold call, FetchCodexUsage.run. by rewrite foldl_app. Qed.

(** Only the [return] statement settles the function with a result. *)
Lemma resume_no_result (s : FetchCodexUsage.t) (ret : Returned) :
  stage (resume options s) = Settled (Ok ret) -> stage s = Settled (Ok ret).
Proof.
  unfold resume, await, request, catch, finally_.
  destruct (stage s) as [id|id|id a|a rl|r] eqn:Hst; [| | |congruence..];
    (destruct (outcome (client s) id) as [[v|message]|]; simpl;
     [|discriminate|congruence]);
    try discriminate;
    by match goal with |- context [if ?b then _ else _] => destruct b end.
Qed.

(** X27. The function returns a result in the turn in which the reading
    of the credential file settles, and in no other: the result is
    stamped with the clock of that turn, and holds the answers the
    function had when it began to read the file, whatever happened to the
    child since. *)
Theorem returns_after_auth (es : list FetchCodexUsage.Event) (ret : Returned) :
  stage (call es) = Settled (Ok ret) ->
  exists before after,
    es = before ++ AuthRead (fetchedAt ret) :: after
    /\ stage (call before) = ReadAuth (accountResult ret) (rateLimitsResult ret).
Proof.
  induction es as [|e es IH] using rev_ind.
  - unfold call, start, await, request. simpl. discriminate.
  - rewrite call_snoc. intros Hst.
    destruct (stage (call es)) as [id|id|id a|a rl|r] eqn:Hprev.
    5: { destruct (settled_fetch_step e (call es) r (Inv_call es) Hprev) as (Hr & _).
         rewrite Hr in Hst. injection Hst as ->.
         destruct (IH eq_refl) as (before & after & -> & Hb).
         exists before, (after ++ [e]). split; [|exact Hb].
         by rewrite <- app_assoc. }
    all: unfold FetchCodexUsage.step in Hst;
      destruct (to_client e) as [e'|] eqn:He;
      [apply resume_no_result in Hst; simpl in Hst; congruence|];
      destruct e as [| | | |now]; try discriminate;
      rewrite Hprev in Hst; cbv iota in Hst; rewrite ?Hprev in Hst;
      try discriminate.
    unfold return_, catch, finally_ in Hst.
    destruct (member a "account"); [|discriminate].
    destruct (member rl "rateLimits"); [|discriminate].
    injection Hst as <-. simpl. exists es, []. by split.
Qed.

End WithHost.
End FetchFacts.

Module FetchSample.
Import CodexRpcClient FetchCodexUsage FetchFacts.

(** A host whose [JSON.parse] knows the answers of a Codex process to the
    three requests, and an error; the rest is the sample host's. *)
Definition replies : Host :=
  {| JSON_parse := fun text =>
       if String.eqb text "result-1" then
         Some (JObj [("id", JNum (Fin 1)); ("result", JObj [])])
       else if String.eqb text "result-2" then
         Some (JObj [("id", JNum (Fin 2));
                     ("result", JObj [("requiresOpenaiAuth", JBool true)])])
       else if String.eqb text "result-3" then
         Some (JObj [("id", JNum (Fin 3));
                     ("result", JObj [("rateLimits", JNull)])])
       else if String.eqb text "error-2" then
         Some (JObj [("id", JNum (Fin 2));
                     ("error", JObj [("code", JStr "-32600");
                                     ("message", JStr "Invalid request")])])
       else @JSON_parse Sample.host text;
     base64_utf8 := @base64_utf8 Sample.host;
     readFile := @readFile Sample.host;
     Date_parse := @Date_parse Sample.host;
     Date_parse_empty := @Date_parse_empty Sample.host;
     toUTCString := @toUTCString Sample.host;
     ToString := @ToString Sample.host;
     Number_of := @Number_of Sample.host;
     env_RPC_CACHE_TTL_MS := None |}.

Definition options : CodexFetchOptions :=
  {| binaryPath := None; timeoutMs := Some 2000;
     authPath := Some Sample.authPath; clientInfo := None |}.

(** The three answers come, with a warning of the child in between, then
    the credential file is read. *)
Definition answers : list FetchCodexUsage.Event :=
  [Line "result-1"; Stderr "warning: slow"; Line "result-2"; Line "result-3";
   AuthRead 1700000000000].

Definition returned : Returned :=
  {| accountResult := Some (JObj [("requiresOpenaiAuth", JBool true)]);
     rateLimitsResult := Some (JObj [("rateLimits", JNull)]);
     authFallback := Some (Codex.fallback_of Sample.claims);
     fetchedAt := 1700000000000 |}.

(** The first request is answered; the second is not, and its timer fires. *)
Lemma wait_ends_witness :
  awaited (stage (call (H:=replies) options "" [Line "result-1"]))
  = Some (2, "account/read")
  /\ stage (FetchCodexUsage.step (H:=replies) options "" (Fired 2)
              (call (H:=replies) options "" [Line "result-1"]))
     = Settled (Throw "Codex RPC request timed out: account/read").
Proof.
  split; [vm_compute; reflexivity|].
  refine (proj1 (wait_ends (H:=replies) options "" [Line "result-1"] 2
                   "account/read" _)).
  vm_compute. reflexivity.
Defined.


Lemma returns_after_auth_witness :
  stage (call (H:=replies) options "" answers) = Settled (Ok returned)
  /\ exists before after,
       answers = before ++ AuthRead 1700000000000 :: after
       /\ stage (call (H:=replies) options "" before)
          = ReadAuth (accountResult returned) (rateLimitsResult returned).
Proof.
  split; [vm_compute; reflexivity|].
  apply (returns_after_auth (H:=replies) options "" answers returned).
  vm_compute. reflexivity.
Defined.

End FetchSample.

(** ** [index.ts]: the uncached route and the choice of the port *)

Module Server.
Import Transformer Rpc Routes.

(** [UsageApiSuccess] and [UsageApiError]. *)
Inductive ApiBody :=
| Success (type : string) (email : option string) (usage : AgentUsageSnapshot)
| Error (type : string) (email : option string) (error : string).

Record ApiResponse := {
  api_status : Z;
  api_body : ApiBody;
}.

(** What the handler of [/api/usage] reads of a request. *)
Record Query := {
  q_type : option string;
  q_email : option string;
}.

(** [(c.req.query("type") ?? "codex").toLowerCase()] *)
Definition type_of (q : Query) : string :=
  toLowerCase (default "codex" (q_type q)).

(** [email && usage.account?.email && usage.account.email !== email] *)
Definition other_usage (email : option string) (usage : AgentUsageSnapshot) : bool :=
  match email with
  | None => false
  | Some email =>
      let account_email := account usage ≫= u_email in
      truthy account_email &&
      negb match account_email with
           | Some (JStr s) => String.eqb s email
           | _ => false
           end
  end.

(** The handler up to its [await]: its answer, or it calls
    [fetchCodexUsage()]. *)
Definition api_enter (q : Query) : option ApiResponse :=
  if negb (supported (type_of q))
  then Some {| api_status := 400;
               api_body := Error (type_of q) (email_of (q_email q))
                             ("Unsupported usage type: " +:+ type_of q) |}
  else None.

(** The handler once [fetchCodexUsage()] has settled. *)
Definition api_usage (q : Query) (fetched : Res Codex.CodexUsageSnapshot)
  : ApiResponse :=
  let type := type_of q in
  let email := email_of (q_email q) in
  match fetched with
  | Ok snapshot =>
      let usage := normalizeCodexUsage snapshot in
      if other_usage email usage
      then {| api_status := 404;
              api_body := Error type email "No usage data for requested email." |}
      else {| api_status := 200; api_body := Success type email usage |}
  | Throw message => {| api_status := 500; api_body := Error type email message |}
  end.

Definition DEFAULT_PORT : number := Fin 8787.

(** [l.findIndex(p)]: [None] for -1. *)
Fixpoint findIndex {A} (p : A -> bool) (l : list A) : option nat :=
  match l with
  | [] => None
  | x :: r => if p x then Some 0%nat else S <$> findIndex p r
  end.

(** [Number.isFinite(parsed) && parsed >= 0] *)
Definition acceptable (parsed : number) : bool :=
  match parsed with
  | Fin q => Qle_bool 0 q
  | _ => false
  end.

Section WithHost.
Context `{Host}.

Definition parsePortArg (args : list string) : option number :=
  let flagged :=
    match findIndex (fun arg => String.eqb arg "--port" || String.eqb arg "-p") args
    with
    | Some flagIndex =>
        match args !! (flagIndex + 1)%nat with
        | Some value =>
            if String.eqb value "" then None
            else if acceptable (Number_of value) then Some (Number_of value)
            else None
        | None => None
        end
    | None => None
    end in
  match flagged with
  | Some parsed => Some parsed
  | None =>
      match List.find (startsWith "--port=") args with
      | Some inlineFlag =>
          if String.eqb inlineFlag "" then None
          else
            let value := default "" (split "=" inlineFlag !! 1%nat) in
            if acceptable (Number_of value) then Some (Number_of value) else None
      | None => None
      end
  end.

(** The port the server listens on, from [Bun.argv] and [Bun.env.PORT]. *)
Definition port (argv : list string) (env_PORT : option string) : number :=
  let portArg := parsePortArg argv in
  let portEnv :=
    match env_PORT with
    | Some raw => if String.eqb raw "" then None else Some (Number_of raw)
    | None => None
    end in
  match portArg with
  | Some parsed => parsed
  | None =>
      match portEnv with
      | Some parsed => if Number_isFinite parsed then parsed else DEFAULT_PORT
      | None => DEFAULT_PORT
      end
  end.

End WithHost.

End Server.

Module ServerFacts.
Import Transformer Rpc RpcFacts Routes Server.

Section WithHost.
Context `{Host}.

(** What [/rpc/usage/:type] answers to the same type and email, without
    conditional headers, once its [loadUsage] has settled on the same
    fetch. *)
Definition as_rpc (q : Query) (fetched : Res Codex.CodexUsageSnapshot) : Response :=
  usage {| param_type := default "codex" (q_type q);
           query_email := q_email q;
           conditional := {| if_none_match := None; if_modified_since := None |} |}
        (settles_with (type_of q) fetched).

(** X28. The uncached route answers as the cached route of the same type
    does to a request without conditional headers, from the entry made of
    the same snapshot: the same status, and in a 200 the same type, email
    and usage; a request that names no type is one for codex, and is
    never rejected as unsupported. *)
Theorem api_usage_as_rpc (q : Query) (fetched : Res Codex.CodexUsageSnapshot) :
  api_status (api_usage q fetched) = status (as_rpc q fetched)
  /\ (forall type email used,
       api_body (api_usage q fetched) = Success type email used <->
       exists lastUpdated,
         body (as_rpc q fetched) = Some (Usage type email lastUpdated used))
  /\ (forall type email error,
       api_body (api_usage q fetched) = Error type email error <->
       body (as_rpc q fetched) = Some (Failed type email error))
  /\ (q_type q = None -> api_enter q = None)
  /\ (api_enter q = None <-> type_of q = "codex").
Proof.
  unfold as_rpc, api_usage, usage, type_of. simpl.
  assert (supported (toLowerCase (default "codex" (q_type q))) = true
          <-> toLowerCase (default "codex" (q_type q)) = "codex") as Hsup.
  { unfold supported, SUPPORTED_TYPES. simpl. rewrite orb_false_r.
    by destruct (String.eqb_spec (toLowerCase (default "codex" (q_type q))) "codex"). }
  assert (api_enter q = None <-> type_of q = "codex") as Henter.
  { unfold api_enter. fold (type_of q) in Hsup.
    destruct (supported (type_of q)); simpl.
    - split; [intros _; by apply Hsup | done].
    - split; [done|]. intros Heq%Hsup. discriminate. }
  destruct fetched as [snapshot|message]; simpl.
  - unfold isNotModified. simpl.
    assert (other_account (email_of (q_email q))
              (built (toLowerCase (default "codex" (q_type q))) snapshot)
            = other_usage (email_of (q_email q)) (normalizeCodexUsage snapshot))
      as -> by reflexivity.
    destruct (other_usage _ _); simpl.
    + split; [reflexivity|]. split.
      * intros type email used. split; [done | by intros [? [=]]].
      * split.
        -- intros type email error. split; by intros [= <- <- <-].
        -- split; [|exact Henter]. intros Hq. apply Henter.
           unfold type_of. by rewrite Hq.
    + split; [reflexivity|]. split.
      * intros type email used. split.
        -- intros [= <- <- <-]. eauto.
        -- by intros [? [= <- <- _ <-]].
      * split.
        -- intros type email error. split; discriminate.
        -- split; [|exact Henter]. intros Hq. apply Henter.
           unfold type_of. by rewrite Hq.
  - split; [reflexivity|]. split.
    + intros type email used. split; [done | by intros [? [=]]].
    + split.
      * intros type email error. split; by intros [= <- <- <-].
      * split; [|exact Henter]. intros Hq. apply Henter.
        unfold type_of. by rewrite Hq.
Qed.

Lemma findIndex_app {A} (p : A -> bool) (before after : list A) (x : A) :
  Forall (fun a => p a = false) before -> p x = true ->
  findIndex p (before ++ x :: after) = Some (length before).
Proof.
  intros Hb Hx. induction Hb as [|a before Ha Hb IH]; simpl; [by rewrite Hx|].
  by rewrite Ha, IH.
Qed.

(** X29. The port is always a finite number.  One taken from the
    arguments is not negative, and wins over [PORT], which wins over
    8787; a [PORT] that is a finite number is taken whatever its sign.
    Of the flags [--port] and [-p] only the first counts: its value, when
    acceptable, is the port, whatever else the arguments hold. *)
Theorem port_is_finite (argv : list string) (env_PORT : option string) :
  Number_isFinite (port argv env_PORT) = true
  /\ (forall parsed, parsePortArg argv = Some parsed ->
      (exists q, parsed = Fin q /\ (0 <= q)%Q) /\ port argv env_PORT = parsed)
  /\ (parsePortArg argv = None ->
      port argv None = DEFAULT_PORT
      /\ forall raw, raw <> "" -> Number_isFinite (Number_of raw) = true ->
                     port argv (Some raw) = Number_of raw)
  /\ (forall before flag value after,
      Forall (fun arg => arg <> "--port" /\ arg <> "-p") before ->
      flag = "--port" \/ flag = "-p" -> value <> "" ->
      acceptable (Number_of value) = true ->
      parsePortArg (before ++ flag :: value :: after) = Some (Number_of value)).
Proof.
  assert (forall n, acceptable n = true -> exists q, n = Fin q /\ (0 <= q)%Q) as Hacc.
  { intros [| |q]; simpl; try discriminate. intros Hq%Qle_bool_iff. eauto. }
  assert (forall parsed, parsePortArg argv = Some parsed ->
            exists q, parsed = Fin q /\ (0 <= q)%Q) as Hparsed.
  { intros parsed. unfold parsePortArg.
    match goal with
    | |- match _ with Some _ => _ | None => ?i end = _ -> _ => set (inline := i)
    end.
    assert (inline = Some parsed -> exists q, parsed = Fin q /\ (0 <= q)%Q)
      as Hinline.
    { subst inline. destruct (List.find _ argv) as [f|]; [|done].
      destruct (String.eqb f ""); [done|].
      destruct (acceptable _) eqn:Hok; [|done]. intros [= <-]. by apply Hacc. }
    clearbody inline.
    destruct (findIndex _ argv) as [i|]; [|exact Hinline].
    destruct (argv !! _) as [v|]; [|exact Hinline].
    destruct (String.eqb v ""); [exact Hinline|].
    destruct (acceptable (Number_of v)) eqn:Hok; [|exact Hinline].
    intros [= <-]. by apply Hacc. }
  split.
  { unfold port. destruct (parsePortArg argv) as [parsed|] eqn:Hp.
    - by destruct (Hparsed parsed eq_refl) as (q & -> & _).
    - destruct env_PORT as [raw|]; [|reflexivity].
      destruct (String.eqb raw ""); [reflexivity|].
      by destruct (Number_isFinite (Number_of raw)) eqn:Hfin. }
  split.
  { intros parsed Hp. split; [by apply Hparsed|]. unfold port. by rewrite Hp. }
  split.
  { intros Hp. unfold port. rewrite Hp. split; [reflexivity|].
    intros raw Hraw Hfin.
    destruct (String.eqb_spec raw ""); [done|]. by rewrite Hfin. }
  intros before flag value after Hbefore Hflag Hvalue Hok.
  unfold parsePortArg. rewrite (findIndex_app _ before).
  - replace (length before + 1)%nat with (length before + 1 + 0)%nat by lia.
    rewrite <- Nat.add_assoc, lookup_app_r by lia.
    replace (length before + (1 + 0) - length before)%nat with 1%nat by lia.
    simpl. destruct (String.eqb_spec value ""); [done|]. by rewrite Hok.
  - eapply Forall_impl; [exact Hbefore|]. intros arg [Hl Hs]. simpl in *.
    destruct (String.eqb_spec arg "--port"); [done|].
    by destruct (String.eqb_spec arg "-p").
  - by destruct Hflag as [-> | ->].
Qed.

End WithHost.
End ServerFacts.
